(** * AnaFlow: the extended GRF model in Laplace space

    A shallow embedding of [anaflow/flow/laplace.py] ([grf_laplace] and
    [get_bessel]).  NumPy arrays of [float64] are lists of binary64 floats
    (Rocq's primitive [float]); the workspaces [V], [Mb] and [X] that the
    Python code allocates once and overwrites in every iteration are threaded
    through the loops as explicit state; Python exceptions are the [Raise]
    branch of a result type.  The special functions of SciPy, the power
    operators, [sph_surf] and the two linear solvers are not part of the
    file under verification: they are the fields of the class [Numerics].
    A second part embeds [neuman_unconfined_laplace] of
    [anaflow/flow/Neuman.py] in the same way. *)

From Stdlib Require Import Floats ZArith Lia Bool String.
From stdpp Require Import base list.

Set Default Proof Using "Type*".
Set Warnings "-inexact-float".

(** ** Binary64 arithmetic as NumPy uses it *)

Module F64.

Definition zero : float := 0%float.
Definition one : float := 1%float.
Definition inf : float := infinity.

(** Largest finite double, [numpy.finfo(float).max]. *)
Definition DBL_MAX : float := 0x1.fffffffffffffp+1023%float.

(** [a > b] of Python on floats. *)
Definition gtb (a b : float) : bool := (b <? a)%float.

(** [numpy.maximum] and [numpy.minimum]: a NaN operand is returned
    (the first one when both are NaN). *)
Definition maximum (a b : float) : float :=
  if is_nan a then a else if is_nan b then b
  else if (a <? b)%float then b else a.

Definition minimum (a b : float) : float :=
  if is_nan a then a else if is_nan b then b
  else if (b <? a)%float then b else a.

(** [numpy.nan_to_num] with its default arguments, on one element:
    NaN becomes [0.0], [+inf] the largest finite double and [-inf] the
    most negative one. *)
Definition nan_to_num1 (x : float) : float :=
  if is_nan x then zero
  else if (x =? infinity)%float then DBL_MAX
  else if (x =? neg_infinity)%float then (- DBL_MAX)%float
  else x.

Definition nan_to_num (a : list float) : list float := fmap nan_to_num1 a.

(** Float equality with zero, [x == 0] ([-0.0] included). *)
Definition is_zero (x : float) : bool := (x =? 0)%float.

End F64.

#[global] Instance float_inhabited : Inhabited float := populate F64.zero.

(** ** Exceptions and results *)

Inductive exn : Type :=
  | ValueError (msg : string)
  | IndexError
  | LinAlgError
  | ZeroDivisionError
  | OverflowError.

Inductive result (A : Type) : Type :=
  | Ok (a : A)
  | Raise (e : exn).
Arguments Ok {A} a.
Arguments Raise {A} e.

Definition bind {A B : Type} (m : result A) (f : A -> result B) : result B :=
  match m with Ok a => f a | Raise e => Raise e end.

Notation "'let*' x ':=' m 'in' k" := (bind m (fun x => k))
  (at level 10, x name, m at level 100, k at level 200).

Definition is_ok {A} (r : result A) : bool :=
  match r with Ok _ => true | Raise _ => false end.

(** The messages of the [ValueError]s raised by the input check. *)
Definition msg_lengths : string := "R_part, S_part and K_part need matching lengths.".
Definition msg_wellradius : string := "The wellradius needs to be >= 0.".
Definition msg_sorted : string := "The radii values need to be sorted.".
Definition msg_range : string := "The given radii need to be in the given range.".
Definition msg_conductivity : string := "The Conductivity needs to be positiv.".
Definition msg_storage : string := "The Storage needs to be positiv.".
Definition msg_dimension : string := "The dimension needs to be positiv and <= 3.".
Definition msg_lat_ext : string := "The lateral extend needs to be positiv.".
Definition msg_well_conductivity : string := "The well conductivity needs to be positiv.".
(** The message of NumPy's [ValueError] for [min] and [max] of an empty array. *)
Definition msg_empty_reduction : string :=
  "zero-size array to reduction operation minimum which has no identity".

(** [numpy.min] and [numpy.max] of a one-dimensional array. *)
Definition np_min (a : list float) : result float :=
  match a with
  | [] => Raise (ValueError msg_empty_reduction)
  | x :: l => Ok (foldl F64.minimum x l)
  end.

Definition np_max (a : list float) : result float :=
  match a with
  | [] => Raise (ValueError msg_empty_reduction)
  | x :: l => Ok (foldl F64.maximum x l)
  end.

(** [numpy.searchsorted(a, v)] (side left) on a sorted array: the number of
    leading elements that are smaller than [v]. *)
Fixpoint searchsorted (a : list float) (v : float) : nat :=
  match a with
  | [] => 0
  | x :: l => if (x <? v)%float then S (searchsorted l v) else 0
  end.

(** ** The external numerical routines *)

Definition mat2 : Type := (float * float) * (float * float).
Definition vec2 : Type := float * float.

Class Numerics : Type := {
  (** [scipy.special.kv(nu, x)] and [scipy.special.iv(nu, x)] *)
  kv : float -> float -> float;
  iv : float -> float -> float;
  (** [scipy.special.gamma] *)
  gamma : float -> float;
  (** [anaflow.tools.special.sph_surf]: surface of the unit sphere *)
  sph_surf : float -> float;
  (** [**] on NumPy floats and arrays: never raises *)
  np_pow : float -> float -> float;
  (** [**] on two Python floats; [None] is [OverflowError] *)
  py_pow : float -> float -> option float;
  (** [numpy.linalg.solve] on a 2x2 system; [None] is [LinAlgError] *)
  linalg_solve : mat2 -> vec2 -> option vec2;
  (** [pentapy.solve(mat, rhs, is_flat=True, index_row_wise=False)] *)
  penta_solve : list (list float) -> list float -> list float;
  (** pentapy returns an array of the shape of the right-hand side *)
  penta_solve_length : forall mat rhs, length (penta_solve mat rhs) = length rhs
}.

(** ** Array helpers *)

(** [Mb[r, c] = v] and [Mb[r, c]] on a matrix stored as a list of rows.  All
    entries the program assigns are in range (see
    [assemble_positions_in_range]); out of range [set2] changes nothing and
    [get2] yields [0.0]. *)
Definition set2 (r c : nat) (v : float) (Mb : list (list float)) : list (list float) :=
  alter (fun row => <[c := v]> row) r Mb.

Definition get2 (Mb : list (list float)) (r c : nat) : float :=
  (Mb !!! r) !!! c.

(** A loop [for si, se in enumerate(s)] whose body updates the workspaces
    [st] and produces row [si] of the result, or raises. *)
Fixpoint for_each {St A B : Type} (body : St -> A -> result (St * B))
    (st : St) (l : list A) : result (list B) :=
  match l with
  | [] => Ok []
  | x :: l' =>
      match body st x with
      | Raise e => Raise e
      | Ok (st', row) =>
          match for_each body st' l' with
          | Raise e => Raise e
          | Ok rows => Ok (row :: rows)
          end
      end
  end.

(** Index of the first [True] of a boolean array: [np.where(a)[0][0]]. *)
Fixpoint first_true (a : list bool) : option nat :=
  match a with
  | [] => None
  | b :: l => if b then Some 0 else S <$> first_true l
  end.

(** [1 / x] on a Python float. *)
Definition py_inverse (x : float) : result float :=
  if (x =? 0)%float then Raise ZeroDivisionError else Ok (1 / x)%float.

(** [np.max(np.abs(Mb), axis=0)]: the rows are folded with [maximum]. *)
Definition col_absmax (Mb : list (list float)) : list float :=
  match fmap (fun row : list float => fmap abs row) Mb with
  | [] => []
  | r0 :: rs => foldl (zip_with F64.maximum) r0 rs
  end.

(** The condition guard of lines 224-231. *)
Definition Mb_cond (cut_off_prec inv_cut : float) (Mb : list (list float)) : list bool :=
  fmap (fun m => (m <? cut_off_prec)%float || F64.gtb m inv_cut) (col_absmax Mb).

Definition find_first (cut_off_prec inv_cut : float) (parts : nat)
    (Mb : list (list float)) : nat :=
  match first_true (Mb_cond cut_off_prec inv_cut Mb) with
  | Some c => c / 2
  | None => parts
  end.

(** ** Input check (lines 107-125) *)

Definition strictly_increasing (R_part : list float) : bool :=
  forallb (fun rr => (rr.1 <? rr.2)%float)
          (zip (take (length R_part - 1) R_part) (drop 1 R_part)).

Definition lengths_ok (S_part K_part R_part : list float) : bool :=
  (Z.of_nat (length R_part) - 1 =? Z.of_nat (length S_part))%Z
  && (length S_part =? length K_part)
  && (0 <? length K_part).

Definition R_first (R_part : list float) : float := R_part !!! 0.
Definition R_last (R_part : list float) : float := default F64.zero (last R_part).

Definition check_rad (rad R_part : list float) : result unit :=
  let* mn := np_min rad in
  if negb (F64.gtb mn (R_first R_part)) then Raise (ValueError msg_range)
  else
    let* mx := np_max rad in
    if F64.gtb mx (R_last R_part) then Raise (ValueError msg_range) else Ok tt.

Definition check_input (rad S_part K_part R_part : list float)
    (dim lat_ext K_well : float) : result unit :=
  if negb (lengths_ok S_part K_part R_part) then Raise (ValueError msg_lengths)
  else if (R_first R_part <? 0)%float then Raise (ValueError msg_wellradius)
  else if negb (strictly_increasing R_part) then Raise (ValueError msg_sorted)
  else
    let* _ := check_rad rad R_part in
    if negb (forallb (fun con => F64.gtb con 0) K_part)
    then Raise (ValueError msg_conductivity)
    else if negb (forallb (fun stor => F64.gtb stor 0) S_part)
    then Raise (ValueError msg_storage)
    else if negb (F64.gtb dim 0) || F64.gtb dim 3
    then Raise (ValueError msg_dimension)
    else if negb (F64.gtb lat_ext 0) then Raise (ValueError msg_lat_ext)
    else if negb (F64.gtb K_well 0) then Raise (ValueError msg_well_conductivity)
    else Ok tt.

(** ** The solver *)

Section GRF.
Context `{Numerics}.

(** [get_bessel(nu)]: [(kv0, kv1, iv0, iv1)]. *)
Definition get_bessel (nu : float)
  : (float -> float) * (float -> float) * (float -> float) * (float -> float) :=
  (fun x => kv nu x, fun x => kv (nu - 1)%float x,
   fun x => iv nu x, fun x => iv (nu - 1)%float x).

Definition kv0 (nu : float) : float -> float := (get_bessel nu).1.1.1.
Definition kv1 (nu : float) : float -> float := (get_bessel nu).1.1.2.
Definition iv0 (nu : float) : float -> float := (get_bessel nu).1.2.
Definition iv1 (nu : float) : float -> float := (get_bessel nu).2.

(** The pumping condition [Qs] (lines 130-135), one entry per [s]. *)
Definition pumping (nu diff_sr0 R0 : float) (s : list float) : list float :=
  if F64.gtb R0 0 then
    fmap (fun se => (- np_pow se (-1.5) / diff_sr0 * np_pow R0 (nu - 1))%float) s
  else
    fmap (fun se => (np_pow (2 / diff_sr0) nu / gamma (1 - nu)
                    * np_pow se (- nu / 2 - 1))%float) s.

(** *** One disk (lines 142-166) *)

(** The workspaces [V] and [M]. *)
Definition state1 : Type := vec2 * mat2.

Definition init1 : state1 :=
  ((F64.zero, F64.zero), ((F64.one, F64.zero), (F64.zero, F64.one))).

(** The 2x2 system of one transform variable, built in the workspaces. *)
Definition single_system (nu diff_sr0 R0 RN : float) (st : state1)
    (se Qsi : float) : state1 :=
  let Cs := (sqrt se * diff_sr0)%float in
  let V : vec2 := (Qsi, st.1.2) in
  let M : mat2 := st.2 in
  let M : mat2 :=
    if F64.gtb R0 0
    then (((- kv1 nu (Cs * R0))%float, iv1 nu (Cs * R0)%float), M.2)
    else M in
  let M : mat2 :=
    if (RN <? F64.inf)%float
    then (M.1, (kv0 nu (Cs * RN)%float, iv0 nu (Cs * RN)%float))
    else ((M.1.1, F64.zero), M.2) in
  (V, M).

(** The head at the radii [rad]; [res[si, ri]] keeps its initial [0.0]
    where [re < R_part[-1]] fails. *)
Definition single_head (nu Cs RN As Bs : float) (rad : list float) : list float :=
  fmap (fun re =>
         if (re <? RN)%float
         then (np_pow re nu * (As * kv0 nu (Cs * re) + Bs * iv0 nu (Cs * re)))%float
         else F64.zero) rad.

Definition single_disk_step (nu diff_sr0 R0 RN : float) (rad : list float)
    (st : state1) (sq : float * float) : result (state1 * list float) :=
  let st' := single_system nu diff_sr0 R0 RN st sq.1 sq.2 in
  match linalg_solve st'.2 st'.1 with
  | None => Raise LinAlgError
  | Some (As, Bs) =>
      Ok (st', single_head nu (sqrt sq.1 * diff_sr0)%float RN As Bs rad)
  end.

(** *** Several disks (lines 169-265) *)

(** The workspaces [V], [Mb] and [X]. *)
Definition state : Type := list float * list (list float) * list float.

Definition init (parts : nat) : state :=
  (replicate (2 * parts) F64.zero,
   set2 2 (2 * parts - 1) F64.one
     (set2 2 0 F64.one (replicate 5 (replicate (2 * parts) F64.zero))),
   replicate (2 * parts) F64.zero).

Definition Kfrac (K_part : list float) : list float :=
  zip_with div (take (length K_part - 1) K_part) (drop 1 K_part).

Definition difsr (S_part K_part : list float) : list float :=
  fmap sqrt (zip_with div S_part K_part).

Definition tmp (S_part K_part : list float) : list float :=
  let d := difsr S_part K_part in
  zip_with div (zip_with mul (Kfrac K_part) (take (length d - 1) d)) (drop 1 d).

(** [np.searchsorted(R_part, rad) - 1]; after the input check the insertion
    index is between 1 and the number of disks (see [searchsorted_bounds]),
    so the subtraction does not go below zero and [X[2 * pos + 1]] is in
    range. *)
Definition pos (R_part rad : list float) : list nat :=
  fmap (fun r => searchsorted R_part r - 1) rad.

(** The body of [for i in range(parts - 1)] (lines 198-211). *)
Definition assemble_interface (nu : float) (Cs R_part tmp : list float) (i : nat)
    (Mb : list (list float)) : list (list float) :=
  let Ci := Cs !!! i in
  let Ci1 := Cs !!! (i + 1) in
  let Ri1 := R_part !!! (i + 1) in
  let tmpi := tmp !!! i in
  let Mb := set2 0 (2 * i + 3) (- iv0 nu (Ci1 * Ri1))%float Mb in
  let Mb := set2 1 (2 * i + 2) (- kv0 nu (Ci1 * Ri1))%float Mb in
  let Mb := set2 1 (2 * i + 3) (- iv1 nu (Ci1 * Ri1))%float Mb in
  let Mb := set2 2 (2 * i + 1) (iv0 nu (Ci * Ri1))%float Mb in
  let Mb := set2 2 (2 * i + 2) (kv1 nu (Ci1 * Ri1))%float Mb in
  let Mb := set2 3 (2 * i) (kv0 nu (Ci * Ri1))%float Mb in
  let Mb := set2 3 (2 * i + 1) (tmpi * iv1 nu (Ci * Ri1))%float Mb in
  set2 4 (2 * i) (- tmpi * kv1 nu (Ci * Ri1))%float Mb.

(** The boundary conditions (lines 214-222). *)
Definition assemble_boundary (nu : float) (Cs R_part : list float) (parts : nat)
    (Mb : list (list float)) : list (list float) :=
  let R0 := R_first R_part in
  let RN := R_last R_part in
  let C0 := Cs !!! 0 in
  let CN := Cs !!! (parts - 1) in
  let Mb :=
    if F64.gtb R0 0
    then set2 1 1 (iv1 nu (C0 * R0))%float (set2 2 0 (- kv1 nu (C0 * R0))%float Mb)
    else Mb in
  if (RN <? F64.inf)%float
  then set2 2 (2 * parts - 1) (iv0 nu (CN * RN))%float
         (set2 3 (2 * parts - 2) (kv0 nu (CN * RN))%float Mb)
  else set2 1 (2 * parts - 1) F64.zero (set2 0 (2 * parts - 1) F64.zero Mb).

Definition assemble (nu : float) (Cs R_part tmp : list float) (parts : nat)
    (Mb : list (list float)) : list (list float) :=
  assemble_boundary nu Cs R_part parts
    (foldl (fun Mb i => assemble_interface nu Cs R_part tmp i Mb) Mb (seq 0 (parts - 1))).

(** [X[2 * first :] = 0.0] (line 234). *)
Definition zero_from (n : nat) (X : list float) : list float :=
  take n X ++ replicate (length X - n) F64.zero.

(** The truncation of [Mb] through the view [M_sgl] (lines 249-252):
    [M_sgl[-1, -1]], [M_sgl[-2, -1]] and [M_sgl[-1, -2]] are entries of [Mb]. *)
Definition truncate_view (first : nat) (Mb : list (list float)) : list (list float) :=
  set2 4 (2 * first - 2) F64.zero
    (set2 3 (2 * first - 1) F64.zero
       (set2 4 (2 * first - 1) F64.zero Mb)).

(** Lines 234-255: the coefficients before they are cleaned, and [Mb]. *)
Definition solve_coeffs (parts first : nat) (V : list float)
    (Mb : list (list float)) (X : list float) : list (list float) * list float :=
  let X := zero_from (2 * first) X in
  if first <=? 1 then
    let M_sgl : mat2 := ((get2 Mb 2 0, get2 Mb 1 1), (get2 Mb 3 0, get2 Mb 2 1)) in
    let X2 :=
      match linalg_solve M_sgl (V !!! 0, V !!! 1) with
      | Some x => [x.1; x.2]
      | None => [F64.zero; F64.zero]
      end in
    (Mb, X2 ++ drop 2 X)
  else
    let Mb := if first <? parts then truncate_view first Mb else Mb in
    let M_sgl := fmap (take (2 * first)) Mb in
    (Mb, penta_solve M_sgl (take (2 * first) V) ++ drop (2 * first) X).

(** Lines 261-265: the head of one transform variable at all radii. *)
Definition head_row (nu cut_off_prec : float) (Cs X : list float)
    (pos : list nat) (rad : list float) : list float :=
  zip_with (fun p r =>
    let Xk := X !!! (2 * p) in
    let Xi := X !!! (2 * p + 1) in
    let Cp := Cs !!! p in
    let k0_sub := if (abs Xk <? cut_off_prec)%float then F64.zero
                  else (Xk * kv0 nu (Cp * r))%float in
    let i0_sub := if (abs Xi <? cut_off_prec)%float then F64.zero
                  else (Xi * iv0 nu (Cp * r))%float in
    (np_pow r nu * (k0_sub + i0_sub))%float) pos rad.

(** The coefficient vector that the head evaluation of one transform
    variable reads. *)
Definition coeffs_used (parts first : nat) (V : list float)
    (Mb : list (list float)) (X : list float) : list float :=
  F64.nan_to_num (solve_coeffs parts first V Mb X).2.

Definition multi_disk_step (nu cut_off_prec : float)
    (S_part K_part R_part rad : list float)
    (st : state) (sq : float * float) : result (state * list float) :=
  let parts := length K_part in
  let Cs := fmap (fun d => (sqrt sq.1 * d)%float) (difsr S_part K_part) in
  let V := <[0 := sq.2]> st.1.1 in
  let Mb := assemble nu Cs R_part (tmp S_part K_part) parts st.1.2 in
  let* inv_cut := py_inverse cut_off_prec in
  let first := find_first cut_off_prec inv_cut parts Mb in
  let MX := solve_coeffs parts first V Mb st.2 in
  let X := F64.nan_to_num MX.2 in
  Ok ((V, MX.1, X), head_row nu cut_off_prec Cs X (pos R_part rad) rad).

(** *** [grf_laplace] *)

(** [rate / (K_well * sph_surf(dim) * lat_ext ** (3.0 - dim))] *)
Definition scale_factor (dim lat_ext rate K_well : float) : result float :=
  match py_pow lat_ext (3 - dim)%float with
  | None => Raise OverflowError
  | Some p => Ok (rate / (K_well * sph_surf dim * p))%float
  end.

(** [K_well = K_part[0] if K_well is None else float(K_well)] *)
Definition resolve_K_well (K_part : list float) (K_well : option float) : result float :=
  match K_well with
  | Some k => Ok k
  | None => match K_part with [] => Raise IndexError | k :: _ => Ok k end
  end.

Definition solve_all (nu cut_off_prec : float) (s rad S_part K_part R_part : list float)
  : result (list (list float)) :=
  let S0 := S_part !!! 0 in
  let K0 := K_part !!! 0 in
  let diff_sr0 := sqrt (S0 / K0)%float in
  let Qs := pumping nu diff_sr0 (R_first R_part) s in
  if length K_part =? 1 then
    for_each (single_disk_step nu diff_sr0 (R_first R_part) (R_last R_part) rad)
             init1 (zip s Qs)
  else
    for_each (multi_disk_step nu cut_off_prec S_part K_part R_part rad)
             (init (length K_part)) (zip s Qs).

Definition grf_laplace (s rad S_part K_part R_part : list float)
    (dim lat_ext rate : float) (K_well : option float) (cut_off_prec : float)
  : result (list (list float)) :=
  let nu := (1 - dim / 2)%float in
  let* K_well := resolve_K_well K_part K_well in
  let* _ := check_input rad S_part K_part R_part dim lat_ext K_well in
  let* res := solve_all nu cut_off_prec s rad S_part K_part R_part in
  let res := fmap F64.nan_to_num res in
  let* scale := scale_factor dim lat_ext rate K_well in
  Ok (fmap (fun row : list float => fmap (fun x => (x * scale)%float) row) res).

End GRF.


(** ** Notions used in the statements *)

(** [r] lies in the half-open interval [(R_0, R_N]]. *)
Definition in_range (R_part : list float) (r : float) : bool :=
  (R_first R_part <? r)%float && (r <=? R_last R_part)%float.

(** A matrix of [n] rows and [m] columns. *)
Definition mat_shape (n m : nat) (Mb : list (list float)) : Prop :=
  length Mb = n /\ Forall (fun row => length row = m) Mb.

(** The entry [Mb[r, c]], when there is one. *)
Definition entry (Mb : list (list float)) (r c : nat) : option float :=
  match Mb !! r with Some row => row !! c | None => None end.

(** A sequence of assignments [Mb[r, c] = v]. *)
Definition write : Type := nat * nat * float.

Definition apply_writes (ws : list write) (Mb : list (list float))
  : list (list float) :=
  foldl (fun M w => set2 w.1.1 w.1.2 w.2 M) Mb ws.



(** The row a loop body produces, or the exception it raises. *)
Definition row_of {St B : Type} (r : result (St * B)) : result B :=
  match r with Ok sb => Ok sb.2 | Raise e => Raise e end.

(** The entries of [Mb] that the assembly of one transform variable
    assigns. *)
Definition interface_positions (i : nat) : list (nat * nat) :=
  [ (0, 2 * i + 3); (1, 2 * i + 2); (1, 2 * i + 3); (2, 2 * i + 1);
    (2, 2 * i + 2); (3, 2 * i); (3, 2 * i + 1); (4, 2 * i) ].

Definition boundary_positions (R_part : list float) (parts : nat) : list (nat * nat) :=
  (if F64.gtb (R_first R_part) 0 then [ (2, 0); (1, 1) ] else [])
  ++
  (if (R_last R_part <? F64.inf)%float
   then [ (3, 2 * parts - 2); (2, 2 * parts - 1) ]
   else [ (0, 2 * parts - 1); (1, 2 * parts - 1) ]).

Definition assemble_positions (R_part : list float) (parts : nat) : list (nat * nat) :=
  flat_map interface_positions (seq 0 (parts - 1)) ++ boundary_positions R_part parts.

Section Statements.
Context `{Numerics}.

(** The assignments of one pass of the assembly loop and of the boundary
    conditions, in program order. *)
Definition interface_writes (nu : float) (Cs R_part tmp : list float) (i : nat)
  : list write :=
  let Ci := Cs !!! i in
  let Ci1 := Cs !!! (i + 1) in
  let Ri1 := R_part !!! (i + 1) in
  let tmpi := tmp !!! i in
  [ (0, 2 * i + 3, (- iv0 nu (Ci1 * Ri1))%float);
    (1, 2 * i + 2, (- kv0 nu (Ci1 * Ri1))%float);
    (1, 2 * i + 3, (- iv1 nu (Ci1 * Ri1))%float);
    (2, 2 * i + 1, (iv0 nu (Ci * Ri1))%float);
    (2, 2 * i + 2, (kv1 nu (Ci1 * Ri1))%float);
    (3, 2 * i, (kv0 nu (Ci * Ri1))%float);
    (3, 2 * i + 1, (tmpi * iv1 nu (Ci * Ri1))%float);
    (4, 2 * i, (- tmpi * kv1 nu (Ci * Ri1))%float) ].

Definition boundary_writes (nu : float) (Cs R_part : list float) (parts : nat)
  : list write :=
  let R0 := R_first R_part in
  let RN := R_last R_part in
  let C0 := Cs !!! 0 in
  let CN := Cs !!! (parts - 1) in
  (if F64.gtb R0 0
   then [ (2, 0, (- kv1 nu (C0 * R0))%float); (1, 1, (iv1 nu (C0 * R0))%float) ]
   else [])
  ++
  (if (RN <? F64.inf)%float
   then [ (3, 2 * parts - 2, (kv0 nu (CN * RN))%float);
          (2, 2 * parts - 1, (iv0 nu (CN * RN))%float) ]
   else [ (0, 2 * parts - 1, F64.zero); (1, 2 * parts - 1, F64.zero) ]).

Definition assemble_writes (nu : float) (Cs R_part tmp : list float) (parts : nat)
  : list write :=
  flat_map (interface_writes nu Cs R_part tmp) (seq 0 (parts - 1))
  ++ boundary_writes nu Cs R_part parts.

(** One entry of [Qs]. *)
Definition pump1 (nu diff_sr0 R0 se : float) : float :=
  if F64.gtb R0 0
  then (- np_pow se (-1.5) / diff_sr0 * np_pow R0 (nu - 1))%float
  else (np_pow (2 / diff_sr0) nu / gamma (1 - nu) * np_pow se (- nu / 2 - 1))%float.

(** The workspaces at the start of an iteration of the loop over [s]:
    whatever earlier iterations left in [X], in [V[0]] and in the entries
    of [Mb] that the assembly overwrites. *)
Definition state_inv (parts : nat) (R_part : list float) (st : state) : Prop :=
  length st.1.1 = 2 * parts
  /\ drop 1 st.1.1 = replicate (2 * parts - 1) F64.zero
  /\ mat_shape 5 (2 * parts) st.1.2
  /\ (forall r c, (r, c) ∉ assemble_positions R_part parts ->
                  entry st.1.2 r c = entry (init parts).1.2 r c)
  /\ length st.2 = 2 * parts.

(** The workspaces [V] and [M] of the single-disk loop: [V[1]] and the rows
    of [M] that the boundary conditions do not assign keep their initial
    values. *)
Definition state1_inv (R0 RN : float) (st : state1) : Prop :=
  st.1.2 = F64.zero
  /\ (F64.gtb R0 0 = false -> st.2.1 = (F64.one, F64.zero))
  /\ ((RN <? F64.inf)%float = false -> st.2.2 = (F64.zero, F64.one)).

(** The 2x2 system that the single-disk loop hands to [numpy.linalg.solve]
    for the transform variable [se], and whether it is reported singular. *)
Definition single_disk_system (nu : float) (S_part K_part R_part : list float)
    (se : float) : state1 :=
  let S0 := S_part !!! 0 in
  let K0 := K_part !!! 0 in
  let diff_sr0 := sqrt (S0 / K0)%float in
  single_system nu diff_sr0 (R_first R_part) (R_last R_part) init1 se
    (pump1 nu diff_sr0 (R_first R_part) se).

Definition singular1 (nu : float) (S_part K_part R_part : list float)
    (se : float) : bool :=
  let st := single_disk_system nu S_part K_part R_part se in
  match linalg_solve st.2 st.1 with Some _ => false | None => true end.

End Statements.

(** ** Stand-ins for the external routines

    Simple executable functions in place of SciPy, NumPy and pentapy, chosen
    for flow dimension 2 ([nu = 0]): they let the model run on concrete
    inputs.  Every theorem below that is stated for an arbitrary [Numerics]
    holds for whatever the real routines compute. *)

Module Sample.

(** Shaped like the modified Bessel functions: [kv] decays (and underflows
    for large arguments), [iv] grows. *)
Definition kv (nu x : float) : float :=
  if (745 <? x)%float then 0%float
  else
    let x2 := (x * x)%float in
    let x4 := (x2 * x2)%float in
    let x8 := (x4 * x4)%float in
    (1 / (x * (1 + x8 * x8)))%float.
Definition iv (nu x : float) : float := (1 + x * x)%float.

(** [gamma(1) = 1] and [sph_surf(2) = 2 pi]. *)
Definition gamma (x : float) : float := 1%float.
Definition sph_surf (dim : float) : float := 0x1.921fb54442d18p+2%float.

(** Exact for the exponents that occur at dimension 2. *)
Definition np_pow (x y : float) : float :=
  if (y =? 0)%float then 1%float
  else if (y =? 1)%float then x
  else if (y =? -1)%float then (1 / x)%float
  else if (y =? -1.5)%float then (1 / (x * sqrt x))%float
  else nan.

Definition py_pow (x y : float) : option float :=
  let p := np_pow x y in
  if is_infinity p && negb (is_infinity x) then None else Some p.

(** Gaussian elimination with partial pivoting on a 2x2 system; an exactly
    zero pivot is reported as singular. *)
Definition linalg_solve (M : mat2) (V : vec2) : option vec2 :=
  let swap := (abs M.1.1 <? abs M.2.1)%float in
  let r0 := if swap then M.2 else M.1 in
  let r1 := if swap then M.1 else M.2 in
  let v0 := if swap then V.2 else V.1 in
  let v1 := if swap then V.1 else V.2 in
  if (r0.1 =? 0)%float then None
  else
    let l := (r1.1 / r0.1)%float in
    let d := (r1.2 - l * r0.2)%float in
    if (d =? 0)%float then None
    else
      let x1 := ((v1 - l * v0) / d)%float in
      Some (((v0 - r0.2 * x1) / r0.1)%float, x1).

(** Only the main diagonal (row 2 of the banded storage) is used. *)
Definition penta_solve (mat : list (list float)) (rhs : list float) : list float :=
  imap (fun j v => (v / get2 mat 2 j)%float) rhs.

Definition numerics : Numerics :=
  Build_Numerics kv iv gamma sph_surf np_pow py_pow linalg_solve penta_solve
    (fun mat rhs => length_imap _ rhs).

(** Two disks around a well of radius 1, and one transform variable. *)
Definition S_part : list float := [1e-3; 1e-3]%float.
Definition K_part : list float := [1e-3; 1e-3]%float.
Definition R_part : list float := [1; 2; 3]%float.
Definition rad : list float := [1.5; 2.5]%float.
Definition se : float := 2500%float.
Definition cut_off_prec : float := 1e-20%float.
Definition inv_cut : float := (1 / cut_off_prec)%float.

(** The system assembled for [se] in fresh workspaces (dimension 2). *)
Definition Cs : list float :=
  fmap (fun d => (sqrt se * d)%float) (difsr S_part K_part).
Definition V : list float :=
  <[0 := pump1 (H := numerics) 0 1 1 se]> (init 2).1.1.
Definition Mb : list (list float) :=
  assemble (H := numerics) 0 Cs R_part (tmp S_part K_part) 2 (init 2).1.2.

(** The whole call on these inputs, at dimension 2 with pumping rate -1. *)
Definition call (s : list float) : result (list (list float)) :=
  grf_laplace (H := numerics) s rad S_part K_part R_part 2 1 (-1) None cut_off_prec.

Definition res : list (list float) :=
  Eval vm_compute in match call [se] with Ok r => r | Raise _ => [] end.

(** Four disks around a point source; for [s = 4] the guard truncates the
    system to the first two disks, for [s = 0.01] it keeps all four. *)
Definition S_part4 : list float := [1e-3; 1e-3; 1e-3; 1e-3]%float.
Definition K_part4 : list float := [1e-3; 2e-3; 1e-3; 1e-3]%float.
Definition R_part4 : list float := [0; 2; 10; 20; 30]%float.
Definition rad4 : list float := [1; 3; 15; 30]%float.
Definition s4 : list float := [4; 0.01; 4]%float.

Definition call4 (s : list float) : result (list (list float)) :=
  grf_laplace (H := numerics) s rad4 S_part4 K_part4 R_part4 2 1 (-1) None
    cut_off_prec.

Definition res4 : list (list float) :=
  Eval vm_compute in match call4 s4 with Ok r => r | Raise _ => [] end.

(** One disk between the radii 1 and 2; for [s = 1e7] both Bessel functions
    of the second kind underflow and the system is singular. *)
Definition S_part1 : list float := [1e-3]%float.
Definition K_part1 : list float := [1e-3]%float.
Definition R_part1 : list float := [1; 2]%float.
Definition rad1 : list float := [1.5; 2]%float.

Definition call1 (s : list float) : result (list (list float)) :=
  grf_laplace (H := numerics) s rad1 S_part1 K_part1 R_part1 2 1 (-1) None
    cut_off_prec.

Definition res1 : list (list float) :=
  Eval vm_compute in match call1 [5; 10]%float with Ok r => r | Raise _ => [] end.

(** The stand-ins with a banded solver that gives up on every system, the
    way pentapy answers a singular one: an array of NaNs. *)
Definition penta_nan (mat : list (list float)) (rhs : list float) : list float :=
  replicate (length rhs) nan.

Definition numerics_nan : Numerics :=
  Build_Numerics kv iv gamma sph_surf np_pow py_pow linalg_solve penta_nan
    (fun mat rhs => length_replicate (length rhs) nan).

(** The scale factor of all sample calls, the two-disk call for a transform
    variable with a singular innermost block, and the four-disk call with
    the banded solver that gives up. *)
Definition scale : float :=
  Eval vm_compute in
    match scale_factor (H := numerics) 2 1 (-1) 1e-3 with
    | Ok x => x
    | Raise _ => nan
    end.

Definition res_singular : list (list float) :=
  Eval vm_compute in match call [1e7%float] with Ok r => r | Raise _ => [] end.

Definition call4_nan (s : list float) : result (list (list float)) :=
  grf_laplace (H := numerics_nan) s rad4 S_part4 K_part4 R_part4 2 1 (-1) None
    cut_off_prec.

Definition res4_nan : list (list float) :=
  Eval vm_compute in
    match call4_nan [0.01%float] with Ok r => r | Raise _ => [] end.

End Sample.

(** ** The multi-disk system of one transform variable *)

Section Systems.
Context `{Numerics}.

(** The right-hand side [V] and the banded matrix [Mb] that the multi-disk
    loop builds for the transform variable [se], in fresh workspaces. *)
Definition multi_disk_system (nu : float) (S_part K_part R_part : list float)
    (se : float) : list float * list (list float) :=
  let S0 := S_part !!! 0 in
  let K0 := K_part !!! 0 in
  let diff_sr0 := sqrt (S0 / K0)%float in
  let Cs := fmap (fun d => (sqrt se * d)%float) (difsr S_part K_part) in
  (<[0 := pump1 nu diff_sr0 (R_first R_part) se]> (init (length K_part)).1.1,
   assemble nu Cs R_part (tmp S_part K_part) (length K_part)
     (init (length K_part)).1.2).

(** The truncation index and the cleaned coefficients for [se]. *)
Definition multi_disk_first (nu cut_off_prec : float)
    (S_part K_part R_part : list float) (se : float) : nat :=
  find_first cut_off_prec (1 / cut_off_prec)%float (length K_part)
    (multi_disk_system nu S_part K_part R_part se).2.

Definition multi_disk_coeffs (nu cut_off_prec : float)
    (S_part K_part R_part : list float) (se : float) : list float :=
  let VM := multi_disk_system nu S_part K_part R_part se in
  coeffs_used (length K_part)
    (multi_disk_first nu cut_off_prec S_part K_part R_part se)
    VM.1 VM.2 (init (length K_part)).2.

(** The matrix that [pentapy.solve] receives when [first > 1]. *)
Definition penta_input (parts first : nat) (V : list float)
    (Mb : list (list float)) (X : list float) : list (list float) :=
  fmap (take (2 * first)) (solve_coeffs parts first V Mb X).1.

End Systems.

(** In the banded storage, entry [(r, c)] holds the coefficient of row
    [c + r - 2] and column [c] of the square matrix; it lies outside a
    matrix of [n] rows when that row index is negative or not below [n]. *)
Definition outside_square (n r c : nat) : Prop :=
  r + c < 2 \/ n + 2 <= r + c.

(** * The Neuman solution in Laplace space

    A shallow embedding of [neuman_unconfined_laplace] of
    [anaflow/flow/Neuman.py].  The arrays [s] and [rad] are taken after
    flattening, as lists of binary64 floats; the scalar parameters are
    Python floats, so that a division of two of them by zero raises
    [ZeroDivisionError], while a division that involves an element of an
    array follows IEEE 754; [n_numbers] is a non-negative Python int.  What
    [print] writes is kept as a list of the printed arrays, also when the
    call raises afterwards. *)

(** ** The external routines of the Neuman solution *)

Class NeumanNumerics : Type := {
  (** [scipy.special.k0] *)
  k0 : float -> float;
  (** [numpy.sin] and [numpy.cos] *)
  np_sin : float -> float;
  np_cos : float -> float;
  (** [np.arange(np.pi / 2, (n_numbers + 3) * np.pi, np.pi)] *)
  eps_guess : nat -> list float;
  (** [fsolve(lambda eps: eps * np.tan(eps) - righthand, guess)] of
      [scipy.optimize], as a function of [righthand] and the guess *)
  fsolve : float -> list float -> list float
}.

(** [numpy.pi] *)
Definition np_pi : float := 0x1.921fb54442d18p+1%float.

(** [a / b] on two Python floats. *)
Definition py_div (a b : float) : result float :=
  if (b =? 0)%float then Raise ZeroDivisionError else Ok (a / b)%float.

(** ** Computations that print and may raise *)

(** The arrays printed so far, oldest first, and the outcome. *)
Definition out (A : Type) : Type := list (list float) * result A.

Definition out_ret {A : Type} (a : A) : out A := ([], Ok a).

Definition out_lift {A : Type} (r : result A) : out A := ([], r).

Definition print (a : list float) : out unit := ([a], Ok tt).

Definition out_bind {A B : Type} (m : out A) (k : A -> out B) : out B :=
  match m.2 with
  | Ok a => (m.1 ++ (k a).1, (k a).2)
  | Raise e => (m.1, Raise e)
  end.

Notation "'let+' x ':=' m 'in' k" := (out_bind m (fun x => k))
  (at level 10, x name, m at level 100, k at level 200).

(** A loop that computes one value per element, in order. *)
Fixpoint out_for {A B : Type} (body : A -> out B) (l : list A) : out (list B) :=
  match l with
  | [] => out_ret []
  | x :: l' =>
      let+ y := body x in
      let+ ys := out_for body l' in
      out_ret (y :: ys)
  end.

Section Neuman.
Context `{H : Numerics} `{E : NeumanNumerics}.

(** Lines 80-90: the array [epsilon_n]; it is printed when it comes from
    [fsolve]. *)
Definition epsilon_n_of (n_numbers : nat) (righthand : float) : out (list float) :=
  if (10 <? righthand)%float then out_ret (eps_guess n_numbers)
  else
    let eps_0 := fsolve righthand (eps_guess n_numbers) in
    let epsilon_n := take n_numbers eps_0 in
    let+ _ := print epsilon_n in
    out_ret epsilon_n.

(** Lines 92 and 96-116: the value assigned to [res[si, ri]] for one
    eigenvalue. *)
Definition neuman_term (se betaw sat_thickness well_depth d z eps : float)
  : result float :=
  let xn := np_pow (betaw * np_pow eps 2 + se)%float 0.5 in
  let* q_d := py_div d sat_thickness in
  let* q_w := py_div well_depth sat_thickness in
  let* q_z := py_div z sat_thickness in
  let* q_l := py_div (well_depth - d)%float sat_thickness in
  Ok ((2 * k0 xn
       * (np_sin (eps * (1 - q_d)) - np_sin (eps * (1 - q_w)))
       * np_cos (eps * q_z))
      / (se * q_l * (0.5 * eps + 0.25 * np_sin (2 * eps))))%float.

(** Lines 91-116: the loop over the eigenvalues, with the current value of
    [res[si, ri]] as state. *)
Definition eigen_step (se betaw sat_thickness well_depth d z cur eps : float)
  : result float :=
  if (eps =? 0)%float then Ok cur
  else neuman_term se betaw sat_thickness well_depth d z eps.

Fixpoint eigen_loop (se betaw sat_thickness well_depth d z cur : float)
    (eps_l : list float) : result float :=
  match eps_l with
  | [] => Ok cur
  | eps :: l =>
      let* cur := eigen_step se betaw sat_thickness well_depth d z cur eps in
      eigen_loop se betaw sat_thickness well_depth d z cur l
  end.

(** Lines 74-116: the body of the loop over [rad], giving [res[si, ri]]. *)
Definition neuman_entry (storage sat_thickness well_depth kd specific_yield : float)
    (n_numbers : nat) (d z se re : float) : out float :=
  if (re <? infinity)%float then
    let rd := (re / sat_thickness)%float in
    let betaw := (kd * np_pow rd 2)%float in
    let+ q := out_lift (py_div storage specific_yield) in
    let righthand := (se / (q * betaw + se / 1e9))%float in
    let+ epsilon_n := epsilon_n_of n_numbers righthand in
    out_lift (eigen_loop se betaw sat_thickness well_depth d z F64.zero
                (take (Nat.min n_numbers (length epsilon_n)) epsilon_n))
  else out_ret F64.zero.

Definition neuman_unconfined_laplace (s rad : list float)
    (storage transmissivity rate sat_thickness screen_size well_depth kd
       specific_yield : float) (n_numbers : nat) : out (list (list float)) :=
  let z := (sat_thickness - well_depth)%float in
  let d := (well_depth - screen_size)%float in
  let+ res :=
    out_for (fun se =>
      out_for (neuman_entry storage sat_thickness well_depth kd specific_yield
                 n_numbers d z se) rad) s in
  let+ scale := out_lift (py_div rate (2 * np_pi * transmissivity)%float) in
  out_ret (fmap (fun row : list float => fmap (fun x => (x * scale)%float) row) res).

(** ** Notions used in the statements *)

(** [righthand] for the pair [(se, re)], and the eigenvalues that the inner
    loop visits. *)
Definition righthand_of (storage sat_thickness kd specific_yield se re : float)
  : float :=
  let betaw := (kd * np_pow (re / sat_thickness) 2)%float in
  (se / (storage / specific_yield * betaw + se / 1e9))%float.

Definition epsilon_visited (n_numbers : nat) (righthand : float) : list float :=
  let epsilon_n :=
    if (10 <? righthand)%float then eps_guess n_numbers
    else take n_numbers (fsolve righthand (eps_guess n_numbers)) in
  take (Nat.min n_numbers (length epsilon_n)) epsilon_n.

(** Lines 72-116: the double loop of a call, a loop over [s] of loops over
    [rad]. *)
Definition neuman_rows (rad : list float)
    (storage sat_thickness screen_size well_depth kd specific_yield : float)
    (n_numbers : nat) (s : list float) : out (list (list float)) :=
  out_for (fun se =>
    out_for (neuman_entry storage sat_thickness well_depth kd specific_yield
               n_numbers (well_depth - screen_size)%float
               (sat_thickness - well_depth)%float se) rad) s.

(** What one pair [(se, re)] prints. *)
Definition printed_for (storage sat_thickness kd specific_yield : float)
    (n_numbers : nat) (se re : float) : list (list float) :=
  let righthand := righthand_of storage sat_thickness kd specific_yield se re in
  if (re <? infinity)%float && negb (10 <? righthand)%float
  then [take n_numbers (fsolve righthand (eps_guess n_numbers))]
  else [].

End Neuman.

(** The last element of an array that is not zero. *)
Definition last_nonzero (l : list float) : option float :=
  last (List.filter (fun e => negb (e =? 0)%float) l).

(** ** Stand-ins for the external routines of the Neuman solution *)

Module NeumanSample.

(** As [Sample.np_pow], with the exponents [2] and [0.5]. *)
Definition np_pow (x y : float) : float :=
  if (y =? 2)%float then (x * x)%float
  else if (y =? 0.5)%float then sqrt x
  else Sample.np_pow x y.

Definition numerics : Numerics :=
  Build_Numerics Sample.kv Sample.iv Sample.gamma Sample.sph_surf np_pow
    Sample.py_pow Sample.linalg_solve Sample.penta_solve
    (fun mat rhs => length_imap _ rhs).

(** Truncated series in place of sine and cosine. *)
Definition np_sin (x : float) : float := (x - x * x * x / 6)%float.
Definition np_cos (x : float) : float := (1 - x * x / 2)%float.

Fixpoint arange (start step : float) (n : nat) : list float :=
  match n with
  | 0 => []
  | S n' => start :: arange (start + step)%float step n'
  end.

Definition eps_guess (n_numbers : nat) : list float :=
  arange (np_pi / 2)%float np_pi (n_numbers + 3).

(** A root finder that moves every guess down by [righthand / 16] and
    reports the first root as zero. *)
Definition fsolve (righthand : float) (guess : list float) : list float :=
  <[0 := F64.zero]> (fmap (fun g => (g - righthand / 16)%float) guess).

Definition neuman_numerics : NeumanNumerics :=
  Build_NeumanNumerics (Sample.kv 0) np_sin np_cos eps_guess fsolve.

Definition s : list float := [1; 1e-5]%float.
Definition rad : list float := [10; infinity]%float.

(** The call with the default parameters of the aquifer and two
    eigenvalues. *)
Definition call (s rad : list float) (transmissivity sat_thickness specific_yield : float)
  : out (list (list float)) :=
  neuman_unconfined_laplace (H := numerics) (E := neuman_numerics) s rad
    1e-4 transmissivity (-1e-4) sat_thickness 11.88 12.6 0.61 specific_yield 2.

Definition run : out (list (list float)) :=
  Eval vm_compute in call s rad 1e-4 52 0.26.

(** What the run printed and returned. *)
Definition log : list (list float) := Eval vm_compute in run.1.
Definition res : list (list float) :=
  Eval vm_compute in match run.2 with Ok r => r | Raise _ => [] end.

End NeumanSample.

(** * Properties *)

(** ** Comparisons of binary64 floats *)

Section FloatOrder.

Lemma SFltb_finite s1 m1 e1 s2 m2 e2 :
  SFltb (S754_finite s1 m1 e1) (S754_finite s2 m2 e2) = true <->
  match s1, s2 with
  | true, false => True
  | false, true => False
  | false, false => (e1 < e2 \/ (e1 = e2 /\ (m1 < m2)%positive))%Z
  | true, true => (e2 < e1 \/ (e1 = e2 /\ (m2 < m1)%positive))%Z
  end.
Proof.
  unfold SFltb, SFcompare.
  destruct s1, s2; try tauto; try (split; [discriminate|tauto]).
  - destruct (Z.compare_spec e1 e2); rewrite ?Pos.compare_cont_spec; simpl.
    + destruct (Pos.compare_spec m1 m2); simpl; split;
        try discriminate; try lia; auto.
    + split; [discriminate|lia].
    + split; auto; lia.
  - destruct (Z.compare_spec e1 e2); rewrite ?Pos.compare_cont_spec; simpl.
    + destruct (Pos.compare_spec m1 m2); simpl; split;
        try discriminate; try lia; auto.
    + split; auto; lia.
    + split; [discriminate|lia].
Qed.

Ltac sf_cases :=
  unfold SFltb, SFleb, SFeqb, SFcompare; simpl;
  repeat match goal with s : bool |- _ => destruct s end;
  simpl; try congruence.

Lemma SFltb_trans a b c :
  SFltb a b = true -> SFltb b c = true -> SFltb a c = true.
Proof.
  destruct a as [sa|sa| |sa ma ea], b as [sb|sb| |sb mb eb],
           c as [sc|sc| |sc mc ec]; try solve [sf_cases].
  rewrite !SFltb_finite. destruct sa, sb, sc; try tauto; lia.
Qed.

Lemma SFltb_le_trans a b c :
  SFltb a b = true -> SFltb c b = false -> c <> S754_nan -> SFltb a c = true.
Proof.
  destruct a as [sa|sa| |sa ma ea], b as [sb|sb| |sb mb eb],
           c as [sc|sc| |sc mc ec]; try solve [sf_cases].
  intros H1 H2 _; apply not_true_iff_false in H2; revert H1 H2.
  rewrite !SFltb_finite. destruct sa, sb, sc; try tauto; lia.
Qed.

Lemma SFeqb_refl a : a <> S754_nan -> SFeqb a a = true.
Proof.
  destruct a as [sa|sa| |sa ma ea]; try solve [sf_cases].
  intros _. unfold SFeqb, SFcompare.
  destruct sa; rewrite Z.compare_refl, Pos.compare_cont_refl; reflexivity.
Qed.

Lemma SFleb_ltb a b :
  a <> S754_nan -> b <> S754_nan -> SFleb a b = negb (SFltb b a).
Proof.
  destruct a as [sa|sa| |sa ma ea], b as [sb|sb| |sb mb eb];
    try solve [sf_cases].
  intros _ _. unfold SFleb, SFltb, SFcompare.
  rewrite !Pos.compare_cont_spec.
  destruct sa, sb; try reflexivity;
    destruct (Z.compare_spec ea eb), (Z.compare_spec eb ea);
    try lia; try reflexivity;
    destruct (Pos.compare_spec ma mb), (Pos.compare_spec mb ma);
    try lia; reflexivity.
Qed.

Lemma is_nan_SF x : is_nan x = true <-> Prim2SF x = S754_nan.
Proof.
  unfold is_nan. rewrite FloatAxioms.eqb_spec. split.
  - destruct (Prim2SF x) eqn:E; try reflexivity;
      rewrite SFeqb_refl; discriminate.
  - intros ->. reflexivity.
Qed.

Lemma not_nan_SF x : is_nan x = false <-> Prim2SF x <> S754_nan.
Proof.
  rewrite <- is_nan_SF. destruct (is_nan x); split; congruence.
Qed.

Lemma ltb_trans x y z :
  (x <? y)%float = true -> (y <? z)%float = true -> (x <? z)%float = true.
Proof. rewrite !FloatAxioms.ltb_spec. apply SFltb_trans. Qed.

Lemma ltb_le_trans x y z :
  (x <? y)%float = true -> (z <? y)%float = false -> is_nan z = false ->
  (x <? z)%float = true.
Proof. rewrite !FloatAxioms.ltb_spec, not_nan_SF. apply SFltb_le_trans. Qed.

Lemma ltb_not_nan x y :
  (x <? y)%float = true -> is_nan x = false /\ is_nan y = false.
Proof.
  rewrite FloatAxioms.ltb_spec, !not_nan_SF.
  destruct (Prim2SF x), (Prim2SF y); cbn; intros; split; congruence.
Qed.

Lemma ltb_nan_r x y : is_nan y = true -> (x <? y)%float = false.
Proof.
  intros Hy. destruct (x <? y)%float eqn:E; [|reflexivity].
  apply ltb_not_nan in E as [_ E]. congruence.
Qed.

Lemma ltb_nan_l x y : is_nan x = true -> (x <? y)%float = false.
Proof.
  intros Hy. destruct (x <? y)%float eqn:E; [|reflexivity].
  apply ltb_not_nan in E as [E _]. congruence.
Qed.

Lemma ltb_irrefl x : (x <? x)%float = false.
Proof.
  rewrite FloatAxioms.ltb_spec. destruct (Prim2SF x) as [s|s| |s m e]; try solve [sf_cases].
  apply not_true_iff_false. rewrite SFltb_finite. destruct s; lia.
Qed.

Lemma leb_ltb x y :
  is_nan x = false -> is_nan y = false -> (x <=? y)%float = negb (y <? x)%float.
Proof. rewrite FloatAxioms.leb_spec, FloatAxioms.ltb_spec, !not_nan_SF. apply SFleb_ltb. Qed.

End FloatOrder.

(** ** Reductions and the input check *)

Section Reductions.

Lemma ltb_minimum c a b :
  (c <? F64.minimum a b)%float = (c <? a)%float && (c <? b)%float.
Proof.
  unfold F64.minimum.
  destruct (is_nan a) eqn:Ha.
  { rewrite (ltb_nan_r c a Ha). reflexivity. }
  destruct (is_nan b) eqn:Hb.
  { rewrite (ltb_nan_r c b Hb), andb_false_r. reflexivity. }
  destruct (b <? a)%float eqn:Hba.
  - destruct (c <? b)%float eqn:Hcb; [|rewrite andb_false_r; reflexivity].
    rewrite (ltb_trans c b a Hcb Hba). reflexivity.
  - destruct (c <? a)%float eqn:Hca; [|reflexivity].
    rewrite (ltb_le_trans c a b Hca Hba Hb). reflexivity.
Qed.

Lemma ltb_maximum c a b :
  is_nan a = false -> is_nan b = false ->
  (c <? F64.maximum a b)%float = (c <? a)%float || (c <? b)%float.
Proof.
  intros Ha Hb. unfold F64.maximum. rewrite Ha, Hb.
  destruct (a <? b)%float eqn:Hab.
  - destruct (c <? a)%float eqn:Hca; [|reflexivity].
    rewrite (ltb_trans c a b Hca Hab). reflexivity.
  - destruct (c <? b)%float eqn:Hcb; [|rewrite orb_false_r; reflexivity].
    rewrite (ltb_le_trans c b a Hcb Hab Ha). reflexivity.
Qed.

Lemma maximum_not_nan a b :
  is_nan a = false -> is_nan b = false -> is_nan (F64.maximum a b) = false.
Proof.
  intros Ha Hb. unfold F64.maximum. rewrite Ha, Hb.
  destruct (a <? b)%float; assumption.
Qed.

Lemma ltb_foldl_minimum c l : forall x,
  (c <? foldl F64.minimum x l)%float
  = (c <? x)%float && forallb (fun r => (c <? r)%float) l.
Proof.
  induction l as [|y l IH]; intros x; simpl.
  - rewrite andb_true_r. reflexivity.
  - rewrite IH, ltb_minimum, andb_assoc. reflexivity.
Qed.

Lemma ltb_foldl_maximum c l : forall x,
  is_nan x = false -> Forall (fun r => is_nan r = false) l ->
  (c <? foldl F64.maximum x l)%float
  = (c <? x)%float || existsb (fun r => (c <? r)%float) l.
Proof.
  induction l as [|y l IH]; intros x Hx Hl; simpl.
  - rewrite orb_false_r. reflexivity.
  - inversion Hl as [|? ? Hy Hl']; subst.
    rewrite IH, ltb_maximum, orb_assoc by auto using maximum_not_nan.
    reflexivity.
Qed.

(** The range check of line 114 accepts exactly the non-empty arrays of
    radii whose elements are all greater than [R_0] and none greater than
    [R_N]. *)
Lemma check_rad_Ok rad R_part :
  check_rad rad R_part = Ok tt <->
  rad <> [] /\
  Forall (fun r => (R_first R_part <? r)%float = true
                   /\ (R_last R_part <? r)%float = false) rad.
Proof.
  unfold check_rad. destruct rad as [|x l]; simpl.
  { split; [discriminate|intros [? _]; congruence]. }
  unfold F64.gtb. rewrite ltb_foldl_minimum.
  destruct ((R_first R_part <? x)%float
            && forallb (fun r => (R_first R_part <? r)%float) l) eqn:Hmin; simpl.
  - apply andb_true_iff in Hmin as [Hx Hl].
    rewrite forallb_forall in Hl.
    assert (Hnan : Forall (fun r => is_nan r = false) l).
    { apply Forall_forall. intros r Hr. apply list_elem_of_In in Hr.
      apply Hl in Hr. apply ltb_not_nan in Hr. tauto. }
    rewrite ltb_foldl_maximum by (auto; apply ltb_not_nan in Hx; tauto).
    destruct ((R_last R_part <? x)%float
              || existsb (fun r => (R_last R_part <? r)%float) l) eqn:Hmax.
    + split; [discriminate|]. intros [_ HF]. exfalso.
      inversion HF as [|? ? [_ Hx'] HF']; subst.
      apply orb_true_iff in Hmax as [Hmax|Hmax]; [congruence|].
      apply existsb_exists in Hmax as (r & Hr & Hlt).
      rewrite Forall_forall in HF'. apply list_elem_of_In in Hr.
      apply HF' in Hr. destruct Hr; congruence.
    + split; [|reflexivity]. intros _. split; [discriminate|].
      apply orb_false_iff in Hmax as [Hmx Hml].
      constructor; [tauto|]. apply Forall_forall. intros r Hr. split.
      * apply Hl, list_elem_of_In, Hr.
      * destruct (R_last R_part <? r)%float eqn:E; [|reflexivity].
        rewrite <- Hml. symmetry. apply existsb_exists.
        exists r. split; [apply list_elem_of_In, Hr|exact E].
  - split; [discriminate|]. intros [_ HF]. exfalso.
    inversion HF as [|? ? [Hx' _] HF']; subst.
    apply andb_false_iff in Hmin as [Hmin|Hmin]; [congruence|].
    rewrite <- Hmin in *. apply not_true_iff_false in Hmin. apply Hmin.
    apply forallb_forall. intros r Hr. apply list_elem_of_In in Hr.
    rewrite Forall_forall in HF'. apply HF' in Hr. tauto.
Qed.

Lemma check_rad_cases rad R_part :
  check_rad rad R_part = Ok tt
  \/ (rad = [] /\ check_rad rad R_part = Raise (ValueError msg_empty_reduction))
  \/ (rad <> [] /\ check_rad rad R_part = Raise (ValueError msg_range)).
Proof.
  unfold check_rad. destruct rad as [|x l]; simpl; [auto|].
  destruct (negb _); [right; right; split; [discriminate|reflexivity]|].
  destruct (F64.gtb _ _); [right; right; split; [discriminate|reflexivity]|].
  auto.
Qed.

End Reductions.

Section Boundaries.

Lemma strictly_increasing_cons x y l :
  strictly_increasing (x :: y :: l)
  = (x <? y)%float && strictly_increasing (y :: l).
Proof.
  unfold strictly_increasing. simpl. rewrite Nat.sub_0_r. reflexivity.
Qed.

Lemma R_last_cons x y l : R_last (x :: y :: l) = R_last (y :: l).
Proof. reflexivity. Qed.

Lemma first_lt_last l : forall x y,
  strictly_increasing (x :: y :: l) = true ->
  (x <? R_last (x :: y :: l))%float = true.
Proof.
  induction l as [|z l IH]; intros x y Hs;
    rewrite strictly_increasing_cons in Hs;
    apply andb_true_iff in Hs as [Hxy Hs].
  - exact Hxy.
  - rewrite R_last_cons. eapply ltb_trans; [exact Hxy|]. apply IH, Hs.
Qed.

(** With at least one disk, strictly increasing boundaries give
    [R_0 < R_N]; in particular neither is NaN. *)
Lemma R_first_lt_last R_part :
  2 <= length R_part -> strictly_increasing R_part = true ->
  (R_first R_part <? R_last R_part)%float = true.
Proof.
  destruct R_part as [|x [|y l]]; simpl; try lia.
  intros _. apply first_lt_last.
Qed.

Lemma in_range_alt R_part r :
  is_nan (R_last R_part) = false ->
  in_range R_part r
  = (R_first R_part <? r)%float && negb (R_last R_part <? r)%float.
Proof.
  intros HN. unfold in_range.
  destruct (R_first R_part <? r)%float eqn:E; [|reflexivity]. simpl.
  apply leb_ltb; [|exact HN]. apply ltb_not_nan in E. tauto.
Qed.

(** On a strictly increasing array the insertion index of the last
    element is its own index. *)
Lemma searchsorted_last l : forall x,
  strictly_increasing (x :: l) = true ->
  searchsorted (x :: l) (R_last (x :: l)) = length l.
Proof.
  induction l as [|y l IH]; intros x Hs.
  - simpl. unfold R_last. simpl. rewrite ltb_irrefl. reflexivity.
  - pose proof (first_lt_last l x y Hs) as Hlt.
    rewrite strictly_increasing_cons in Hs.
    apply andb_true_iff in Hs as [_ Hs].
    change (searchsorted (x :: y :: l) (R_last (x :: y :: l)))
      with (if (x <? R_last (x :: y :: l))%float
            then S (searchsorted (y :: l) (R_last (x :: y :: l))) else 0).
    rewrite Hlt, R_last_cons, (IH y Hs). reflexivity.
Qed.

Lemma lengths_ok_spec S_part K_part R_part :
  lengths_ok S_part K_part R_part = true <->
  length R_part = S (length K_part) /\ length S_part = length K_part
  /\ 1 <= length K_part.
Proof.
  unfold lengths_ok. rewrite !andb_true_iff, Z.eqb_eq, Nat.eqb_eq, Nat.ltb_lt. lia.
Qed.

End Boundaries.

(** ** Indices stay in range *)

Section InRange.

Lemma searchsorted_le a v : searchsorted a v <= length a.
Proof.
  induction a as [|x a IH]; simpl; [lia|].
  destruct (x <? v)%float; lia.
Qed.

Lemma searchsorted_full a v :
  a <> [] -> searchsorted a v = length a -> (R_last a <? v)%float = true.
Proof.
  induction a as [|x a IH]; [congruence|]. intros _. simpl.
  destruct (x <? v)%float eqn:E; [|discriminate]. intros [= Hs].
  destruct a as [|y a]; [exact E|].
  rewrite R_last_cons. apply IH; [discriminate|exact Hs].
Qed.

(** Every radius that passes the range check is matched to an existing
    disk. *)
Lemma searchsorted_bounds rad R_part r :
  check_rad rad R_part = Ok tt -> R_part <> [] -> r ∈ rad ->
  1 <= searchsorted R_part r <= length R_part - 1.
Proof.
  intros Hc Hne Hr. apply check_rad_Ok in Hc as [_ HF].
  rewrite Forall_forall in HF. destruct (HF r Hr) as [Hlo Hhi].
  pose proof (searchsorted_le R_part r) as Hle.
  split.
  - destruct R_part as [|x l]; [congruence|].
    unfold R_first in Hlo. simpl in *. rewrite Hlo. lia.
  - destruct (decide (searchsorted R_part r = length R_part)) as [Hfull|]; [|lia].
    apply searchsorted_full in Hfull; [congruence|exact Hne].
Qed.

Lemma interface_positions_in_range parts i r c :
  i < parts - 1 -> (r, c) ∈ interface_positions i -> r < 5 /\ c < 2 * parts.
Proof.
  intros Hi Hin. unfold interface_positions in Hin.
  repeat (apply elem_of_cons in Hin as [[= -> ->]|Hin]; [lia|]).
  inversion Hin.
Qed.

(** With at least two disks every assignment of the assembly is inside the
    5 x 2N banded matrix. *)
Lemma assemble_positions_in_range R_part parts r c :
  2 <= parts -> (r, c) ∈ assemble_positions R_part parts ->
  r < 5 /\ c < 2 * parts.
Proof.
  intros Hp Hin. unfold assemble_positions in Hin.
  apply elem_of_app in Hin as [Hin|Hin].
  - apply list_elem_of_In, in_flat_map in Hin as (i & Hi & Hin).
    apply in_seq in Hi. apply list_elem_of_In in Hin.
    eapply interface_positions_in_range; [|exact Hin]. lia.
  - unfold boundary_positions in Hin.
    apply elem_of_app in Hin as [Hin|Hin].
    + destruct (F64.gtb _ _); [|inversion Hin].
      repeat (apply elem_of_cons in Hin as [[= -> ->]|Hin]; [lia|]).
      inversion Hin.
    + destruct (_ <? _)%float;
        repeat (apply elem_of_cons in Hin as [[= -> ->]|Hin]; [lia|]);
        inversion Hin.
Qed.

End InRange.

(** ** Exceptions of the whole call *)

Section Raising.
Context `{Numerics}.

Lemma for_each_Raise {St A B} (body : St -> A -> result (St * B)) l :
  forall st e, for_each body st l = Raise e ->
  exists st' x, body st' x = Raise e.
Proof.
  induction l as [|x l IH]; intros st e; simpl; [discriminate|].
  destruct (body st x) as [[st' row]|e'] eqn:Hb.
  - destruct (for_each body st' l) eqn:Hl; [discriminate|].
    intros [= ->]. eapply IH, Hl.
  - intros [= ->]. eauto.
Qed.

Lemma solve_all_Raise nu cut_off_prec s rad S_part K_part R_part e :
  solve_all nu cut_off_prec s rad S_part K_part R_part = Raise e ->
  e = LinAlgError \/ e = ZeroDivisionError.
Proof.
  unfold solve_all. destruct (length K_part =? 1); intros Hr;
    apply for_each_Raise in Hr as (st & x & Hr).
  - unfold single_disk_step in Hr.
    destruct (linalg_solve _ _) as [[As Bs]|]; [discriminate|].
    left. congruence.
  - unfold multi_disk_step, py_inverse in Hr.
    destruct (cut_off_prec =? 0)%float; [|discriminate].
    right. simpl in Hr. congruence.
Qed.

Lemma scale_factor_Raise dim lat_ext rate K_well e :
  scale_factor dim lat_ext rate K_well = Raise e -> e = OverflowError.
Proof.
  unfold scale_factor. destruct (py_pow _ _); [discriminate|congruence].
Qed.

(** Once the input check has passed, only the three numerical exceptions
    can still be raised. *)
Lemma after_check_Raise nu cut_off_prec s rad S_part K_part R_part
    dim lat_ext rate K_well e :
  (let* res := solve_all nu cut_off_prec s rad S_part K_part R_part in
   let* scale := scale_factor dim lat_ext rate K_well in
   Ok (fmap (fun row : list float => fmap (fun x => (x * scale)%float) row)
            (fmap F64.nan_to_num res)))
  = Raise e ->
  e = LinAlgError \/ e = ZeroDivisionError \/ e = OverflowError.
Proof.
  destruct (solve_all _ _ _ _ _ _ _) as [res|e'] eqn:Hs; simpl.
  - destruct (scale_factor _ _ _ _) as [sc|e'] eqn:Hc; simpl; [discriminate|].
    intros [= ->]. apply scale_factor_Raise in Hc. auto.
  - intros [= ->]. apply solve_all_Raise in Hs. tauto.
Qed.

(** C8 (the defect): with an empty [K_part] and no [K_well] the call stops
    at [K_part[0]] (line 105) with an [IndexError], before the length
    check of line 108 that would raise the [ValueError]. *)
Theorem grf_laplace_empty_K_part s rad S_part R_part dim lat_ext rate cut_off_prec :
  grf_laplace s rad S_part [] R_part dim lat_ext rate None cut_off_prec
  = Raise IndexError.
Proof. reflexivity. Qed.

(** Whenever line 105 succeeds, mismatching lengths raise the
    [ValueError] of the input check. *)
Lemma grf_laplace_lengths s rad S_part K_part R_part dim lat_ext rate K_well
    cut_off_prec kw :
  resolve_K_well K_part K_well = Ok kw ->
  lengths_ok S_part K_part R_part = false ->
  grf_laplace s rad S_part K_part R_part dim lat_ext rate K_well cut_off_prec
  = Raise (ValueError msg_lengths).
Proof.
  intros HK HL. unfold grf_laplace. rewrite HK. simpl.
  unfold check_input. rewrite HL. reflexivity.
Qed.

(** C3: when every other check passes, the call raises a [ValueError]
    exactly when [rad] is empty or some radius is outside [(R_0, R_N]]: the
    range error exactly when some radius is outside, and NumPy's error for
    the minimum of an empty array when [rad] is empty; [R_0] itself is
    outside and [R_N] is inside. *)
Theorem grf_laplace_radius_check s rad S_part K_part R_part dim lat_ext rate
    K_well cut_off_prec kw :
  resolve_K_well K_part K_well = Ok kw ->
  lengths_ok S_part K_part R_part = true ->
  (R_first R_part <? 0)%float = false ->
  strictly_increasing R_part = true ->
  forallb (fun con => F64.gtb con 0) K_part = true ->
  forallb (fun stor => F64.gtb stor 0) S_part = true ->
  F64.gtb dim 0 = true -> F64.gtb dim 3 = false ->
  F64.gtb lat_ext 0 = true ->
  F64.gtb kw 0 = true ->
  ((exists m,
      grf_laplace s rad S_part K_part R_part dim lat_ext rate K_well cut_off_prec
      = Raise (ValueError m))
   <-> rad = [] \/ Exists (fun r => in_range R_part r = false) rad)
  /\ (rad = [] ->
      grf_laplace s rad S_part K_part R_part dim lat_ext rate K_well cut_off_prec
      = Raise (ValueError msg_empty_reduction))
  /\ (grf_laplace s rad S_part K_part R_part dim lat_ext rate K_well cut_off_prec
      = Raise (ValueError msg_range)
      <-> Exists (fun r => in_range R_part r = false) rad)
  /\ in_range R_part (R_first R_part) = false
  /\ in_range R_part (R_last R_part) = true.
Proof.
  intros HK HL HR0 Hinc HKp HSp Hd0 Hd3 Hlat Hkw.
  apply lengths_ok_spec in HL as HL'.
  assert (Hlt : (R_first R_part <? R_last R_part)%float = true)
    by (apply R_first_lt_last; [lia|exact Hinc]).
  destruct (ltb_not_nan _ _ Hlt) as [HnF HnL].
  assert (Hmsg : grf_laplace s rad S_part K_part R_part dim lat_ext rate K_well
                   cut_off_prec = Raise (ValueError msg_range)
                 <-> Exists (fun r => in_range R_part r = false) rad);
    [|assert (Hnil : rad = [] ->
                grf_laplace s rad S_part K_part R_part dim lat_ext rate K_well
                  cut_off_prec = Raise (ValueError msg_empty_reduction));
      [|split; [|split; [exact Hnil|split; [exact Hmsg|split]]]]].
  - unfold grf_laplace. rewrite HK. simpl.
    unfold check_input. rewrite HL, HR0, Hinc. simpl.
    destruct (check_rad_cases rad R_part) as [Hc|[[Hnil Hc]|[Hne Hc]]];
      rewrite Hc; simpl.
    + rewrite HKp, HSp, Hd0, Hd3, Hlat, Hkw. simpl.
      apply check_rad_Ok in Hc as [_ HF]. split.
      * intros Hr. apply after_check_Raise in Hr.
        destruct Hr as [Hr|[Hr|Hr]]; discriminate.
      * intros HE. exfalso. apply Exists_exists in HE as (r & Hr & Hout).
        rewrite Forall_forall in HF. apply HF in Hr.
        rewrite in_range_alt in Hout by exact HnL.
        destruct Hr as [Hr1 Hr2]. rewrite Hr1, Hr2 in Hout. discriminate.
    + subst rad. split; [discriminate|]. intros HE. inversion HE.
    + split; [|reflexivity]. intros _.
      assert (Hnot : ~ Forall (fun r => (R_first R_part <? r)%float = true
                        /\ (R_last R_part <? r)%float = false) rad).
      { intros HF.
        assert (check_rad rad R_part = Ok tt) by (apply check_rad_Ok; auto).
        congruence. }
      apply not_Forall_Exists in Hnot; [|intros r; apply _].
      eapply Exists_impl; [exact Hnot|]. intros r Hr. simpl in Hr.
      rewrite in_range_alt by exact HnL.
      destruct (R_first R_part <? r)%float, (R_last R_part <? r)%float;
        simpl; try reflexivity. exfalso. apply Hr. auto.
  - intros ->. unfold grf_laplace. rewrite HK. simpl.
    unfold check_input. rewrite HL, HR0, Hinc. reflexivity.
  - split.
    + intros [m Hm]. destruct rad as [|r0 rad']; [left; reflexivity|right].
      apply Hmsg. rewrite Hm. do 2 f_equal.
      unfold grf_laplace in Hm. rewrite HK in Hm. simpl in Hm.
      unfold check_input in Hm. rewrite HL, HR0, Hinc in Hm. simpl in Hm.
      destruct (check_rad_cases (r0 :: rad') R_part) as [Hc|[[Hn _]|[_ Hc]]];
        [|discriminate|]; rewrite Hc in Hm; simpl in Hm.
      * rewrite HKp, HSp, Hd0, Hd3, Hlat, Hkw in Hm. simpl in Hm.
        apply after_check_Raise in Hm. destruct Hm as [Hm|[Hm|Hm]]; discriminate.
      * congruence.
    + intros [Hn|HE]; [exists msg_empty_reduction; apply Hnil, Hn|].
      exists msg_range. apply Hmsg, HE.
  - unfold in_range. rewrite ltb_irrefl. reflexivity.
  - rewrite in_range_alt, Hlt, ltb_irrefl by exact HnL. reflexivity.
Qed.

End Raising.

(** ** Matrices as lists of rows *)

Section Matrices.
Implicit Types Mb M : list (list float).

Lemma set2_shape n m r c v Mb :
  mat_shape n m Mb -> mat_shape n m (set2 r c v Mb).
Proof.
  intros [Hn Hm]. split; unfold set2.
  - rewrite length_alter. exact Hn.
  - rewrite Forall_lookup in Hm. apply Forall_lookup. intros i row Hi.
    rewrite list_lookup_alter in Hi. case_decide; subst; [|eauto].
    destruct (Mb !! i) as [row'|] eqn:E; simpl in Hi; [|discriminate].
    injection Hi as <-. rewrite length_insert. eauto.
Qed.

Lemma entry_set2 r c v Mb r' c' :
  entry (set2 r c v Mb) r' c'
  = if decide (r = r' /\ c = c')
    then match entry Mb r c with Some _ => Some v | None => None end
    else entry Mb r' c'.
Proof.
  unfold entry, set2. rewrite list_lookup_alter.
  destruct (decide (r = r')) as [->|Hr].
  - destruct (Mb !! r') as [row|]; simpl; [|case_decide; reflexivity].
    rewrite list_lookup_insert. destruct (decide (c = c')) as [->|Hc].
    + rewrite (decide_True (P := r' = r' /\ c' = c')) by done.
      destruct (row !! c') eqn:E.
      * apply lookup_lt_Some in E. rewrite decide_True by done. reflexivity.
      * rewrite decide_False; [reflexivity|].
        apply lookup_ge_None in E. lia.
    + rewrite !decide_False by tauto. reflexivity.
  - rewrite decide_False by tauto. reflexivity.
Qed.

Lemma entry_is_Some n m Mb r c :
  mat_shape n m Mb -> is_Some (entry Mb r c) <-> r < n /\ c < m.
Proof.
  intros [Hn Hm]. unfold entry. rewrite Forall_lookup in Hm.
  destruct (Mb !! r) as [row|] eqn:E.
  - rewrite lookup_lt_is_Some, (Hm _ _ E).
    apply lookup_lt_Some in E. lia.
  - apply lookup_ge_None in E. split; [intros [? ?]; discriminate|lia].
Qed.

Lemma mat_ext n m M M' :
  mat_shape n m M -> mat_shape n m M' ->
  (forall r c, entry M r c = entry M' r c) -> M = M'.
Proof.
  intros [Hn Hm] [Hn' Hm'] He. apply list_eq. intros r.
  rewrite Forall_lookup in Hm, Hm'.
  destruct (M !! r) as [row|] eqn:E, (M' !! r) as [row'|] eqn:E'.
  - f_equal. apply list_eq. intros c. specialize (He r c).
    unfold entry in He. rewrite E, E' in He. exact He.
  - apply lookup_lt_Some in E. apply lookup_ge_None in E'. lia.
  - apply lookup_lt_Some in E'. apply lookup_ge_None in E. lia.
  - reflexivity.
Qed.

Lemma apply_writes_cons r c v ws Mb :
  apply_writes ((r, c, v) :: ws) Mb = apply_writes ws (set2 r c v Mb).
Proof. reflexivity. Qed.

Lemma apply_writes_shape n m ws : forall Mb,
  mat_shape n m Mb -> mat_shape n m (apply_writes ws Mb).
Proof.
  induction ws as [|w ws IH]; intros Mb HM; [exact HM|].
  apply IH, set2_shape, HM.
Qed.

Lemma entry_apply_writes_other ws r c : forall Mb,
  (r, c) ∉ ws.*1 -> entry (apply_writes ws Mb) r c = entry Mb r c.
Proof.
  induction ws as [|[[r' c'] v] ws IH]; intros Mb Hn; [reflexivity|].
  rewrite fmap_cons, not_elem_of_cons in Hn. destruct Hn as [Hne Hn].
  rewrite apply_writes_cons, IH by exact Hn.
  rewrite entry_set2, decide_False; [reflexivity|].
  intros [-> ->]. apply Hne. reflexivity.
Qed.

(** Two matrices of one shape that differ only where the assignments
    write are equal afterwards. *)
Lemma apply_writes_agree n m ws : forall M M',
  mat_shape n m M -> mat_shape n m M' ->
  (forall r c, (r, c) ∉ ws.*1 -> entry M r c = entry M' r c) ->
  apply_writes ws M = apply_writes ws M'.
Proof.
  induction ws as [|[[r' c'] v] ws IH]; intros M M' HM HM' Hag.
  - apply (mat_ext n m); auto. intros r c. apply Hag. apply not_elem_of_nil.
  - rewrite !apply_writes_cons. apply IH; auto using set2_shape.
    intros r c Hn. rewrite !entry_set2. case_decide as Hd.
    + destruct Hd as [-> ->].
      pose proof (entry_is_Some n m M r c HM) as H1.
      pose proof (entry_is_Some n m M' r c HM') as H2.
      destruct (entry M r c), (entry M' r c); try reflexivity; exfalso.
      * assert (is_Some (@None float)) as [? ?]; [|discriminate].
        apply H2, H1. eauto.
      * assert (is_Some (@None float)) as [? ?]; [|discriminate].
        apply H1, H2. eauto.
    + apply Hag. rewrite fmap_cons, not_elem_of_cons. split; [|exact Hn].
      intros [= -> ->]. tauto.
Qed.

End Matrices.

(** ** The condition guard and the coefficients *)

Section Guard.
Context `{Numerics}.

Lemma first_true_Some a : forall c,
  first_true a = Some c ->
  a !! c = Some true /\ forall c', c' < c -> a !! c' = Some false.
Proof.
  induction a as [|b a IH]; intros c; simpl; [discriminate|].
  destruct b.
  - intros [= <-]. split; [reflexivity|lia].
  - destruct (first_true a) as [c0|]; simpl; [|discriminate].
    intros [= <-]. destruct (IH c0 eq_refl) as [H1 H2].
    split; [exact H1|]. intros [|c'] Hc; [reflexivity|].
    apply H2. lia.
Qed.


Lemma foldl_zip_with_length (f : float -> float -> float) m rs : forall r0,
  length r0 = m -> Forall (fun row => length row = m) rs ->
  length (foldl (zip_with f) r0 rs) = m.
Proof.
  induction rs as [|r rs IH]; intros r0 H0 Hrs; [exact H0|].
  inversion Hrs; subst. simpl. apply IH; [|assumption].
  rewrite length_zip_with. lia.
Qed.

Lemma col_absmax_length n m Mb :
  mat_shape (S n) m Mb -> length (col_absmax Mb) = m.
Proof.
  intros [Hn Hm]. unfold col_absmax.
  destruct Mb as [|r0 rs]; [discriminate|]. simpl.
  inversion Hm; subst. apply foldl_zip_with_length.
  - apply length_fmap.
  - apply Forall_fmap. eapply Forall_impl; [eassumption|].
    intros row Hr. simpl. rewrite length_fmap. exact Hr.
Qed.

Lemma Mb_cond_length n m cut inv Mb :
  mat_shape (S n) m Mb -> length (Mb_cond cut inv Mb) = m.
Proof.
  intros HM. unfold Mb_cond. rewrite length_fmap.
  exact (col_absmax_length n m Mb HM).
Qed.

Lemma find_first_le n cut inv parts Mb :
  mat_shape (S n) (2 * parts) Mb -> find_first cut inv parts Mb <= parts.
Proof.
  intros HM. unfold find_first.
  destruct (first_true _) as [c|] eqn:E; [|lia].
  apply first_true_Some in E as [E _]. apply lookup_lt_Some in E.
  rewrite (Mb_cond_length n (2 * parts) cut inv Mb HM) in E.
  apply Nat.lt_le_incl, Nat.Div0.div_lt_upper_bound. lia.
Qed.

Lemma zero_from_length n X : length (zero_from n X) = length X.
Proof.
  unfold zero_from. rewrite length_app, length_take, length_replicate. lia.
Qed.

Lemma zero_from_lookup_ge n X j x :
  zero_from n X !! j = Some x -> n <= j -> x = F64.zero.
Proof.
  unfold zero_from. intros Hj Hn. rewrite lookup_app_r in Hj.
  - apply lookup_replicate_1 in Hj. tauto.
  - rewrite length_take. lia.
Qed.

Lemma drop_zero_from n k X :
  n <= k -> n <= length X ->
  drop k (zero_from n X) = replicate (length X - k) F64.zero.
Proof.
  intros Hk Hn. unfold zero_from.
  rewrite drop_app_ge by (rewrite length_take; lia).
  rewrite length_take, drop_replicate. f_equal. lia.
Qed.

Lemma solve_coeffs_tail parts first V Mb X j x :
  (solve_coeffs parts first V Mb X).2 !! j = Some x ->
  Nat.max (2 * first) 2 <= j -> x = F64.zero.
Proof.
  unfold solve_coeffs. destruct (first <=? 1) eqn:Hf; simpl; intros Hj Hm.
  - rewrite lookup_app_r in Hj
      by (destruct (linalg_solve _ _); simpl; lia).
    rewrite lookup_drop in Hj. eapply zero_from_lookup_ge; [exact Hj|].
    destruct (linalg_solve _ _); simpl; lia.
  - rewrite lookup_app_r in Hj
      by (rewrite penta_solve_length, length_take; lia).
    rewrite lookup_drop in Hj. eapply zero_from_lookup_ge; [exact Hj|].
    rewrite penta_solve_length, length_take. lia.
Qed.

Lemma solve_coeffs_length parts first V Mb X :
  first <= parts -> 1 <= parts ->
  length V = 2 * parts -> length X = 2 * parts ->
  length (solve_coeffs parts first V Mb X).2 = 2 * parts.
Proof.
  intros Hf Hp HV HX. unfold solve_coeffs.
  destruct (first <=? 1); simpl; rewrite length_app, length_drop, zero_from_length.
  - destruct (linalg_solve _ _); simpl; lia.
  - rewrite penta_solve_length, length_take. lia.
Qed.


End Guard.

(** ** What [nan_to_num] does *)

Section Cleaning.

Lemma eqb_infinity_SF x :
  (x =? infinity)%float = true <-> Prim2SF x = S754_infinity false.
Proof.
  rewrite FloatAxioms.eqb_spec.
  change (Prim2SF infinity) with (S754_infinity false).
  destruct (Prim2SF x) as [s|[|]| |s m e]; cbn; split; congruence.
Qed.

Lemma eqb_neg_infinity_SF x :
  (x =? neg_infinity)%float = true <-> Prim2SF x = S754_infinity true.
Proof.
  rewrite FloatAxioms.eqb_spec.
  change (Prim2SF neg_infinity) with (S754_infinity true).
  destruct (Prim2SF x) as [s|[|]| |s m e]; cbn; split; congruence.
Qed.

Lemma is_infinity_SF x :
  is_infinity x = true <-> exists s, Prim2SF x = S754_infinity s.
Proof.
  unfold is_infinity. rewrite FloatAxioms.eqb_spec, abs_spec.
  change (Prim2SF infinity) with (S754_infinity false).
  destruct (Prim2SF x) as [s|s| |s m e]; cbn; split;
    try congruence; try (intros [? ?]; congruence); eauto.
Qed.

Lemma nan_to_num1_nan x : is_nan x = true -> F64.nan_to_num1 x = F64.zero.
Proof. unfold F64.nan_to_num1. intros ->. reflexivity. Qed.

Lemma nan_to_num1_infinity x :
  (x =? infinity)%float = true -> F64.nan_to_num1 x = F64.DBL_MAX.
Proof.
  intros Hx. unfold F64.nan_to_num1. rewrite Hx.
  apply eqb_infinity_SF in Hx.
  assert (is_nan x = false) as -> by (apply not_nan_SF; congruence).
  reflexivity.
Qed.

Lemma nan_to_num1_neg_infinity x :
  (x =? neg_infinity)%float = true ->
  F64.nan_to_num1 x = (- F64.DBL_MAX)%float.
Proof.
  intros Hx. unfold F64.nan_to_num1. rewrite Hx.
  apply eqb_neg_infinity_SF in Hx.
  assert (is_nan x = false) as -> by (apply not_nan_SF; congruence).
  assert ((x =? infinity)%float = false) as ->; [|reflexivity].
  apply not_true_iff_false. rewrite eqb_infinity_SF. congruence.
Qed.

Lemma nan_to_num1_finite x : is_finite x = true -> F64.nan_to_num1 x = x.
Proof.
  unfold is_finite. rewrite negb_true_iff, orb_false_iff. intros [Hn Hi].
  unfold F64.nan_to_num1. rewrite Hn.
  apply not_true_iff_false in Hi. rewrite is_infinity_SF in Hi.
  assert ((x =? infinity)%float = false) as ->.
  { apply not_true_iff_false. rewrite eqb_infinity_SF. eauto. }
  assert ((x =? neg_infinity)%float = false) as ->; [|reflexivity].
  apply not_true_iff_false. rewrite eqb_neg_infinity_SF. eauto.
Qed.

Lemma nan_to_num1_is_finite x : is_finite (F64.nan_to_num1 x) = true.
Proof.
  unfold F64.nan_to_num1.
  destruct (is_nan x) eqn:Hn; [reflexivity|].
  destruct (x =? infinity)%float eqn:Hp; [reflexivity|].
  destruct (x =? neg_infinity)%float eqn:Hm; [reflexivity|].
  unfold is_finite. rewrite Hn. simpl. rewrite negb_true_iff.
  apply not_true_iff_false. rewrite is_infinity_SF. intros [[|] Hs].
  - apply eqb_neg_infinity_SF in Hs. congruence.
  - apply eqb_infinity_SF in Hs. congruence.
Qed.


End Cleaning.

(** ** The truncation index *)

Section Truncation.
Context `{Numerics}.


End Truncation.


(** The sample system: the banded matrix of the two-disk input for
    [s = 2500], and the guard's column maxima.  Column 0 holds the entries of
    the decaying Bessel function only. *)
Lemma sample_system_value :
  Sample.Mb
  = [ [0; 0; 0; -10001];
      [0; 2501; -9.9999999999999993e-35; -10001];
      [-1.3107199999999999e-29; 10001; 9.9999999999999993e-35; 22501];
      [9.9999999999999993e-35; 10001; 1.0149592268982965e-37; 0];
      [-9.9999999999999993e-35; 0; 0; 0] ]%float
  /\ col_absmax Sample.Mb
     = [1.3107199999999999e-29; 10001; 9.9999999999999993e-35; 22501]%float
  /\ Mb_cond Sample.cut_off_prec Sample.inv_cut Sample.Mb
     = [true; false; true; false].
Proof. vm_compute. repeat split. Qed.


(** The range check on the sample input. *)
Lemma grf_laplace_radius_check_witness :
  ((exists m,
      grf_laplace (H := Sample.numerics) [Sample.se] Sample.rad Sample.S_part
        Sample.K_part Sample.R_part 2 1 (-1) None Sample.cut_off_prec
      = Raise (ValueError m))
   <-> Sample.rad = []
       \/ Exists (fun r => in_range Sample.R_part r = false) Sample.rad)
  /\ (Sample.rad = [] ->
      grf_laplace (H := Sample.numerics) [Sample.se] Sample.rad Sample.S_part
        Sample.K_part Sample.R_part 2 1 (-1) None Sample.cut_off_prec
      = Raise (ValueError msg_empty_reduction))
  /\ (grf_laplace (H := Sample.numerics) [Sample.se] Sample.rad Sample.S_part
        Sample.K_part Sample.R_part 2 1 (-1) None Sample.cut_off_prec
      = Raise (ValueError msg_range)
      <-> Exists (fun r => in_range Sample.R_part r = false) Sample.rad)
  /\ in_range Sample.R_part (R_first Sample.R_part) = false
  /\ in_range Sample.R_part (R_last Sample.R_part) = true.
Proof.
  apply (grf_laplace_radius_check (H := Sample.numerics) [Sample.se] Sample.rad
           Sample.S_part Sample.K_part Sample.R_part 2 1 (-1) None
           Sample.cut_off_prec 1e-3%float); reflexivity.
Defined.

(** C3 as stated fails for an empty [rad]: every other constraint holds on
    the sample input and no radius is outside the interval, and yet the call
    raises a [ValueError], the one of NumPy for the minimum of an empty
    array. *)
Lemma grf_laplace_radius_check_counterexample :
  resolve_K_well Sample.K_part None = Ok 1e-3%float
  /\ lengths_ok Sample.S_part Sample.K_part Sample.R_part = true
  /\ (R_first Sample.R_part <? 0)%float = false
  /\ strictly_increasing Sample.R_part = true
  /\ forallb (fun con => F64.gtb con 0) Sample.K_part = true
  /\ forallb (fun stor => F64.gtb stor 0) Sample.S_part = true
  /\ F64.gtb 2 0 = true /\ F64.gtb 2 3 = false
  /\ F64.gtb 1 0 = true /\ F64.gtb 1e-3 0 = true
  /\ grf_laplace (H := Sample.numerics) [Sample.se] [] Sample.S_part
       Sample.K_part Sample.R_part 2 1 (-1) None Sample.cut_off_prec
     = Raise (ValueError msg_empty_reduction)
  /\ ~ Exists (fun r => in_range Sample.R_part r = false) [].
Proof.
  repeat split; try reflexivity. intros HE. inversion HE.
Qed.

(** ** Cleaning of the coefficients and of the result *)

Section CleaningSteps.
Context `{Numerics}.

Lemma grf_laplace_Ok s rad S_part K_part R_part dim lat_ext rate K_well
    cut_off_prec res :
  grf_laplace s rad S_part K_part R_part dim lat_ext rate K_well cut_off_prec
  = Ok res ->
  exists kw raw scale,
    resolve_K_well K_part K_well = Ok kw
    /\ check_input rad S_part K_part R_part dim lat_ext kw = Ok tt
    /\ solve_all (1 - dim / 2)%float cut_off_prec s rad S_part K_part R_part = Ok raw
    /\ scale_factor dim lat_ext rate kw = Ok scale
    /\ res = fmap (fun row : list float =>
                     fmap (fun x => (F64.nan_to_num1 x * scale)%float) row) raw.
Proof.
  unfold grf_laplace.
  destruct (resolve_K_well K_part K_well) as [kw|] eqn:HK; simpl; [|discriminate].
  destruct (check_input _ _ _ _ _ _ _) as [[]|] eqn:HC; simpl; [|discriminate].
  destruct (solve_all _ _ _ _ _ _ _) as [raw|] eqn:HS; simpl; [|discriminate].
  destruct (scale_factor _ _ _ _) as [scale|] eqn:HF; simpl; [|discriminate].
  intros [= <-]. exists kw, raw, scale. repeat split; auto.
  rewrite <- list_fmap_compose. apply list_fmap_ext. intros i row _. simpl.
  unfold F64.nan_to_num. rewrite <- list_fmap_compose. reflexivity.
Qed.

(** C6 (as the code has it): the coefficient vector that the head
    evaluation reads is [nan_to_num] of the solved one, and every entry of
    the result is [nan_to_num] of the computed head, times the scale factor;
    [nan_to_num] turns NaN into zero, [+inf] into the largest finite double,
    [-inf] into the most negative one, keeps finite values, and so leaves
    neither NaN nor an infinity. *)
Theorem nan_to_num_cleaning :
  (forall nu cut_off_prec S_part K_part R_part rad st sq st' row,
     multi_disk_step nu cut_off_prec S_part K_part R_part rad st sq = Ok (st', row) ->
     exists first V Mb,
       st'.2 = F64.nan_to_num (solve_coeffs (length K_part) first V Mb st.2).2
       /\ row = head_row nu cut_off_prec
                  (fmap (fun d => (sqrt sq.1 * d)%float) (difsr S_part K_part))
                  st'.2 (pos R_part rad) rad)
  /\ (forall s rad S_part K_part R_part dim lat_ext rate K_well cut_off_prec res,
        grf_laplace s rad S_part K_part R_part dim lat_ext rate K_well cut_off_prec
        = Ok res ->
        exists raw scale,
          solve_all (1 - dim / 2)%float cut_off_prec s rad S_part K_part R_part
          = Ok raw
          /\ res = fmap (fun row : list float =>
                           fmap (fun x => (F64.nan_to_num1 x * scale)%float) row) raw)
  /\ (forall x,
        (is_nan x = true -> F64.nan_to_num1 x = F64.zero)
        /\ ((x =? infinity)%float = true -> F64.nan_to_num1 x = F64.DBL_MAX)
        /\ ((x =? neg_infinity)%float = true ->
            F64.nan_to_num1 x = (- F64.DBL_MAX)%float)
        /\ (is_finite x = true -> F64.nan_to_num1 x = x)
        /\ is_finite (F64.nan_to_num1 x) = true).
Proof.
  split; [|split].
  - intros nu cut S_part K_part R_part rad st sq st' row.
    unfold multi_disk_step.
    destruct (py_inverse cut) as [inv|]; simpl; [|discriminate].
    intros [= <- <-]. simpl. eauto.
  - intros s rad S_part K_part R_part dim lat_ext rate K_well cut res Hr.
    apply grf_laplace_Ok in Hr as (kw & raw & scale & _ & _ & HS & _ & ->).
    eauto.
  - intros x. split; [apply nan_to_num1_nan|].
    split; [apply nan_to_num1_infinity|].
    split; [apply nan_to_num1_neg_infinity|].
    split; [apply nan_to_num1_finite|apply nan_to_num1_is_finite].
Qed.

End CleaningSteps.

(** The cleaning on the sample call, on NaN and on [+inf]. *)
Lemma nan_to_num_cleaning_witness :
  (exists raw scale,
     solve_all (H := Sample.numerics) (1 - 2 / 2)%float Sample.cut_off_prec
       [Sample.se] Sample.rad Sample.S_part Sample.K_part Sample.R_part = Ok raw
     /\ Sample.res
        = fmap (fun row : list float =>
                  fmap (fun x => (F64.nan_to_num1 x * scale)%float) row) raw)
  /\ F64.nan_to_num1 nan = F64.zero
  /\ F64.nan_to_num1 infinity = F64.DBL_MAX.
Proof.
  pose proof (nan_to_num_cleaning (H := Sample.numerics)) as (_ & H2 & H3).
  split; [|split].
  - apply (H2 [Sample.se] Sample.rad Sample.S_part Sample.K_part Sample.R_part
              2%float 1%float (-1)%float None Sample.cut_off_prec Sample.res).
    vm_compute. reflexivity.
  - apply (H3 nan). reflexivity.
  - apply (H3 infinity). reflexivity.
Defined.

(** C6 fails in the code: an infinite value is not set to zero but to the
    largest finite double.  On the two-disk sample input with [s = 1e-300]
    the pumping condition is [-inf], the solved coefficients are
    [[nan; -inf; 0; 0]], cleaning leaves [-DBL_MAX] in place of [-inf], and
    the returned matrix holds [+inf]. *)
Lemma nan_to_num_cleaning_counterexample :
  is_infinity infinity = true
  /\ F64.nan_to_num [infinity; neg_infinity]
     = [F64.DBL_MAX; (- F64.DBL_MAX)%float]
  /\ F64.is_zero F64.DBL_MAX = false
  /\ F64.is_zero (- F64.DBL_MAX)%float = false
  /\ (let VM := multi_disk_system (H := Sample.numerics) (1 - 2 / 2)%float
                  Sample.S_part Sample.K_part Sample.R_part 1e-300 in
      (solve_coeffs (H := Sample.numerics) 2 0 VM.1 VM.2 (init 2).2).2
      = [nan; neg_infinity; 0; 0]%float)
  /\ multi_disk_first (H := Sample.numerics) (1 - 2 / 2)%float
       Sample.cut_off_prec Sample.S_part Sample.K_part Sample.R_part 1e-300 = 0
  /\ multi_disk_coeffs (H := Sample.numerics) (1 - 2 / 2)%float
       Sample.cut_off_prec Sample.S_part Sample.K_part Sample.R_part 1e-300
     = [0; - F64.DBL_MAX; 0; 0]%float
  /\ grf_laplace (H := Sample.numerics) [1e-300]%float Sample.rad Sample.S_part
       Sample.K_part Sample.R_part 2 1 (-1) None Sample.cut_off_prec
     = Ok [[infinity; (-0)%float]].
Proof. vm_compute. repeat split. Qed.

(** ** Loops over the transform variables *)

Section Loops.
Context {St A B : Type} (body : St -> A -> result (St * B)).
Context (I : St -> Prop) (st0 : St).
Hypothesis body_inv :
  forall st x st' row, I st -> body st x = Ok (st', row) -> I st'.
Hypothesis body_row :
  forall st x, I st -> row_of (body st x) = row_of (body st0 x).

(** When the row a body produces does not depend on the workspaces it is
    handed, row [i] of the loop is the row of a loop over element [i]
    alone. *)
Lemma for_each_row l : forall st rows,
  I st -> for_each body st l = Ok rows ->
  forall i x, l !! i = Some x ->
  exists row, for_each body st0 [x] = Ok [row] /\ rows !! i = Some row.
Proof using body_inv body_row.
  induction l as [|y l IH]; intros st rows Hst Hrun i x Hi; [discriminate|].
  simpl in Hrun.
  destruct (body st y) as [[st' row]|e] eqn:Hb; [|discriminate].
  destruct (for_each body st' l) as [rows'|e] eqn:Hl; [|discriminate].
  injection Hrun as <-.
  destruct i as [|i]; simpl in Hi.
  - injection Hi as <-. exists row. split; [|reflexivity].
    pose proof (body_row st y Hst) as Hr. rewrite Hb in Hr. simpl in Hr.
    simpl. destruct (body st0 y) as [[st0' row0]|e]; simpl in Hr; [|discriminate].
    injection Hr as ->. reflexivity.
  - simpl. apply (IH st' rows'); [|exact Hl|exact Hi].
    eapply body_inv; [exact Hst|exact Hb].
Qed.

Lemma for_each_length l : forall st rows,
  for_each body st l = Ok rows -> length rows = length l.
Proof using Type.
  induction l as [|y l IH]; intros st rows; simpl.
  - intros [= <-]. reflexivity.
  - destruct (body st y) as [[st' row]|e]; [|discriminate].
    destruct (for_each body st' l) as [rows'|e] eqn:Hl; [|discriminate].
    intros [= <-]. simpl. f_equal. eapply IH, Hl.
Qed.

Lemma for_each_Forall (P : B -> Prop) l : forall st rows,
  (forall st x st' row, body st x = Ok (st', row) -> P row) ->
  for_each body st l = Ok rows -> Forall P rows.
Proof using Type.
  induction l as [|y l IH]; intros st rows HP; simpl.
  - intros [= <-]. constructor.
  - destruct (body st y) as [[st' row]|e] eqn:Hb; [|discriminate].
    destruct (for_each body st' l) as [rows'|e] eqn:Hl; [|discriminate].
    intros [= <-]. constructor; eauto.
Qed.

(** The loop returns when no iteration raises. *)
Lemma for_each_Ok l : forall st,
  I st -> (forall st x, I st -> x ∈ l -> is_ok (body st x) = true) ->
  exists rows, for_each body st l = Ok rows.
Proof using body_inv.
  induction l as [|y l IH]; intros st Hst Hok; simpl; [eauto|].
  pose proof (Hok st y Hst ltac:(left)) as Hy.
  destruct (body st y) as [[st' row]|e] eqn:Hb; [|discriminate].
  destruct (IH st') as [rows Hrows].
  - eapply body_inv; eauto.
  - intros st1 x H1 Hx. apply Hok; [exact H1|right; exact Hx].
  - rewrite Hrows. eauto.
Qed.

End Loops.

(** ** The assembly as a sequence of assignments *)

Section Assembly.
Context `{Numerics}.

Lemma apply_writes_app ws1 ws2 Mb :
  apply_writes (ws1 ++ ws2) Mb = apply_writes ws2 (apply_writes ws1 Mb).
Proof. apply foldl_app. Qed.

Lemma apply_writes_flat_map (g : nat -> list write) l : forall Mb,
  foldl (fun M i => apply_writes (g i) M) Mb l = apply_writes (flat_map g l) Mb.
Proof.
  induction l as [|i l IH]; intros Mb; simpl; [reflexivity|].
  rewrite apply_writes_app. apply IH.
Qed.

Lemma assemble_as_writes nu Cs R_part tmp parts Mb :
  assemble nu Cs R_part tmp parts Mb
  = apply_writes (assemble_writes nu Cs R_part tmp parts) Mb.
Proof.
  unfold assemble, assemble_writes. rewrite apply_writes_app.
  rewrite <- apply_writes_flat_map.
  unfold assemble_boundary, boundary_writes.
  destruct (F64.gtb _ _), (_ <? _)%float; reflexivity.
Qed.

Lemma flat_map_fst (g : nat -> list write) l :
  (flat_map g l).*1 = flat_map (fun i => (g i).*1) l.
Proof.
  induction l as [|i l IH]; simpl; [reflexivity|].
  rewrite fmap_app, IH. reflexivity.
Qed.

(** Where the assembly writes does not depend on the transform variable. *)
Lemma assemble_writes_positions nu Cs R_part tmp parts :
  (assemble_writes nu Cs R_part tmp parts).*1 = assemble_positions R_part parts.
Proof.
  unfold assemble_writes, assemble_positions.
  rewrite fmap_app, flat_map_fst. f_equal.
  unfold boundary_writes, boundary_positions.
  destruct (F64.gtb _ _), (_ <? _)%float; reflexivity.
Qed.

End Assembly.

(** ** The workspaces of the multi-disk loop *)

Section Workspaces.
Context `{Numerics}.

Lemma zeros_shape n m : mat_shape n m (replicate n (replicate m F64.zero)).
Proof.
  split; [apply length_replicate|].
  apply Forall_replicate, length_replicate.
Qed.

Lemma init_Mb parts :
  (init parts).1.2
  = set2 2 (2 * parts - 1) F64.one
      (set2 2 0 F64.one (replicate 5 (replicate (2 * parts) F64.zero))).
Proof. reflexivity. Qed.

Lemma init_shape parts : mat_shape 5 (2 * parts) (init parts).1.2.
Proof. rewrite init_Mb. apply set2_shape, set2_shape, zeros_shape. Qed.

Lemma entry_zeros n m r c :
  entry (replicate n (replicate m F64.zero)) r c
  = if decide (r < n /\ c < m) then Some F64.zero else None.
Proof.
  unfold entry. destruct (decide (r < n)) as [Hr|Hr].
  - rewrite lookup_replicate_2 by exact Hr.
    destruct (decide (c < m)) as [Hc|Hc].
    + rewrite lookup_replicate_2, decide_True by tauto. reflexivity.
    + rewrite decide_False by tauto. apply lookup_ge_None.
      rewrite length_replicate. lia.
  - rewrite decide_False by tauto.
    assert (replicate n (replicate m F64.zero) !! r = None) as ->; [|reflexivity].
    apply lookup_ge_None. rewrite length_replicate. lia.
Qed.

(** Rows 3 and 4 of the initial [Mb] are zero. *)
Lemma entry_init_low parts r c :
  r = 3 \/ r = 4 ->
  entry (init parts).1.2 r c
  = if decide (c < 2 * parts) then Some F64.zero else None.
Proof.
  intros Hr. rewrite init_Mb, !entry_set2, !decide_False by lia.
  rewrite entry_zeros. destruct (decide (c < 2 * parts)).
  - rewrite decide_True by lia. reflexivity.
  - rewrite decide_False by lia. reflexivity.
Qed.

Lemma init_state_inv parts R_part : state_inv parts R_part (init parts).
Proof.
  unfold state_inv. split; [apply length_replicate|].
  split; [simpl; rewrite drop_replicate; reflexivity|].
  split; [apply init_shape|]. split; [reflexivity|apply length_replicate].
Qed.

Lemma insert_head (V : list float) n q :
  length V = n -> 1 <= n -> drop 1 V = replicate (n - 1) F64.zero ->
  <[0 := q]> V = q :: replicate (n - 1) F64.zero.
Proof.
  destruct V as [|v V]; intros HL Hn HV; simpl in HL; [lia|].
  change (V = replicate (n - 1) F64.zero) in HV. rewrite <- HV. reflexivity.
Qed.

Lemma assemble_state nu Cs R_part tmp parts st :
  state_inv parts R_part st ->
  assemble nu Cs R_part tmp parts st.1.2
  = assemble nu Cs R_part tmp parts (init parts).1.2.
Proof.
  intros (_ & _ & HM & Hag & _). rewrite !assemble_as_writes.
  apply (apply_writes_agree 5 (2 * parts)); [exact HM|apply init_shape|].
  intros r c. rewrite assemble_writes_positions. apply Hag.
Qed.

(** Resetting an entry of row 3 or 4 to zero restores its initial value. *)
Lemma set2_zero_agree parts (P : list (nat * nat)) r0 c0 Mb :
  r0 = 3 \/ r0 = 4 ->
  mat_shape 5 (2 * parts) Mb ->
  (forall r c, (r, c) ∉ P -> entry Mb r c = entry (init parts).1.2 r c) ->
  forall r c, (r, c) ∉ P ->
    entry (set2 r0 c0 F64.zero Mb) r c = entry (init parts).1.2 r c.
Proof.
  intros Hr0 HM Hag r c Hn. rewrite entry_set2. case_decide as Hd; [|auto].
  destruct Hd as [-> ->]. rewrite entry_init_low by exact Hr0.
  pose proof (entry_is_Some 5 (2 * parts) Mb r c HM) as HS.
  destruct (entry Mb r c) eqn:E.
  - rewrite decide_True; [reflexivity|]. apply HS. eauto.
  - rewrite decide_False; [reflexivity|]. intros Hc.
    assert (is_Some (@None float)) as [? ?]; [|discriminate].
    apply HS. lia.
Qed.

Lemma solve_coeffs_Mb parts (P : list (nat * nat)) first V Mb X :
  mat_shape 5 (2 * parts) Mb ->
  (forall r c, (r, c) ∉ P -> entry Mb r c = entry (init parts).1.2 r c) ->
  mat_shape 5 (2 * parts) (solve_coeffs parts first V Mb X).1
  /\ (forall r c, (r, c) ∉ P ->
        entry (solve_coeffs parts first V Mb X).1 r c = entry (init parts).1.2 r c).
Proof.
  intros HM Hag. unfold solve_coeffs.
  destruct (first <=? 1); simpl; [auto|].
  destruct (first <? parts); [|auto]. unfold truncate_view. split.
  - auto using set2_shape.
  - repeat (apply set2_zero_agree; [lia|auto using set2_shape|]). exact Hag.
Qed.

(** The solved coefficients do not depend on what [X] held before. *)
Lemma solve_coeffs_X parts first V Mb X X' :
  first <= parts -> length X = 2 * parts -> length X' = 2 * parts ->
  (solve_coeffs parts first V Mb X).2 = (solve_coeffs parts first V Mb X').2.
Proof.
  intros Hf HX HX'. unfold solve_coeffs.
  destruct (Nat.leb_spec first 1); simpl.
  - rewrite !drop_zero_from by lia. rewrite HX, HX'. reflexivity.
  - rewrite !drop_zero_from by lia. rewrite HX, HX'. reflexivity.
Qed.

Lemma multi_disk_step_inv nu cut_off_prec S_part K_part R_part rad st sq st' row :
  1 <= length K_part ->
  state_inv (length K_part) R_part st ->
  multi_disk_step nu cut_off_prec S_part K_part R_part rad st sq = Ok (st', row) ->
  state_inv (length K_part) R_part st'.
Proof.
  intros Hp Hst. pose proof Hst as (HV & HV1 & HM & Hag & HX).
  unfold multi_disk_step.
  destruct (py_inverse cut_off_prec) as [inv|]; simpl; [|discriminate].
  intros [= <- _]. unfold state_inv. simpl.
  set (Mb := assemble _ _ _ _ _ _).
  assert (HMb : mat_shape 5 (2 * length K_part) Mb).
  { subst Mb. rewrite assemble_as_writes. apply apply_writes_shape, HM. }
  assert (Hagb : forall r c, (r, c) ∉ assemble_positions R_part (length K_part) ->
                   entry Mb r c = entry (init (length K_part)).1.2 r c).
  { intros r c Hn. subst Mb. rewrite assemble_as_writes.
    rewrite entry_apply_writes_other by (rewrite assemble_writes_positions; exact Hn).
    apply Hag, Hn. }
  split; [rewrite length_insert; exact HV|].
  split; [destruct (st.1.1); simpl in *; [lia|exact HV1]|].
  repeat split.
  - eapply solve_coeffs_Mb; eauto.
  - eapply solve_coeffs_Mb; eauto.
  - eapply solve_coeffs_Mb; eauto.
  - unfold F64.nan_to_num. rewrite length_fmap.
    apply solve_coeffs_length; auto; [|rewrite length_insert; exact HV].
    eapply (find_first_le 4), HMb.
Qed.

Lemma multi_disk_step_row nu cut_off_prec S_part K_part R_part rad st sq :
  1 <= length K_part ->
  state_inv (length K_part) R_part st ->
  row_of (multi_disk_step nu cut_off_prec S_part K_part R_part rad st sq)
  = row_of (multi_disk_step nu cut_off_prec S_part K_part R_part rad
              (init (length K_part)) sq).
Proof.
  intros Hp Hst. pose proof Hst as (HV & HV1 & HM & Hag & HX).
  unfold multi_disk_step.
  rewrite (assemble_state _ _ _ _ _ st Hst).
  rewrite (insert_head st.1.1 (2 * length K_part) sq.2 HV ltac:(lia) HV1).
  rewrite (insert_head (init (length K_part)).1.1 (2 * length K_part) sq.2);
    [|apply length_replicate|lia|simpl; rewrite drop_replicate; reflexivity].
  destruct (py_inverse cut_off_prec) as [inv|]; simpl; [|reflexivity].
  f_equal. f_equal. f_equal. apply solve_coeffs_X; auto.
  - eapply (find_first_le 4).
    rewrite assemble_as_writes. apply apply_writes_shape, init_shape.
  - apply length_replicate.
Qed.

End Workspaces.

(** ** Independence of the rows *)

Section Independence.
Context `{Numerics}.

Lemma single_system_state nu diff_sr0 R0 RN st se q :
  state1_inv R0 RN st ->
  single_system nu diff_sr0 R0 RN st se q
  = single_system nu diff_sr0 R0 RN init1 se q.
Proof.
  intros (HV & H0 & HN). unfold single_system. rewrite HV.
  destruct st as [V [r0 r1]]. simpl in *.
  destruct (F64.gtb R0 0); destruct (RN <? F64.inf)%float;
    rewrite ?H0, ?HN by reflexivity; reflexivity.
Qed.

Lemma single_system_inv nu diff_sr0 R0 RN st se q :
  state1_inv R0 RN st ->
  state1_inv R0 RN (single_system nu diff_sr0 R0 RN st se q).
Proof.
  intros (HV & H0 & HN). unfold single_system, state1_inv.
  destruct st as [V [r0 r1]]. simpl in *.
  destruct (F64.gtb R0 0); destruct (RN <? F64.inf)%float; simpl;
    repeat split; try discriminate; auto;
    intros _; rewrite ?H0, ?HN by reflexivity; reflexivity.
Qed.

Lemma init1_inv R0 RN : state1_inv R0 RN init1.
Proof. repeat split. Qed.

Lemma single_disk_step_inv nu diff_sr0 R0 RN rad st sq st' row :
  state1_inv R0 RN st ->
  single_disk_step nu diff_sr0 R0 RN rad st sq = Ok (st', row) ->
  state1_inv R0 RN st'.
Proof.
  intros Hst. unfold single_disk_step.
  destruct (linalg_solve _ _) as [[As Bs]|]; [|discriminate].
  intros [= <- _]. apply single_system_inv, Hst.
Qed.

Lemma single_disk_step_row nu diff_sr0 R0 RN rad st sq :
  state1_inv R0 RN st ->
  row_of (single_disk_step nu diff_sr0 R0 RN rad st sq)
  = row_of (single_disk_step nu diff_sr0 R0 RN rad init1 sq).
Proof.
  intros Hst. unfold single_disk_step.
  rewrite (single_system_state _ _ _ _ st _ _ Hst). reflexivity.
Qed.

Lemma pumping_fmap nu diff_sr0 R0 s :
  pumping nu diff_sr0 R0 s = pump1 nu diff_sr0 R0 <$> s.
Proof. unfold pumping, pump1. destruct (F64.gtb R0 0); reflexivity. Qed.

Lemma zip_pumping_lookup nu diff_sr0 R0 s i se :
  s !! i = Some se ->
  zip s (pumping nu diff_sr0 R0 s) !! i = Some (se, pump1 nu diff_sr0 R0 se).
Proof.
  intros Hi. rewrite pumping_fmap. apply lookup_zip_Some.
  split; [exact Hi|]. rewrite list_lookup_fmap, Hi. reflexivity.
Qed.

Lemma check_input_Ok rad S_part K_part R_part dim lat_ext kw :
  check_input rad S_part K_part R_part dim lat_ext kw = Ok tt ->
  lengths_ok S_part K_part R_part = true
  /\ strictly_increasing R_part = true
  /\ check_rad rad R_part = Ok tt.
Proof.
  unfold check_input.
  destruct (lengths_ok _ _ _); simpl; [|discriminate].
  destruct (_ <? _)%float; [discriminate|].
  destruct (strictly_increasing _); simpl; [|discriminate].
  destruct (check_rad _ _) as [[]|]; simpl; [auto|discriminate].
Qed.

(** Row [i] of the loop over [s] is the row of the loop over [[s_i]]. *)
Lemma solve_all_row nu cut_off_prec s rad S_part K_part R_part raw i se :
  1 <= length K_part ->
  solve_all nu cut_off_prec s rad S_part K_part R_part = Ok raw ->
  s !! i = Some se ->
  exists row,
    solve_all nu cut_off_prec [se] rad S_part K_part R_part = Ok [row]
    /\ raw !! i = Some row.
Proof.
  intros Hp Hrun Hi. unfold solve_all in *.
  set (d := sqrt _) in *. set (R0 := R_first R_part) in *.
  pose proof (zip_pumping_lookup nu d R0 s i se Hi) as Hz.
  assert (Hone : zip [se] (pumping nu d R0 [se]) = [(se, pump1 nu d R0 se)])
    by (rewrite pumping_fmap; reflexivity).
  rewrite Hone. destruct (length K_part =? 1).
  - eapply (for_each_row _ (state1_inv R0 (R_last R_part))); eauto.
    + intros. eapply single_disk_step_inv; eauto.
    + intros. apply single_disk_step_row. assumption.
    + apply init1_inv.
  - eapply (for_each_row _ (state_inv (length K_part) R_part)); eauto.
    + intros. eapply multi_disk_step_inv; eauto.
    + intros. apply multi_disk_step_row; assumption.
    + apply init_state_inv.
Qed.

(** C4: for fixed disk parameters and radii, row [i] of the result for
    the batch [s] is exactly the row returned for the one-element batch
    [[s_i]]: what earlier iterations leave in the workspaces [V], [Mb] and
    [X], the entries of [Mb] zeroed through the view [M_sgl] included, never
    reaches a later row. *)
Theorem grf_laplace_rows_independent s rad S_part K_part R_part dim lat_ext rate
    K_well cut_off_prec res :
  grf_laplace s rad S_part K_part R_part dim lat_ext rate K_well cut_off_prec
  = Ok res ->
  forall i se, s !! i = Some se ->
  exists row,
    grf_laplace [se] rad S_part K_part R_part dim lat_ext rate K_well cut_off_prec
    = Ok [row]
    /\ res !! i = Some row.
Proof.
  intros Hrun i se Hi.
  apply grf_laplace_Ok in Hrun as (kw & raw & scale & HK & HC & HS & HF & ->).
  pose proof (check_input_Ok _ _ _ _ _ _ _ HC) as (HL & _ & _).
  apply lengths_ok_spec in HL as (_ & _ & Hp).
  destruct (solve_all_row _ _ _ _ _ _ _ _ i se Hp HS Hi) as (row & H1 & Hrow).
  exists ((fun x => (F64.nan_to_num1 x * scale)%float) <$> row). split.
  - unfold grf_laplace. rewrite HK. simpl. rewrite HC. simpl.
    rewrite H1. simpl. rewrite HF. simpl.
    unfold F64.nan_to_num. rewrite <- list_fmap_compose. reflexivity.
  - rewrite list_lookup_fmap, Hrow. reflexivity.
Qed.

End Independence.

(** Row 1 of the sample batch, whose first iteration truncates [Mb] in
    place, is the row of the call for [0.01] alone. *)
Lemma grf_laplace_rows_independent_witness :
  Sample.call4 Sample.s4 = Ok Sample.res4
  /\ exists row,
       Sample.call4 [0.01%float] = Ok [row] /\ Sample.res4 !! 1 = Some row.
Proof.
  assert (Hrun : Sample.call4 Sample.s4 = Ok Sample.res4)
    by (vm_compute; reflexivity).
  split; [exact Hrun|].
  exact (grf_laplace_rows_independent (H := Sample.numerics) _ _ _ _ _ _ _ _ _ _ _
           Hrun 1 0.01%float eq_refl).
Defined.

(** ** Shape of the result *)

Section Shape.
Context `{Numerics}.

Lemma zip_pumping_elem nu diff_sr0 R0 s x :
  x ∈ zip s (pumping nu diff_sr0 R0 s) ->
  exists se, se ∈ s /\ x = (se, pump1 nu diff_sr0 R0 se).
Proof.
  intros Hx. apply list_elem_of_lookup in Hx as [i Hi].
  destruct x as [se q]. apply lookup_zip_Some in Hi as [Hs Hq].
  rewrite pumping_fmap, list_lookup_fmap, Hs in Hq. injection Hq as <-.
  exists se. split; [|reflexivity]. eapply list_elem_of_lookup_2, Hs.
Qed.

Lemma zip_pumping_length nu diff_sr0 R0 s :
  length (zip s (pumping nu diff_sr0 R0 s)) = length s.
Proof. rewrite pumping_fmap, length_zip_with, length_fmap. lia. Qed.

Lemma single_head_length nu Cs RN As Bs rad :
  length (single_head nu Cs RN As Bs rad) = length rad.
Proof. apply length_fmap. Qed.

Lemma head_row_length nu cut Cs X R_part rad :
  length (head_row nu cut Cs X (pos R_part rad) rad) = length rad.
Proof.
  unfold head_row, pos. rewrite length_zip_with, length_fmap. lia.
Qed.

Lemma solve_all_shape nu cut_off_prec s rad S_part K_part R_part raw :
  solve_all nu cut_off_prec s rad S_part K_part R_part = Ok raw ->
  length raw = length s /\ Forall (fun row => length row = length rad) raw.
Proof.
  unfold solve_all. destruct (length K_part =? 1); intros Hrun; split.
  - apply for_each_length in Hrun. rewrite Hrun. apply zip_pumping_length.
  - eapply for_each_Forall; [|exact Hrun].
    intros st x st' row. unfold single_disk_step.
    destruct (linalg_solve _ _) as [[As Bs]|]; [|discriminate].
    intros [= _ <-]. apply single_head_length.
  - apply for_each_length in Hrun. rewrite Hrun. apply zip_pumping_length.
  - eapply for_each_Forall; [|exact Hrun].
    intros st x st' row. unfold multi_disk_step.
    destruct (py_inverse _); simpl; [|discriminate].
    intros [= _ <-]. apply head_row_length.
Qed.

(** The loops return unless a single-disk system is singular or the cutoff
    is zero. *)
Lemma solve_all_returns nu cut_off_prec s rad S_part K_part R_part :
  1 <= length K_part ->
  (length K_part = 1 ->
   Forall (fun se => singular1 nu S_part K_part R_part se = false) s) ->
  (length K_part = 1 \/ s = [] \/ (cut_off_prec =? 0)%float = false) ->
  exists raw, solve_all nu cut_off_prec s rad S_part K_part R_part = Ok raw.
Proof.
  intros Hp Hsol Hcut. unfold solve_all.
  destruct (Nat.eqb_spec (length K_part) 1) as [H1|H1].
  - specialize (Hsol H1). rewrite Forall_forall in Hsol.
    eapply (for_each_Ok _ (state1_inv (R_first R_part) (R_last R_part))).
    + intros. eapply single_disk_step_inv; eauto.
    + apply init1_inv.
    + intros st x Hst Hx. apply zip_pumping_elem in Hx as (se & Hse & ->).
      unfold single_disk_step. rewrite single_system_state by exact Hst.
      specialize (Hsol se Hse). unfold singular1, single_disk_system in Hsol.
      simpl. destruct (linalg_solve _ _) as [[As Bs]|]; [reflexivity|discriminate].
  - eapply (for_each_Ok _ (state_inv (length K_part) R_part)).
    + intros. eapply multi_disk_step_inv; eauto.
    + apply init_state_inv.
    + intros st x Hst Hx. apply zip_pumping_elem in Hx as (se & Hse & ->).
      destruct Hcut as [Hc|[Hc|Hc]]; [lia|subst s; inversion Hse|].
      unfold multi_disk_step, py_inverse. rewrite Hc. reflexivity.
Qed.


End Shape.



(** ** A radius on the outer boundary, and singular systems *)

Section Boundary.
Context `{Numerics}.

Lemma is_finite_SF x :
  is_finite x = true ->
  (exists s, Prim2SF x = S754_zero s) \/ (exists s m e, Prim2SF x = S754_finite s m e).
Proof.
  unfold is_finite. rewrite negb_true_iff, orb_false_iff. intros [Hn Hi].
  apply not_nan_SF in Hn. apply not_true_iff_false in Hi.
  rewrite is_infinity_SF in Hi.
  destruct (Prim2SF x) as [s|s| |s m e]; eauto; [exfalso; eauto|congruence].
Qed.

(** Zero times a finite number is zero ([0.0] or [-0.0]). *)
Lemma mul_zero_finite x :
  is_finite x = true -> F64.is_zero (F64.zero * x)%float = true.
Proof.
  intros Hx. unfold F64.is_zero. rewrite FloatAxioms.eqb_spec, mul_spec.
  change (Prim2SF 0%float) with (S754_zero false).
  change (Prim2SF F64.zero) with (S754_zero false).
  apply is_finite_SF in Hx as [[s ->]|(s & m & e & ->)]; reflexivity.
Qed.

(** Zero times an infinite number or a NaN is NaN. *)
Lemma mul_zero_not_finite x :
  is_finite x = false -> is_nan (F64.zero * x)%float = true.
Proof.
  unfold is_finite. rewrite negb_false_iff, orb_true_iff.
  rewrite !is_nan_SF, is_infinity_SF, mul_spec.
  change (Prim2SF F64.zero) with (S754_zero false).
  intros [->|[s ->]]; reflexivity.
Qed.

(** In the single-disk loop the head at a radius that is not smaller than
    the outer boundary keeps its initial zero. *)
Lemma single_disk_boundary_zero nu S_part K_part R_part cut_off_prec s rad raw :
  length K_part = 1 ->
  solve_all nu cut_off_prec s rad S_part K_part R_part = Ok raw ->
  Forall (fun row => forall ri, rad !! ri = Some (R_last R_part) ->
                     row !! ri = Some F64.zero) raw.
Proof.
  intros H1. unfold solve_all. rewrite H1. simpl. intros Hrun.
  eapply for_each_Forall; [|exact Hrun].
  intros st x st' row. unfold single_disk_step.
  destruct (linalg_solve _ _) as [[As Bs]|]; [|discriminate].
  intros [= _ <-] ri Hri. unfold single_head.
  rewrite list_lookup_fmap, Hri. simpl. rewrite ltb_irrefl. reflexivity.
Qed.

Lemma lookup_total_fmap_float (f : float -> float) (l : list float) i :
  i < length l -> (f <$> l) !!! i = f (l !!! i).
Proof.
  intros Hi. rewrite !list_lookup_total_alt, list_lookup_fmap.
  destruct (l !! i) eqn:E; [reflexivity|].
  apply lookup_ge_None in E. lia.
Qed.

(** The radius [R_N] is matched to the last disk. *)
Lemma pos_last R_part rad ri :
  2 <= length R_part -> strictly_increasing R_part = true ->
  rad !! ri = Some (R_last R_part) ->
  pos R_part rad !! ri = Some (length R_part - 2).
Proof.
  intros HL Hinc Hri. unfold pos. rewrite list_lookup_fmap, Hri. simpl.
  destruct R_part as [|x l]; [simpl in HL; lia|].
  rewrite searchsorted_last by exact Hinc. simpl. f_equal; lia.
Qed.

(** C10: with one disk, the entry of every row at a radius equal to the
    outer boundary is the initial zero times the scale factor: zero whenever
    the scale factor is finite, and NaN whenever it is infinite or NaN, the
    result being cleaned before it is scaled; with several disks such a
    radius is matched to the last disk and its entry is the head formula
    with the coefficients of that disk. *)
Theorem outer_boundary_radius :
  (forall s rad S_part K_part R_part dim lat_ext rate K_well cut_off_prec res
          si ri row,
     length K_part = 1 ->
     grf_laplace s rad S_part K_part R_part dim lat_ext rate K_well cut_off_prec
     = Ok res ->
     res !! si = Some row -> rad !! ri = Some (R_last R_part) ->
     exists kw scale,
       resolve_K_well K_part K_well = Ok kw
       /\ scale_factor dim lat_ext rate kw = Ok scale
       /\ row !! ri = Some (F64.zero * scale)%float
       /\ (is_finite scale = true -> F64.is_zero (F64.zero * scale)%float = true)
       /\ (is_finite scale = false -> is_nan (F64.zero * scale)%float = true))
  /\ (forall nu cut_off_prec S_part K_part R_part rad st sq st' row ri,
        length R_part = S (length K_part) -> length S_part = length K_part ->
        2 <= length K_part -> strictly_increasing R_part = true ->
        multi_disk_step nu cut_off_prec S_part K_part R_part rad st sq
        = Ok (st', row) ->
        rad !! ri = Some (R_last R_part) ->
        let N := length K_part in
        let r := R_last R_part in
        let dN := difsr S_part K_part !!! (N - 1) in
        let Cs := (sqrt sq.1 * dN)%float in
        let Xk := st'.2 !!! (2 * (N - 1)) in
        let Xi := st'.2 !!! (2 * (N - 1) + 1) in
        pos R_part rad !! ri = Some (N - 1)
        /\ row !! ri
           = Some (np_pow r nu
                   * ((if (abs Xk <? cut_off_prec)%float then F64.zero
                       else Xk * kv0 nu (Cs * r))
                      + (if (abs Xi <? cut_off_prec)%float then F64.zero
                         else Xi * iv0 nu (Cs * r))))%float).
Proof.
  split.
  - intros s rad S_part K_part R_part dim lat_ext rate K_well cut res si ri row
           H1 Hrun Hsi Hri.
    apply grf_laplace_Ok in Hrun as (kw & raw & scale & HK & HC & HS & HF & ->).
    exists kw, scale. split; [exact HK|]. split; [exact HF|].
    split; [|split; [apply mul_zero_finite|apply mul_zero_not_finite]].
    pose proof (single_disk_boundary_zero _ _ _ _ _ _ _ _ H1 HS) as Hz.
    rewrite list_lookup_fmap in Hsi.
    destruct (raw !! si) as [row0|] eqn:E; [|discriminate].
    injection Hsi as <-. rewrite Forall_lookup in Hz.
    rewrite list_lookup_fmap, (Hz _ _ E ri Hri). reflexivity.
  - intros nu cut S_part K_part R_part rad st sq st' row ri HL HLS Hp Hinc Hstep Hri
           N r dN Cs Xk Xi.
    assert (Hpos : pos R_part rad !! ri = Some (N - 1)).
    { rewrite (pos_last R_part rad ri) by (auto; lia). f_equal. subst N. lia. }
    split; [exact Hpos|].
    unfold multi_disk_step in Hstep.
    destruct (py_inverse cut); simpl in Hstep; [|discriminate].
    injection Hstep as <- <-. unfold head_row.
    rewrite lookup_zip_with, Hpos, Hri. simpl.
    subst Cs dN N. rewrite lookup_total_fmap_float; [reflexivity|].
    unfold difsr. rewrite length_fmap, length_zip_with. lia.
Qed.

End Boundary.

Section Singular.
Context `{Numerics}.

Lemma solve_all_single_Raise nu cut_off_prec s rad S_part K_part R_part e :
  length K_part = 1 ->
  solve_all nu cut_off_prec s rad S_part K_part R_part = Raise e ->
  e = LinAlgError.
Proof.
  intros H1. unfold solve_all. rewrite H1. simpl. intros Hr.
  apply for_each_Raise in Hr as (st & x & Hr).
  unfold single_disk_step in Hr.
  destruct (linalg_solve _ _) as [[As Bs]|]; [discriminate|congruence].
Qed.

(** C2 (the defect): with one disk, a system that [numpy.linalg.solve]
    reports singular for some transform variable makes the whole call raise
    [LinAlgError]; the [try]/[except] that substitutes zeros exists only in
    the multi-disk branch. *)
Theorem single_disk_singular_raises s rad S_part K_part R_part dim lat_ext rate
    K_well cut_off_prec kw se :
  resolve_K_well K_part K_well = Ok kw ->
  check_input rad S_part K_part R_part dim lat_ext kw = Ok tt ->
  length K_part = 1 ->
  se ∈ s ->
  singular1 (1 - dim / 2)%float S_part K_part R_part se = true ->
  grf_laplace s rad S_part K_part R_part dim lat_ext rate K_well cut_off_prec
  = Raise LinAlgError.
Proof.
  intros HK HC H1 Hse Hsing. unfold grf_laplace. rewrite HK. simpl.
  rewrite HC. simpl.
  destruct (solve_all _ _ _ _ _ _ _) as [raw|e] eqn:HS; simpl.
  - exfalso. apply list_elem_of_lookup in Hse as [i Hi].
    assert (Hp : 1 <= length K_part) by lia.
    destruct (solve_all_row _ _ _ _ _ _ _ _ i se Hp HS Hi) as (row & Hone & _).
    unfold solve_all in Hone. rewrite H1 in Hone. simpl in Hone.
    unfold single_disk_step in Hone.
    unfold singular1, single_disk_system in Hsing. rewrite pumping_fmap in Hone.
    simpl in Hone. destruct (linalg_solve _ _); discriminate.
  - f_equal. eapply solve_all_single_Raise; eauto.
Qed.

Lemma nan_to_num_zeros n :
  F64.nan_to_num (replicate n F64.zero) = replicate n F64.zero.
Proof. unfold F64.nan_to_num. rewrite fmap_replicate. reflexivity. Qed.

(** The sibling path: with several disks and [first <= 1], a singular 2x2
    system leaves only zeros in the coefficient vector. *)
Lemma multi_disk_singular_zero parts first V Mb X :
  first <= 1 -> 1 <= parts -> length X = 2 * parts ->
  linalg_solve ((get2 Mb 2 0, get2 Mb 1 1), (get2 Mb 3 0, get2 Mb 2 1))
    (V !!! 0, V !!! 1) = None ->
  coeffs_used parts first V Mb X = replicate (2 * parts) F64.zero.
Proof.
  intros Hf Hp HX Hs. unfold coeffs_used, solve_coeffs.
  destruct (Nat.leb_spec first 1); [|lia]. rewrite Hs.
  cbn [snd]. rewrite drop_zero_from by lia. rewrite HX.
  change [F64.zero; F64.zero] with (replicate 2 F64.zero).
  rewrite <- replicate_add, nan_to_num_zeros. f_equal. lia.
Qed.

(** When pentapy answers a singular banded system with NaNs, cleaning
    leaves only zeros as well. *)
Lemma multi_disk_nan_zero parts first V Mb X :
  1 < first -> first <= parts -> length V = 2 * parts -> length X = 2 * parts ->
  (solve_coeffs parts first V Mb X).2
  = replicate (2 * first) nan ++ replicate (2 * parts - 2 * first) F64.zero ->
  coeffs_used parts first V Mb X = replicate (2 * parts) F64.zero.
Proof.
  intros Hf Hfp HV HX Hs. unfold coeffs_used. rewrite Hs.
  unfold F64.nan_to_num. rewrite fmap_app, !fmap_replicate.
  change (F64.nan_to_num1 nan) with F64.zero.
  change (F64.nan_to_num1 F64.zero) with F64.zero.
  rewrite <- replicate_add. f_equal. lia.
Qed.

Lemma mul_zero_r_clean x :
  F64.is_zero (F64.nan_to_num1 (x * F64.zero)%float) = true.
Proof.
  unfold F64.nan_to_num1.
  destruct (is_nan (x * F64.zero)%float) eqn:Hn; [reflexivity|].
  apply not_nan_SF in Hn. rewrite mul_spec in Hn.
  change (Prim2SF F64.zero) with (S754_zero false) in Hn.
  assert (Hz : exists s, Prim2SF (x * F64.zero)%float = S754_zero s).
  { rewrite mul_spec. change (Prim2SF F64.zero) with (S754_zero false).
    destruct (Prim2SF x) as [s|s| |s m e]; cbn in *; eauto; congruence. }
  destruct Hz as [s Hz].
  assert ((x * F64.zero =? infinity)%float = false) as ->.
  { apply not_true_iff_false. rewrite eqb_infinity_SF. congruence. }
  assert ((x * F64.zero =? neg_infinity)%float = false) as ->.
  { apply not_true_iff_false. rewrite eqb_neg_infinity_SF. congruence. }
  unfold F64.is_zero. rewrite FloatAxioms.eqb_spec, Hz. destruct s; reflexivity.
Qed.

Lemma is_zero_mul_finite x scale :
  F64.is_zero x = true -> is_finite scale = true ->
  F64.is_zero (x * scale)%float = true.
Proof.
  unfold F64.is_zero. rewrite !FloatAxioms.eqb_spec, mul_spec.
  change (Prim2SF 0%float) with (S754_zero false).
  intros Hx Hs.
  apply is_finite_SF in Hs as [[s ->]|(s & m & e & ->)];
    destruct (Prim2SF x) as [sx|sx| |sx mx ex]; try discriminate;
    try reflexivity; cbn in Hx; destruct sx; discriminate.
Qed.

(** With zero coefficients and a positive cutoff, every entry of the row is
    zero after cleaning and scaling by a finite factor. *)
Lemma zero_coeffs_row_zero nu cut_off_prec Cs n R_part rad scale v :
  (0 <? cut_off_prec)%float = true -> is_finite scale = true ->
  v ∈ (fun x => (F64.nan_to_num1 x * scale)%float)
        <$> head_row nu cut_off_prec Cs (replicate n F64.zero) (pos R_part rad) rad ->
  F64.is_zero v = true.
Proof.
  intros Hcut Hfin Hv. apply list_elem_of_fmap in Hv as (x & -> & Hx).
  apply is_zero_mul_finite; [|exact Hfin].
  unfold head_row in Hx. apply list_elem_of_lookup in Hx as [i Hi].
  apply lookup_zip_with_Some in Hi as (p & r & -> & _ & _).
  assert (Hz : forall k, replicate n F64.zero !!! k = F64.zero).
  { intros k. rewrite list_lookup_total_alt.
    destruct (replicate n F64.zero !! k) eqn:E; [|reflexivity].
    apply lookup_replicate_1 in E as [-> _]. reflexivity. }
  rewrite !Hz. change (abs F64.zero) with 0%float. rewrite Hcut.
  change (F64.zero + F64.zero)%float with F64.zero.
  apply mul_zero_r_clean.
Qed.

End Singular.

(** The one-disk sample batch [[5; 1e7]] raises: for [s = 1e7] the system
    is singular. *)
Lemma single_disk_singular_raises_witness :
  singular1 (H := Sample.numerics) (1 - 2 / 2)%float Sample.S_part1
    Sample.K_part1 Sample.R_part1 1e7%float = true
  /\ Sample.call1 [5; 1e7]%float = Raise LinAlgError.
Proof.
  split; [reflexivity|].
  apply (single_disk_singular_raises (H := Sample.numerics) [5; 1e7]%float
           Sample.rad1 Sample.S_part1 Sample.K_part1 Sample.R_part1 2 1 (-1)
           None Sample.cut_off_prec 1e-3%float 1e7%float).
  - reflexivity.
  - reflexivity.
  - reflexivity.
  - apply list_elem_of_further, list_elem_of_here.
  - reflexivity.
Defined.

(** On the one-disk sample the entry at the radius [2 = R_1] is zero, and
    on the four-disk sample the radius [30 = R_4] is matched to disk 3. *)
Lemma outer_boundary_radius_witness :
  (exists kw scale,
     resolve_K_well Sample.K_part1 None = Ok kw
     /\ scale_factor (H := Sample.numerics) 2 1 (-1) kw = Ok scale
     /\ (Sample.res1 !!! 0) !! 1 = Some (F64.zero * scale)%float
     /\ (is_finite scale = true -> F64.is_zero (F64.zero * scale)%float = true)
     /\ (is_finite scale = false -> is_nan (F64.zero * scale)%float = true))
  /\ pos Sample.R_part4 Sample.rad4 !! 3 = Some 3.
Proof.
  pose proof (outer_boundary_radius (H := Sample.numerics)) as [Ha Hb].
  split.
  - apply (Ha [5; 10]%float Sample.rad1 Sample.S_part1 Sample.K_part1
              Sample.R_part1 2%float 1%float (-1)%float None Sample.cut_off_prec
              Sample.res1 0 1 (Sample.res1 !!! 0)); reflexivity.
  - destruct (multi_disk_step (H := Sample.numerics) 0 Sample.cut_off_prec
                Sample.S_part4 Sample.K_part4 Sample.R_part4 Sample.rad4
                (init 4) (4%float, 1%float)) as [[st' row]|e] eqn:E.
    + apply (Hb 0%float Sample.cut_off_prec Sample.S_part4 Sample.K_part4
                Sample.R_part4 Sample.rad4 (init 4) (4%float, 1%float) st' row 3
                eq_refl eq_refl ltac:(simpl; lia) eq_refl E eq_refl).
    + vm_compute in E. discriminate.
Defined.

(** C10 as stated fails: the one-disk sample input with the pumping rate
    [-1e308] passes the input check and the call returns, but the scale
    factor overflows to [-inf] and the entry at the radius [2 = R_1] is NaN,
    not zero. *)
Lemma outer_boundary_radius_counterexample :
  check_input Sample.rad1 Sample.S_part1 Sample.K_part1 Sample.R_part1 2 1 1e-3
  = Ok tt
  /\ Sample.rad1 !! 1 = Some (R_last Sample.R_part1)
  /\ scale_factor (H := Sample.numerics) 2 1 (-1e308) 1e-3 = Ok neg_infinity
  /\ exists res row v,
       grf_laplace (H := Sample.numerics) [5; 10]%float Sample.rad1
         Sample.S_part1 Sample.K_part1 Sample.R_part1 2 1 (-1e308) None
         Sample.cut_off_prec = Ok res
       /\ res !! 0 = Some row /\ row !! 1 = Some v
       /\ is_nan v = true /\ F64.is_zero v = false.
Proof.
  split; [reflexivity|]. split; [reflexivity|]. split; [reflexivity|].
  eexists _, _, _. split; [vm_compute; reflexivity|].
  split; [reflexivity|]. split; [reflexivity|]. split; reflexivity.
Qed.

(** * Further properties of [grf_laplace] *)

(** ** What the input check accepts *)

Section Acceptance.
Context `{Numerics}.

Lemma strictly_increasing_lookup R_part :
  strictly_increasing R_part = true ->
  forall i x y, R_part !! i = Some x -> R_part !! S i = Some y ->
  (x <? y)%float = true.
Proof.
  induction R_part as [|a [|b l] IH]; intros Hs i x y Hx Hy.
  - discriminate.
  - destruct i; discriminate.
  - rewrite strictly_increasing_cons in Hs.
    apply andb_true_iff in Hs as [Hab Hs].
    destruct i as [|i]; simpl in Hx, Hy.
    + congruence.
    + eapply IH; eauto.
Qed.

(** Strictly increasing neighbours give strictly increasing pairs. *)
Lemma strictly_increasing_pairs R_part :
  strictly_increasing R_part = true ->
  forall i j x y, i < j -> R_part !! i = Some x -> R_part !! j = Some y ->
  (x <? y)%float = true.
Proof.
  intros Hs i j. induction j as [|j IH]; intros x y Hij Hx Hy; [lia|].
  destruct (decide (i = j)) as [->|Hne].
  - eapply strictly_increasing_lookup; eauto.
  - destruct (lookup_lt_is_Some_2 R_part j) as [z Hz].
    { apply lookup_lt_Some in Hy. lia. }
    eapply ltb_trans; [apply (IH x z); auto; lia|].
    eapply strictly_increasing_lookup; eauto.
Qed.

Lemma forallb_Forall_gtb (l : list float) :
  forallb (fun x => F64.gtb x 0) l = true
  <-> Forall (fun x => (0 <? x)%float = true) l.
Proof.
  rewrite forallb_forall, Forall_forall. unfold F64.gtb.
  split; intros Hl x Hx; apply Hl; apply list_elem_of_In; exact Hx.
Qed.

(** With boundaries that passed the ordering check, the radius check is
    the membership of every radius in [(R_0, R_N]]. *)
Lemma check_rad_in_range rad R_part :
  is_nan (R_last R_part) = false ->
  check_rad rad R_part = Ok tt
  <-> rad <> [] /\ Forall (fun r => in_range R_part r = true) rad.
Proof.
  intros HnL. rewrite check_rad_Ok.
  split; intros [Hne HF]; (split; [exact Hne|]);
    eapply Forall_impl; try exact HF; intros r; simpl;
    rewrite in_range_alt by exact HnL;
    destruct (R_first R_part <? r)%float, (R_last R_part <? r)%float;
    simpl; intuition congruence.
Qed.

Lemma R_last_not_nan (R_part : list float) :
  2 <= length R_part -> strictly_increasing R_part = true ->
  is_nan (R_last R_part) = false.
Proof.
  intros HL Hs.
  assert (Hlt : (R_first R_part <? R_last R_part)%float = true)
    by (apply R_first_lt_last; [lia|exact Hs]).
  apply ltb_not_nan in Hlt. tauto.
Qed.

(** No boundary of a strictly increasing sequence is NaN. *)
Lemma strictly_increasing_not_nan (R_part : list float) :
  2 <= length R_part -> strictly_increasing R_part = true ->
  Forall (fun x => is_nan x = false) R_part.
Proof.
  intros HL Hs. pose proof (strictly_increasing_pairs R_part Hs) as Hpairs.
  apply Forall_lookup. intros i x Hx.
  destruct i as [|i].
  - destruct (lookup_lt_is_Some_2 R_part 1) as [y Hy]; [lia|].
    destruct (ltb_not_nan x y) as [Hn _]; [|exact Hn].
    apply (Hpairs 0 1); auto.
  - destruct (lookup_lt_is_Some_2 R_part 0) as [y Hy]; [lia|].
    destruct (ltb_not_nan y x) as [_ Hn]; [|exact Hn].
    apply (Hpairs 0 (S i)); auto. lia.
Qed.

(** What an accepted input has passed before the sign checks. *)
Lemma check_input_passed rad S_part K_part R_part dim lat_ext kw :
  check_input rad S_part K_part R_part dim lat_ext kw = Ok tt ->
  (length R_part = S (length K_part) /\ length S_part = length K_part
   /\ 1 <= length K_part)
  /\ (R_first R_part <? 0)%float = false
  /\ strictly_increasing R_part = true
  /\ Forall (fun r => in_range R_part r = true) rad.
Proof.
  intros HC. pose proof (check_input_Ok _ _ _ _ _ _ _ HC) as (HL & Hs & Hrad).
  apply lengths_ok_spec in HL. split; [exact HL|]. split; [|split; [exact Hs|]].
  - unfold check_input in HC.
    destruct (lengths_ok _ _ _); simpl in HC; [|discriminate].
    destruct (_ <? _)%float; [discriminate|reflexivity].
  - apply check_rad_in_range in Hrad; [tauto|].
    apply R_last_not_nan; [lia|exact Hs].
Qed.

(** X1: the input check accepts exactly the inputs with matching
    lengths and at least one disk, a well radius that is not negative,
    strictly increasing boundaries, a non-empty array of radii all inside
    [(R_0, R_N]], positive conductivities and storativities, a dimension in
    [(0, 3]], a positive lateral extent and a positive well conductivity. *)
Theorem check_input_accepts rad S_part K_part R_part dim lat_ext kw :
  check_input rad S_part K_part R_part dim lat_ext kw = Ok tt
  <-> (length R_part = S (length K_part) /\ length S_part = length K_part
       /\ 1 <= length K_part)
      /\ (R_first R_part <? 0)%float = false
      /\ strictly_increasing R_part = true
      /\ rad <> []
      /\ Forall (fun r => in_range R_part r = true) rad
      /\ Forall (fun con => (0 <? con)%float = true) K_part
      /\ Forall (fun stor => (0 <? stor)%float = true) S_part
      /\ (0 <? dim)%float = true /\ (3 <? dim)%float = false
      /\ (0 <? lat_ext)%float = true
      /\ (0 <? kw)%float = true.
Proof.
  rewrite <- lengths_ok_spec, <- !forallb_Forall_gtb. unfold check_input.
  destruct (lengths_ok S_part K_part R_part) eqn:HL; simpl;
    [|split; [discriminate|intros [? _]; discriminate]].
  destruct (R_first R_part <? 0)%float eqn:H0;
    [split; [discriminate|intros (_ & ? & _); discriminate]|].
  destruct (strictly_increasing R_part) eqn:Hs; simpl;
    [|split; [discriminate|intros (_ & _ & ? & _); discriminate]].
  apply lengths_ok_spec in HL as HL'.
  assert (Hrad : check_rad rad R_part = Ok tt
                 <-> rad <> [] /\ Forall (fun r => in_range R_part r = true) rad)
    by (apply check_rad_in_range, R_last_not_nan; [lia|exact Hs]).
  destruct (check_rad rad R_part) as [[]|e] eqn:Hc; simpl.
  - destruct (proj1 Hrad eq_refl) as [Hne HF]. unfold F64.gtb.
    destruct (forallb _ K_part); simpl; [|split; [discriminate|intuition discriminate]].
    destruct (forallb _ S_part); simpl; [|split; [discriminate|intuition discriminate]].
    destruct (0 <? dim)%float; simpl; [|split; [discriminate|intuition discriminate]].
    destruct (3 <? dim)%float; simpl; [split; [discriminate|intuition discriminate]|].
    destruct (0 <? lat_ext)%float; simpl; [|split; [discriminate|intuition discriminate]].
    destruct (0 <? kw)%float; simpl; [|split; [discriminate|intuition discriminate]].
    split; [intros _; repeat split; auto|reflexivity].
  - split; [discriminate|]. intros (_ & _ & _ & Hne & HF & _).
    assert (@Raise unit e = Ok tt) by (apply Hrad; auto). discriminate.
Qed.

End Acceptance.

(** ** More on comparisons *)

Section FloatOrderMore.

Ltac sf_split :=
  unfold SFltb, SFleb, SFeqb, SFcompare; simpl;
  repeat match goal with s : bool |- _ => destruct s end;
  simpl; try congruence.

Lemma SFle_lt_trans a b c :
  SFltb b a = false -> a <> S754_nan -> b <> S754_nan ->
  SFltb b c = true -> SFltb a c = true.
Proof.
  destruct a as [sa|sa| |sa ma ea], b as [sb|sb| |sb mb eb],
           c as [sc|sc| |sc mc ec]; try solve [sf_split].
  intros H1 _ _ H2; apply not_true_iff_false in H1; revert H1 H2.
  rewrite !SFltb_finite. destruct sa, sb, sc; try tauto; lia.
Qed.

Lemma le_lt_trans x y z :
  (y <? x)%float = false -> is_nan x = false -> is_nan y = false ->
  (y <? z)%float = true -> (x <? z)%float = true.
Proof. rewrite !FloatAxioms.ltb_spec, !not_nan_SF. apply SFle_lt_trans. Qed.

Lemma ltb_lt_infinity x y :
  (x <? y)%float = true -> (x <? infinity)%float = true.
Proof.
  rewrite !FloatAxioms.ltb_spec.
  change (Prim2SF infinity) with (S754_infinity false).
  destruct (Prim2SF x) as [sx|sx| |sx mx ex],
           (Prim2SF y) as [sy|sy| |sy my ey]; sf_split.
Qed.

Lemma ltb_zero_neq x : (0 <? x)%float = true -> (x =? 0)%float = false.
Proof.
  rewrite FloatAxioms.ltb_spec, FloatAxioms.eqb_spec.
  change (Prim2SF 0%float) with (S754_zero false).
  destruct (Prim2SF x) as [sx|sx| |sx mx ex]; sf_split.
Qed.

Lemma ltb_asym x y : (x <? y)%float = true -> (y <? x)%float = false.
Proof.
  intros Hxy. destruct (y <? x)%float eqn:Hyx; [|reflexivity].
  pose proof (ltb_trans _ _ _ Hxy Hyx) as Hxx.
  rewrite ltb_irrefl in Hxx. discriminate.
Qed.

End FloatOrderMore.

Section AcceptedInput.
Context `{Numerics}.

(** X2: an accepted input has sane geometry: any two boundaries are
    strictly ordered by their indices, no boundary is NaN, the well radius is
    at least zero, every boundary but the last is finite, and every radius is
    strictly positive. *)
Theorem accepted_input_geometry rad S_part K_part R_part dim lat_ext kw :
  check_input rad S_part K_part R_part dim lat_ext kw = Ok tt ->
  (forall i j x y, i < j -> R_part !! i = Some x -> R_part !! j = Some y ->
                   (x <? y)%float = true)
  /\ Forall (fun x => is_nan x = false) R_part
  /\ (0 <=? R_first R_part)%float = true
  /\ (forall i x, i < length K_part -> R_part !! i = Some x ->
                  (x <? infinity)%float = true)
  /\ Forall (fun r => (0 <? r)%float = true) rad.
Proof.
  intros HC. apply check_input_passed in HC
    as ((HLR & HLS & HN) & H0 & Hs & Hrad).
  pose proof (strictly_increasing_pairs R_part Hs) as Hpairs.
  assert (Hnan : Forall (fun x => is_nan x = false) R_part)
    by (apply strictly_increasing_not_nan; [lia|exact Hs]).
  assert (HR0 : R_part !! 0 = Some (R_first R_part)).
  { unfold R_first. apply list_lookup_lookup_total_lt. lia. }
  assert (Hn0 : is_nan (R_first R_part) = false).
  { rewrite Forall_lookup in Hnan. eapply Hnan, HR0. }
  split; [exact Hpairs|]. split; [exact Hnan|]. split; [|split].
  - rewrite leb_ltb; [rewrite H0; reflexivity|reflexivity|exact Hn0].
  - intros i x Hi Hx.
    destruct (lookup_lt_is_Some_2 R_part (S i)) as [y Hy]; [lia|].
    apply (ltb_lt_infinity x y). apply (Hpairs i (S i)); auto.
  - eapply Forall_impl; [exact Hrad|]. intros r Hr. simpl in Hr.
    unfold in_range in Hr. apply andb_true_iff in Hr as [Hr _].
    eapply le_lt_trans; [exact H0| reflexivity | exact Hn0 | exact Hr].
Qed.

End AcceptedInput.

(** The geometry of the four-disk sample input. *)
Lemma accepted_input_geometry_witness :
  check_input Sample.rad4 Sample.S_part4 Sample.K_part4 Sample.R_part4 2 1 1e-3
  = Ok tt
  /\ Forall (fun x => is_nan x = false) Sample.R_part4
  /\ Forall (fun r => (0 <? r)%float = true) Sample.rad4.
Proof.
  assert (HC : check_input Sample.rad4 Sample.S_part4 Sample.K_part4
                 Sample.R_part4 2 1 1e-3 = Ok tt) by reflexivity.
  split; [exact HC|].
  pose proof (accepted_input_geometry _ _ _ _ _ _ _ HC) as (_ & H2 & _ & _ & H5).
  split; [exact H2|exact H5].
Defined.

(** ** The disk of a radius *)

Section DiskLookup.
Context `{Numerics}.

Lemma searchsorted_prefix a v : forall j x,
  j < searchsorted a v -> a !! j = Some x -> (x <? v)%float = true.
Proof.
  induction a as [|y a IH]; intros j x Hj Hx; simpl in Hj; [lia|].
  destruct (y <? v)%float eqn:E; [|lia].
  destruct j as [|j]; simpl in Hx; [congruence|].
  apply (IH j); [lia|exact Hx].
Qed.

Lemma searchsorted_stop a v x :
  a !! searchsorted a v = Some x -> (x <? v)%float = false.
Proof.
  induction a as [|y a IH]; simpl; [discriminate|].
  destruct (y <? v)%float eqn:E; simpl; [exact IH|congruence].
Qed.

(** X3: every radius of an accepted input is matched to exactly one
    disk: [pos] is below the number of disks, the radius lies in
    [(R_pos, R_{pos+1}]], and no other disk contains it. *)
Theorem disk_of_radius rad S_part K_part R_part dim lat_ext kw ri r :
  check_input rad S_part K_part R_part dim lat_ext kw = Ok tt ->
  rad !! ri = Some r ->
  exists p,
    pos R_part rad !! ri = Some p
    /\ p < length K_part
    /\ (exists lo hi, R_part !! p = Some lo /\ R_part !! S p = Some hi
                      /\ (lo <? r)%float = true /\ (r <=? hi)%float = true)
    /\ (forall q lo hi,
          R_part !! q = Some lo -> R_part !! S q = Some hi ->
          (lo <? r)%float = true -> (r <=? hi)%float = true -> q = p).
Proof.
  intros HC Hri.
  pose proof (check_input_Ok _ _ _ _ _ _ _ HC) as (HL & Hs & Hrad).
  apply lengths_ok_spec in HL as (HLR & _ & HN).
  pose proof (strictly_increasing_pairs R_part Hs) as Hpairs.
  assert (Hnan : Forall (fun x => is_nan x = false) R_part)
    by (apply strictly_increasing_not_nan; [lia|exact Hs]).
  assert (Hne : R_part <> []) by (destruct R_part; [simpl in HLR; lia|discriminate]).
  assert (Hr : r ∈ rad) by (eapply list_elem_of_lookup_2, Hri).
  pose proof (searchsorted_bounds rad R_part r Hrad Hne Hr) as [Hlo Hhi].
  assert (Hrn : is_nan r = false).
  { apply check_rad_Ok in Hrad as [_ HF]. rewrite Forall_forall in HF.
    destruct (HF r Hr) as [H1 _]. apply ltb_not_nan in H1. tauto. }
  set (ss := searchsorted R_part r) in *.
  destruct (lookup_lt_is_Some_2 R_part (ss - 1)) as [lo Hlo']; [lia|].
  destruct (lookup_lt_is_Some_2 R_part ss) as [hi Hhi']; [lia|].
  assert (Hleb : forall x, x ∈ R_part ->
                   (r <=? x)%float = negb (x <? r)%float).
  { intros x Hx. apply leb_ltb; [exact Hrn|].
    rewrite Forall_forall in Hnan. apply Hnan, Hx. }
  exists (ss - 1). split; [|split; [lia|split]].
  - unfold pos. rewrite list_lookup_fmap, Hri. reflexivity.
  - exists lo, hi. replace (S (ss - 1)) with ss by lia.
    split; [exact Hlo'|]. split; [exact Hhi'|]. split.
    + apply (searchsorted_prefix R_part r (ss - 1)); [fold ss; lia|exact Hlo'].
    + rewrite Hleb by (eapply list_elem_of_lookup_2, Hhi').
      subst ss. rewrite (searchsorted_stop _ _ _ Hhi'). reflexivity.
  - intros q lo' hi' Hq HSq Hlt Hle.
    rewrite Hleb in Hle by (eapply list_elem_of_lookup_2, HSq).
    apply negb_true_iff in Hle.
    destruct (Nat.lt_trichotomy q (ss - 1)) as [Hlt'|[->|Hgt]]; [|reflexivity|];
      exfalso.
    + assert ((hi' <? r)%float = true); [|congruence].
      apply (searchsorted_prefix R_part r (S q)); [fold ss; lia|exact HSq].
    + pose proof (searchsorted_stop R_part r hi Hhi') as Hstop.
      destruct (decide (q = ss)) as [->|Hne'].
      * congruence.
      * assert ((hi <? lo')%float = true)
          by (apply (Hpairs ss q); auto; lia).
        rewrite (ltb_trans hi lo' r) in Hstop by assumption. discriminate.
Qed.

End DiskLookup.

(** On the four-disk sample the radius 15 belongs to disk 2, between the
    boundaries 10 and 20. *)
Lemma disk_of_radius_witness :
  exists p,
    pos Sample.R_part4 Sample.rad4 !! 2 = Some p
    /\ p < 4
    /\ (exists lo hi, Sample.R_part4 !! p = Some lo /\ Sample.R_part4 !! S p = Some hi
                      /\ (lo <? 15)%float = true /\ (15 <=? hi)%float = true)
    /\ (forall q lo hi,
          Sample.R_part4 !! q = Some lo -> Sample.R_part4 !! S q = Some hi ->
          (lo <? 15)%float = true -> (15 <=? hi)%float = true -> q = p).
Proof.
  apply (disk_of_radius Sample.rad4 Sample.S_part4
           Sample.K_part4 Sample.R_part4 2 1 1e-3 2 15%float); reflexivity.
Defined.

(** ** Which exceptions the call raises, and when *)

Section RaisingLoops.
Context {St A B : Type} (body : St -> A -> result (St * B)).
Context (I : St -> Prop).
Hypothesis body_inv :
  forall st x st' row, I st -> body st x = Ok (st', row) -> I st'.

(** The iteration that raises starts from workspaces that satisfy the
    invariant. *)
Lemma for_each_Raise_inv l : forall st e,
  I st -> for_each body st l = Raise e ->
  exists st' x, I st' /\ x ∈ l /\ body st' x = Raise e.
Proof using body_inv.
  induction l as [|y l IH]; intros st e Hst; simpl; [discriminate|].
  destruct (body st y) as [[st' row]|e'] eqn:Hb.
  - destruct (for_each body st' l) eqn:Hl; [discriminate|].
    intros [= ->].
    destruct (IH st' e) as (st1 & x & H1 & Hx & Hr); auto.
    + eapply body_inv; eauto.
    + exists st1, x. split; [exact H1|]. split; [right; exact Hx|exact Hr].
  - intros [= ->]. exists st, y. split; [exact Hst|]. split; [left|exact Hb].
Qed.

End RaisingLoops.

Section Exceptions.
Context `{Numerics}.

Lemma check_input_Raise rad S_part K_part R_part dim lat_ext kw e :
  check_input rad S_part K_part R_part dim lat_ext kw = Raise e ->
  exists m, e = ValueError m.
Proof.
  unfold check_input.
  destruct (lengths_ok _ _ _); simpl; [|intros [= <-]; eauto].
  destruct (_ <? _)%float; [intros [= <-]; eauto|].
  destruct (strictly_increasing _); simpl; [|intros [= <-]; eauto].
  destruct (check_rad_cases rad R_part) as [Hc|[[_ Hc]|[_ Hc]]]; rewrite Hc; simpl;
    [|intros [= <-]; eauto|intros [= <-]; eauto].
  destruct (forallb _ K_part); simpl; [|intros [= <-]; eauto].
  destruct (forallb _ S_part); simpl; [|intros [= <-]; eauto].
  destruct (negb (F64.gtb dim 0) || F64.gtb dim 3); [intros [= <-]; eauto|].
  destruct (F64.gtb lat_ext 0); simpl; [|intros [= <-]; eauto].
  destruct (F64.gtb kw 0); simpl; [discriminate|intros [= <-]; eauto].
Qed.

Lemma solve_all_single_singular nu cut_off_prec s rad S_part K_part R_part e :
  length K_part = 1 ->
  solve_all nu cut_off_prec s rad S_part K_part R_part = Raise e ->
  exists se, se ∈ s /\ singular1 nu S_part K_part R_part se = true.
Proof.
  intros H1. unfold solve_all. rewrite H1. simpl. intros Hr.
  apply (for_each_Raise_inv _ (state1_inv (R_first R_part) (R_last R_part)))
    in Hr as (st & x & Hst & Hx & Hr).
  - apply zip_pumping_elem in Hx as (se & Hse & ->).
    exists se. split; [exact Hse|].
    unfold single_disk_step in Hr. rewrite single_system_state in Hr by exact Hst.
    unfold singular1, single_disk_system. simpl in Hr.
    destruct (linalg_solve _ _) as [[As Bs]|]; [discriminate|reflexivity].
  - intros. eapply single_disk_step_inv; eauto.
  - apply init1_inv.
Qed.

Lemma solve_all_multi_Raise nu cut_off_prec s rad S_part K_part R_part e :
  length K_part <> 1 ->
  solve_all nu cut_off_prec s rad S_part K_part R_part = Raise e ->
  e = ZeroDivisionError /\ s <> [] /\ (cut_off_prec =? 0)%float = true.
Proof.
  intros H1. unfold solve_all.
  destruct (Nat.eqb_spec (length K_part) 1); [congruence|]. intros Hr.
  assert (Hs : s <> []).
  { intros ->. unfold pumping in Hr. destruct (F64.gtb _ _); discriminate. }
  apply for_each_Raise in Hr as (st & x & Hr).
  unfold multi_disk_step, py_inverse in Hr.
  destruct (cut_off_prec =? 0)%float; [|discriminate].
  simpl in Hr. injection Hr as <-. auto.
Qed.

(** X4: every way in which the call can fail.  [IndexError] only for an
    empty [K_part] without [K_well]; a [ValueError] only from the input
    check, before anything is solved; after an accepted input check only
    [LinAlgError] (one disk, some singular system), [ZeroDivisionError]
    (several disks, a non-empty [s] and a zero cutoff) or [OverflowError]
    (the power of the lateral extent). *)
Theorem grf_laplace_failures s rad S_part K_part R_part dim lat_ext rate K_well
    cut_off_prec e :
  grf_laplace s rad S_part K_part R_part dim lat_ext rate K_well cut_off_prec
  = Raise e ->
  (K_part = [] /\ K_well = None /\ e = IndexError)
  \/ (exists kw m,
        resolve_K_well K_part K_well = Ok kw
        /\ check_input rad S_part K_part R_part dim lat_ext kw
           = Raise (ValueError m)
        /\ e = ValueError m)
  \/ (exists kw,
        resolve_K_well K_part K_well = Ok kw
        /\ check_input rad S_part K_part R_part dim lat_ext kw = Ok tt
        /\ ((e = LinAlgError /\ length K_part = 1
             /\ exists se, se ∈ s
                  /\ singular1 (1 - dim / 2)%float S_part K_part R_part se = true)
            \/ (e = ZeroDivisionError /\ 2 <= length K_part /\ s <> []
                /\ (cut_off_prec =? 0)%float = true)
            \/ (e = OverflowError /\ py_pow lat_ext (3 - dim)%float = None))).
Proof.
  unfold grf_laplace.
  destruct (resolve_K_well K_part K_well) as [kw|e0] eqn:HK; simpl.
  - destruct (check_input _ _ _ _ _ _ _) as [[]|e1] eqn:HC; simpl.
    + intros Hr. right. right. exists kw.
      split; [first [reflexivity|exact HK]|].
      split; [first [reflexivity|exact HC]|].
      pose proof (check_input_Ok _ _ _ _ _ _ _ HC) as (HL & _ & _).
      apply lengths_ok_spec in HL as (_ & _ & HN).
      destruct (solve_all _ _ _ _ _ _ _) as [raw|e2] eqn:HS; simpl in Hr.
      * right. right. unfold scale_factor in Hr.
        destruct (py_pow _ _); simpl in Hr; [discriminate|].
        injection Hr as <-. auto.
      * injection Hr as <-.
        destruct (decide (length K_part = 1)) as [H1|H1].
        -- left. split; [eapply solve_all_single_Raise; eauto|].
           split; [exact H1|]. eapply solve_all_single_singular; eauto.
        -- right. left.
           destruct (solve_all_multi_Raise _ _ _ _ _ _ _ _ H1 HS) as (-> & Hs & Hc).
           repeat split; auto. lia.
    + intros [= <-]. right. left.
      destruct (check_input_Raise _ _ _ _ _ _ _ _ HC) as [m ->].
      exists kw, m. auto.
  - intros [= <-]. left. unfold resolve_K_well in HK.
    destruct K_well; [discriminate|]. destruct K_part; [|discriminate].
    injection HK as <-. auto.
Qed.

(** X5: [cut_off_prec] matters only with several disks.  With one disk
    the call does not depend on it; with several disks, an accepted input, a
    non-empty [s] and a zero cutoff, [1 / cut_off_prec] raises
    [ZeroDivisionError]. *)
Theorem cut_off_prec_use s rad S_part K_part R_part dim lat_ext rate K_well :
  (forall cut cut', length K_part = 1 ->
     grf_laplace s rad S_part K_part R_part dim lat_ext rate K_well cut
     = grf_laplace s rad S_part K_part R_part dim lat_ext rate K_well cut')
  /\ (forall cut kw,
        resolve_K_well K_part K_well = Ok kw ->
        check_input rad S_part K_part R_part dim lat_ext kw = Ok tt ->
        length K_part <> 1 -> s <> [] -> (cut =? 0)%float = true ->
        grf_laplace s rad S_part K_part R_part dim lat_ext rate K_well cut
        = Raise ZeroDivisionError).
Proof.
  split.
  - intros cut cut' H1. unfold grf_laplace, solve_all. rewrite H1. reflexivity.
  - intros cut kw HK HC H1 Hs Hc. unfold grf_laplace. rewrite HK. simpl.
    rewrite HC. simpl. unfold solve_all.
    destruct (Nat.eqb_spec (length K_part) 1); [congruence|].
    destruct s as [|se s]; [congruence|]. rewrite pumping_fmap. simpl.
    unfold multi_disk_step, py_inverse. rewrite Hc. reflexivity.
Qed.

(** X6: with an empty [s] an accepted input gives an empty matrix,
    unless [lat_ext ** (3 - dim)] overflows: the scale factor is computed
    for an empty [s] too, and the call then raises [OverflowError].  An empty
    [rad] gives NumPy's [ValueError] for the minimum of an empty array (not
    an empty matrix). *)
Theorem grf_laplace_empty_inputs S_part K_part R_part dim lat_ext rate K_well
    cut_off_prec kw :
  resolve_K_well K_part K_well = Ok kw ->
  (forall rad,
     check_input rad S_part K_part R_part dim lat_ext kw = Ok tt ->
     grf_laplace [] rad S_part K_part R_part dim lat_ext rate K_well cut_off_prec
     = match py_pow lat_ext (3 - dim)%float with
       | Some _ => Ok []
       | None => Raise OverflowError
       end)
  /\ (forall s,
        lengths_ok S_part K_part R_part = true ->
        (R_first R_part <? 0)%float = false ->
        strictly_increasing R_part = true ->
        grf_laplace s [] S_part K_part R_part dim lat_ext rate K_well cut_off_prec
        = Raise (ValueError msg_empty_reduction)).
Proof.
  intros HK. split.
  - intros rad HC. unfold grf_laplace. rewrite HK. simpl. rewrite HC. simpl.
    unfold solve_all. rewrite pumping_fmap. simpl.
    destruct (length K_part =? 1); simpl; unfold scale_factor;
      destruct (py_pow _ _); reflexivity.
  - intros s HL H0 Hs. unfold grf_laplace. rewrite HK. simpl.
    unfold check_input. rewrite HL, H0, Hs. reflexivity.
Qed.

End Exceptions.

(** The one-disk sample batch with a singular system fails with
    [LinAlgError], in the way the theorem describes. *)
Lemma grf_laplace_failures_witness :
  Sample.call1 [5; 1e7]%float = Raise LinAlgError
  /\ ((Sample.K_part1 = [] /\ @None float = None /\ LinAlgError = IndexError)
      \/ (exists kw m,
            resolve_K_well Sample.K_part1 None = Ok kw
            /\ check_input Sample.rad1 Sample.S_part1 Sample.K_part1
                 Sample.R_part1 2 1 kw = Raise (ValueError m)
            /\ LinAlgError = ValueError m)
      \/ (exists kw,
            resolve_K_well Sample.K_part1 None = Ok kw
            /\ check_input Sample.rad1 Sample.S_part1 Sample.K_part1
                 Sample.R_part1 2 1 kw = Ok tt
            /\ ((LinAlgError = LinAlgError /\ length Sample.K_part1 = 1
                 /\ exists se, se ∈ [5; 1e7]%float
                      /\ singular1 (H := Sample.numerics) (1 - 2 / 2)%float
                           Sample.S_part1 Sample.K_part1 Sample.R_part1 se = true)
                \/ (LinAlgError = ZeroDivisionError /\ 2 <= length Sample.K_part1
                    /\ [5; 1e7]%float <> []
                    /\ (Sample.cut_off_prec =? 0)%float = true)
                \/ (LinAlgError = OverflowError
                    /\ py_pow (Numerics := Sample.numerics) 1 (3 - 2)%float = None)))).
Proof.
  assert (Hr : Sample.call1 [5; 1e7]%float = Raise LinAlgError) by reflexivity.
  split; [exact Hr|].
  exact (grf_laplace_failures (H := Sample.numerics) _ _ _ _ _ _ _ _ _ _ _ Hr).
Defined.

(** The two-disk sample input with a zero cutoff. *)
Lemma cut_off_prec_use_witness :
  grf_laplace (H := Sample.numerics) [Sample.se] Sample.rad Sample.S_part
    Sample.K_part Sample.R_part 2 1 (-1) None 0
  = Raise ZeroDivisionError
  /\ grf_laplace (H := Sample.numerics) [5; 10]%float Sample.rad1 Sample.S_part1
       Sample.K_part1 Sample.R_part1 2 1 (-1) None 0
     = Sample.call1 [5; 10]%float.
Proof.
  pose proof (cut_off_prec_use (H := Sample.numerics) [Sample.se] Sample.rad
                Sample.S_part Sample.K_part Sample.R_part 2 1 (-1) None)
    as [_ H2].
  pose proof (cut_off_prec_use (H := Sample.numerics) [5; 10]%float Sample.rad1
                Sample.S_part1 Sample.K_part1 Sample.R_part1 2 1 (-1) None)
    as [H1 _].
  split.
  - apply (H2 0%float 1e-3%float); try reflexivity; discriminate.
  - apply (H1 0%float Sample.cut_off_prec). reflexivity.
Defined.

(** The two-disk sample input without transform variables, and without
    radii. *)
Lemma grf_laplace_empty_inputs_witness :
  grf_laplace (H := Sample.numerics) [] Sample.rad Sample.S_part Sample.K_part
    Sample.R_part 2 1 (-1) None Sample.cut_off_prec = Ok []
  /\ grf_laplace (H := Sample.numerics) [Sample.se] [] Sample.S_part Sample.K_part
       Sample.R_part 2 1 (-1) None Sample.cut_off_prec
     = Raise (ValueError msg_empty_reduction).
Proof.
  pose proof (grf_laplace_empty_inputs (H := Sample.numerics) Sample.S_part
                Sample.K_part Sample.R_part 2 1 (-1) None Sample.cut_off_prec
                1e-3%float eq_refl) as [H1 H2].
  split.
  - apply (H1 Sample.rad). reflexivity.
  - apply (H2 [Sample.se]); reflexivity.
Defined.

(** ** Identical disks against one disk *)

Section IdenticalDisks.
Context `{Numerics}.

Lemma forallb_replicate {A : Type} (f : A -> bool) n x :
  f x = true -> forallb f (replicate n x) = true.
Proof. intros Hx. induction n as [|n IH]; simpl; [reflexivity|]. rewrite Hx, IH. reflexivity. Qed.

(** The input check only reads the first and the last boundary, besides
    the order of the boundaries: an input accepted with one disk is accepted
    with that disk cut into [n] identical ones. *)
Lemma check_input_identical_disks rad stor con R_part n dim lat_ext kw :
  check_input rad [stor] [con] [R_first R_part; R_last R_part] dim lat_ext kw = Ok tt ->
  1 <= n -> length R_part = S n -> strictly_increasing R_part = true ->
  check_input rad (replicate n stor) (replicate n con) R_part dim lat_ext kw = Ok tt.
Proof.
  intros HC Hn HL Hinc. unfold check_input in *.
  assert (HLo : lengths_ok (replicate n stor) (replicate n con) R_part = true)
    by (apply lengths_ok_spec; rewrite !length_replicate; lia).
  rewrite HLo, Hinc.
  change (lengths_ok [stor] [con] [R_first R_part; R_last R_part]) with true in HC.
  change (R_first [R_first R_part; R_last R_part]) with (R_first R_part) in HC.
  cbn [negb] in *.
  destruct (R_first R_part <? 0)%float; [discriminate|].
  destruct (strictly_increasing [_; _]); cbn [negb] in HC; [|discriminate].
  assert (Hrad : check_rad rad R_part
                 = check_rad rad [R_first R_part; R_last R_part]) by reflexivity.
  rewrite Hrad.
  destruct (check_rad rad [_; _]) as [[]|]; cbn [bind] in *; [|discriminate].
  destruct (forallb _ [con]) eqn:HKp; cbn [negb] in HC; [|discriminate].
  destruct (forallb _ [stor]) eqn:HSp; cbn [negb] in HC; [|discriminate].
  simpl in HKp, HSp. rewrite andb_true_r in HKp, HSp.
  rewrite !forallb_replicate by assumption. exact HC.
Qed.

(** C5 (the defect): identical disks do not collapse to one disk.  Where
    the single-disk system of some [s_i] is singular the call with one disk
    raises [LinAlgError], while the call with the same aquifer cut into
    [n >= 2] identical disks along any strictly increasing boundaries (with a
    non-zero cutoff and no overflow of the scale factor) returns a matrix of
    shape [len(s), len(rad)]. *)
Theorem identical_disks_diverge s rad stor con R_part n dim lat_ext rate K_well
    cut_off_prec kw se :
  resolve_K_well [con] K_well = Ok kw ->
  check_input rad [stor] [con] [R_first R_part; R_last R_part] dim lat_ext kw = Ok tt ->
  2 <= n -> length R_part = S n -> strictly_increasing R_part = true ->
  se ∈ s ->
  singular1 (1 - dim / 2)%float [stor] [con] [R_first R_part; R_last R_part] se = true ->
  (cut_off_prec =? 0)%float = false ->
  py_pow lat_ext (3 - dim)%float <> None ->
  grf_laplace s rad [stor] [con] [R_first R_part; R_last R_part] dim lat_ext rate
    K_well cut_off_prec = Raise LinAlgError
  /\ exists res,
       grf_laplace s rad (replicate n stor) (replicate n con) R_part dim lat_ext rate
         K_well cut_off_prec = Ok res
       /\ length res = length s
       /\ Forall (fun row => length row = length rad) res.
Proof.
  intros HK HC Hn HL Hinc Hse Hsing Hcut Hp. split.
  - unfold grf_laplace. rewrite HK. simpl. rewrite HC. simpl.
    destruct (solve_all _ _ _ _ _ _ _) as [raw|e] eqn:HS; simpl.
    + exfalso. apply list_elem_of_lookup in Hse as [i Hi].
      assert (Hone1 : 1 <= length [con]) by (simpl; lia).
      destruct (solve_all_row _ _ _ _ _ _ _ _ i se Hone1 HS Hi)
        as (row & Hone & _).
      unfold solve_all in Hone. simpl in Hone.
      unfold single_disk_step in Hone.
      unfold singular1, single_disk_system in Hsing.
      rewrite pumping_fmap in Hone. simpl in Hone.
      destruct (linalg_solve _ _); discriminate.
    + f_equal. eapply solve_all_single_Raise; [|exact HS]. reflexivity.
  - assert (HK' : resolve_K_well (replicate n con) K_well = Ok kw).
    { destruct n as [|n']; [lia|]. destruct K_well; exact HK. }
    assert (HC' : check_input rad (replicate n stor) (replicate n con) R_part
                    dim lat_ext kw = Ok tt)
      by (apply check_input_identical_disks; auto; lia).
    assert (Hlen : length (replicate n con) = n) by apply length_replicate.
    destruct (solve_all_returns (1 - dim / 2)%float cut_off_prec s rad
                (replicate n stor) (replicate n con) R_part) as [raw Hraw].
    { rewrite Hlen. lia. }
    { rewrite Hlen. intros ->. lia. }
    { right. right. exact Hcut. }
    pose proof (solve_all_shape _ _ _ _ _ _ _ _ Hraw) as [Hl Hrows].
    unfold grf_laplace. rewrite HK'. simpl. rewrite HC'. simpl.
    rewrite Hraw. simpl. unfold scale_factor.
    destruct (py_pow _ _); [|congruence]. simpl. eexists. split; [reflexivity|].
    split; [rewrite !length_fmap; exact Hl|].
    apply Forall_fmap, Forall_fmap. eapply Forall_impl; [exact Hrows|].
    intros row Hr. simpl. unfold F64.nan_to_num. rewrite !length_fmap. exact Hr.
Qed.

End IdenticalDisks.

(** The aquifer of the two-disk sample, whose two disks are identical, for
    [s = 1e7]: as one disk between the radii 1 and 3 the call raises, as two
    disks it returns zeros. *)
Lemma identical_disks_diverge_witness :
  grf_laplace (H := Sample.numerics) [1e7]%float Sample.rad [1e-3]%float
    [1e-3]%float [1; 3]%float 2 1 (-1) None Sample.cut_off_prec
  = Raise LinAlgError
  /\ (exists res,
        grf_laplace (H := Sample.numerics) [1e7]%float Sample.rad
          (replicate 2 1e-3%float) (replicate 2 1e-3%float) Sample.R_part
          2 1 (-1) None Sample.cut_off_prec = Ok res
        /\ length res = 1
        /\ Forall (fun row => length row = 2) res)
  /\ grf_laplace (H := Sample.numerics) [1e7]%float Sample.rad Sample.S_part
       Sample.K_part Sample.R_part 2 1 (-1) None Sample.cut_off_prec
     = Ok [[(-0)%float; (-0)%float]].
Proof.
  pose proof (identical_disks_diverge (H := Sample.numerics) [1e7]%float
                Sample.rad 1e-3%float 1e-3%float Sample.R_part 2 2 1 (-1) None
                Sample.cut_off_prec 1e-3%float 1e7%float) as Hd.
  destruct Hd as [H1 H2]; try reflexivity; try discriminate.
  - apply list_elem_of_here.
  - split; [exact H1|]. split; [exact H2|reflexivity].
Defined.

(** ** Rows of the multi-disk result *)

Section MultiDiskRows.
Context `{Numerics}.

Lemma multi_disk_step_init nu cut_off_prec S_part K_part R_part rad se :
  (cut_off_prec =? 0)%float = false ->
  let S0 := S_part !!! 0 in
  let K0 := K_part !!! 0 in
  let q := pump1 nu (sqrt (S0 / K0)%float) (R_first R_part) se in
  row_of (multi_disk_step nu cut_off_prec S_part K_part R_part rad
            (init (length K_part)) (se, q))
  = Ok (head_row nu cut_off_prec
          (fmap (fun d => (sqrt se * d)%float) (difsr S_part K_part))
          (multi_disk_coeffs nu cut_off_prec S_part K_part R_part se)
          (pos R_part rad) rad).
Proof.
  intros Hc S0 K0 q. unfold multi_disk_step, py_inverse. rewrite Hc. reflexivity.
Qed.

(** Row [i] of the multi-disk loop, before cleaning and scaling. *)
Lemma solve_all_multi_row nu cut_off_prec s rad S_part K_part R_part raw i se :
  1 <= length K_part -> length K_part <> 1 ->
  solve_all nu cut_off_prec s rad S_part K_part R_part = Ok raw ->
  s !! i = Some se ->
  (cut_off_prec =? 0)%float = false
  /\ raw !! i
     = Some (head_row nu cut_off_prec
               (fmap (fun d => (sqrt se * d)%float) (difsr S_part K_part))
               (multi_disk_coeffs nu cut_off_prec S_part K_part R_part se)
               (pos R_part rad) rad).
Proof.
  intros Hp H1 HS Hi.
  destruct (solve_all_row _ _ _ _ _ _ _ _ i se Hp HS Hi) as (row & Hone & Hrow).
  unfold solve_all in Hone.
  destruct (Nat.eqb_spec (length K_part) 1); [congruence|].
  rewrite pumping_fmap in Hone.
  change (zip [se] (pump1 nu (sqrt (S_part !!! 0 / K_part !!! 0)%float)
                      (R_first R_part) <$> [se]))
    with [(se, pump1 nu (sqrt (S_part !!! 0 / K_part !!! 0)%float)
                 (R_first R_part) se)]
    in Hone.
  destruct (cut_off_prec =? 0)%float eqn:Hc.
  { exfalso. simpl in Hone. unfold multi_disk_step, py_inverse in Hone.
    rewrite Hc in Hone. discriminate. }
  split; [reflexivity|].
  pose proof (multi_disk_step_init nu cut_off_prec S_part K_part
                R_part rad se Hc) as Hstep.
  cbv zeta in Hstep. simpl in Hone.
  destruct (multi_disk_step _ _ _ _ _ _ _ _) as [[st' row']|]; [|discriminate].
  simpl in Hstep. injection Hstep as Hstep. injection Hone as ->.
  rewrite Hrow, Hstep. reflexivity.
Qed.

Lemma difsr_lookup S_part K_part p :
  p < length S_part -> p < length K_part ->
  difsr S_part K_part !!! p = sqrt (S_part !!! p / K_part !!! p).
Proof.
  intros HS HK. unfold difsr.
  rewrite lookup_total_fmap_float by (rewrite length_zip_with; lia).
  f_equal. rewrite !list_lookup_total_alt, lookup_zip_with.
  destruct (S_part !! p) eqn:ES; [|apply lookup_ge_None in ES; lia].
  destruct (K_part !! p) eqn:EK; [|apply lookup_ge_None in EK; lia].
  reflexivity.
Qed.

(** X7: with several disks, the entry of the result for [s_i] and the
    radius [r_j] of disk [p] is
    [r ** nu * (X[2p] * K_nu(C_p * r) + X[2p+1] * I_nu(C_p * r))] with
    [C_p = sqrt(s_i) * sqrt(S_p / K_p)] and each product replaced by zero
    where the coefficient is below the cutoff in absolute value, cleaned by
    [nan_to_num] and scaled; [X] are the cleaned coefficients of the system
    built for [s_i] in fresh workspaces. *)
Theorem multi_disk_row s rad S_part K_part R_part dim lat_ext rate K_well
    cut_off_prec res i j se r :
  grf_laplace s rad S_part K_part R_part dim lat_ext rate K_well cut_off_prec
  = Ok res ->
  length K_part <> 1 -> s !! i = Some se -> rad !! j = Some r ->
  let nu := (1 - dim / 2)%float in
  let X := multi_disk_coeffs nu cut_off_prec S_part K_part R_part se in
  let p := searchsorted R_part r - 1 in
  let Sp := S_part !!! p in
  let Kp := K_part !!! p in
  let Xk := X !!! (2 * p) in
  let Xi := X !!! (2 * p + 1) in
  let Cp := (sqrt se * sqrt (Sp / Kp))%float in
  let k0_sub := (if abs Xk <? cut_off_prec then 0 else Xk * kv nu (Cp * r))%float in
  let i0_sub := (if abs Xi <? cut_off_prec then 0 else Xi * iv nu (Cp * r))%float in
  exists kw scale row,
    resolve_K_well K_part K_well = Ok kw
    /\ scale_factor dim lat_ext rate kw = Ok scale
    /\ (cut_off_prec =? 0)%float = false
    /\ p < length K_part
    /\ res !! i = Some row
    /\ row !! j
       = Some (F64.nan_to_num1 (np_pow r nu * (k0_sub + i0_sub)) * scale)%float.
Proof.
  intros Hrun H1 Hi Hj nu X p Sp Kp Xk Xi Cp k0_sub i0_sub.
  apply grf_laplace_Ok in Hrun as (kw & raw & scale & HK & HC & HS & HF & ->).
  pose proof (check_input_Ok _ _ _ _ _ _ _ HC) as (HL & _ & Hrad).
  apply lengths_ok_spec in HL as (HLR & HLS & Hp).
  destruct (solve_all_multi_row _ _ _ _ _ _ _ _ i se Hp H1 HS Hi) as [Hc Hrow].
  assert (Hne : R_part <> [])
    by (destruct R_part; [simpl in HLR; lia|discriminate]).
  assert (Hr : r ∈ rad) by (eapply list_elem_of_lookup_2, Hj).
  pose proof (searchsorted_bounds rad R_part r Hrad Hne Hr) as Hss.
  assert (Hlt : p < length K_part) by (subst p; lia).
  eexists kw, scale, _. split; [exact HK|]. split; [exact HF|].
  split; [exact Hc|]. split; [exact Hlt|].
  split; [rewrite list_lookup_fmap, Hrow; reflexivity|].
  rewrite list_lookup_fmap. unfold head_row, pos.
  rewrite lookup_zip_with, list_lookup_fmap, Hj. cbn [fmap option_fmap option_map mbind option_bind].
  fold p. fold nu. do 3 f_equal.
  rewrite lookup_total_fmap_float
    by (unfold difsr; rewrite length_fmap, length_zip_with; lia).
  rewrite difsr_lookup by lia. reflexivity.
Qed.

(** X8: degrade to zero.  With several disks, a positive cutoff and a
    finite scale factor, row [i] of the result is zero in every entry when
    the guard leaves only the innermost 2x2 block for [s_i] and
    [numpy.linalg.solve] reports it singular, and also when pentapy answers
    the banded system of [s_i] with NaNs only. *)
Theorem multi_disk_degrades_to_zero s rad S_part K_part R_part dim lat_ext rate
    K_well cut_off_prec res i se row kw scale :
  grf_laplace s rad S_part K_part R_part dim lat_ext rate K_well cut_off_prec
  = Ok res ->
  length K_part <> 1 -> s !! i = Some se -> res !! i = Some row ->
  (0 <? cut_off_prec)%float = true ->
  resolve_K_well K_part K_well = Ok kw ->
  scale_factor dim lat_ext rate kw = Ok scale -> is_finite scale = true ->
  let nu := (1 - dim / 2)%float in
  let VM := multi_disk_system nu S_part K_part R_part se in
  let first := multi_disk_first nu cut_off_prec S_part K_part R_part se in
  (first <= 1
   /\ linalg_solve ((get2 VM.2 2 0, get2 VM.2 1 1), (get2 VM.2 3 0, get2 VM.2 2 1))
        (VM.1 !!! 0, VM.1 !!! 1) = None)
  \/ (1 < first
      /\ penta_solve (penta_input (length K_part) first VM.1 VM.2
                        (init (length K_part)).2)
           (take (2 * first) VM.1)
         = replicate (2 * first) nan) ->
  Forall (fun v => F64.is_zero v = true) row.
Proof.
  intros Hrun H1 Hi Hrow Hcut HK HF Hfin nu VM first Hdeg. subst nu.
  set (nu := (1 - dim / 2)%float) in *.
  apply grf_laplace_Ok in Hrun
    as (kw' & raw & scale' & HK' & HC & HS & HF' & ->).
  assert (kw' = kw) as -> by congruence.
  assert (scale' = scale) as -> by congruence.
  pose proof (check_input_Ok _ _ _ _ _ _ _ HC) as (HL & _ & _).
  apply lengths_ok_spec in HL as (_ & _ & Hp).
  destruct (solve_all_multi_row _ _ _ _ _ _ _ _ i se Hp H1 HS Hi) as [_ Hraw].
  rewrite list_lookup_fmap, Hraw in Hrow. injection Hrow as <-.
  assert (HVM : mat_shape 5 (2 * length K_part) VM.2).
  { subst VM. unfold multi_disk_system. cbn [snd].
    rewrite assemble_as_writes. apply apply_writes_shape, init_shape. }
  assert (HV : length VM.1 = 2 * length K_part).
  { subst VM. unfold multi_disk_system. cbn [fst].
    rewrite length_insert. apply length_replicate. }
  assert (HX : length (init (length K_part)).2 = 2 * length K_part)
    by apply length_replicate.
  assert (Hzero : multi_disk_coeffs nu cut_off_prec S_part K_part R_part se
                  = replicate (2 * length K_part) F64.zero).
  { unfold multi_disk_coeffs. fold VM. fold nu. fold first.
    destruct Hdeg as [[Hf Hs]|[Hf Hs]].
    - apply multi_disk_singular_zero; auto.
    - pose proof (find_first_le 4 cut_off_prec (1 / cut_off_prec)%float
                    (length K_part) VM.2 HVM) as Hle.
      fold VM in Hle. change (find_first _ _ _ _) with first in Hle.
      apply multi_disk_nan_zero; auto.
      unfold penta_input in Hs. unfold solve_coeffs in *.
      destruct (Nat.leb_spec first 1); [lia|]. cbn [fst snd] in *.
      rewrite Hs, drop_zero_from by lia. rewrite HX. reflexivity. }
  fold nu. rewrite Hzero. apply Forall_forall. intros v Hv.
  eapply zero_coeffs_row_zero; eauto.
Qed.

End MultiDiskRows.

(** The entry of the four-disk sample batch for [s = 0.01] and the radius
    3, in disk 1. *)
Lemma multi_disk_row_witness :
  let X := multi_disk_coeffs (H := Sample.numerics) (1 - 2 / 2)%float
             Sample.cut_off_prec Sample.S_part4 Sample.K_part4 Sample.R_part4
             0.01 in
  let Xk := X !!! 2 in
  let Xi := X !!! 3 in
  let Cp := (sqrt 0.01 * sqrt (1e-3 / 2e-3))%float in
  let k0_sub :=
    (if abs Xk <? Sample.cut_off_prec then 0
     else Xk * kv (Numerics := Sample.numerics) (1 - 2 / 2) (Cp * 3))%float in
  let i0_sub :=
    (if abs Xi <? Sample.cut_off_prec then 0
     else Xi * iv (Numerics := Sample.numerics) (1 - 2 / 2) (Cp * 3))%float in
  exists kw scale row,
    resolve_K_well Sample.K_part4 None = Ok kw
    /\ scale_factor (H := Sample.numerics) 2 1 (-1) kw = Ok scale
    /\ (Sample.cut_off_prec =? 0)%float = false
    /\ 1 < 4
    /\ Sample.res4 !! 1 = Some row
    /\ row !! 1
       = Some (F64.nan_to_num1
                 (np_pow (Numerics := Sample.numerics) 3 (1 - 2 / 2)
                  * (k0_sub + i0_sub)) * scale)%float.
Proof.
  apply (multi_disk_row (H := Sample.numerics) Sample.s4 Sample.rad4
           Sample.S_part4 Sample.K_part4 Sample.R_part4 2 1 (-1) None
           Sample.cut_off_prec Sample.res4 1 1 0.01%float 3%float).
  - reflexivity.
  - discriminate.
  - reflexivity.
  - reflexivity.
Defined.

(** Both ways to an all-zero row: the two-disk sample with a singular
    innermost block, and the four-disk sample with a banded solver that
    answers with NaNs. *)
Lemma multi_disk_degrades_to_zero_witness :
  Forall (fun v => F64.is_zero v = true) (Sample.res_singular !!! 0)
  /\ Forall (fun v => F64.is_zero v = true) (Sample.res4_nan !!! 0).
Proof.
  split.
  - apply (multi_disk_degrades_to_zero (H := Sample.numerics) [1e7%float]
             Sample.rad Sample.S_part Sample.K_part Sample.R_part 2 1 (-1) None
             Sample.cut_off_prec Sample.res_singular 0 1e7%float
             (Sample.res_singular !!! 0) 1e-3%float Sample.scale);
      try reflexivity; try discriminate.
    left. split; [vm_compute; repeat constructor|reflexivity].
  - apply (multi_disk_degrades_to_zero (H := Sample.numerics_nan) [0.01%float]
             Sample.rad4 Sample.S_part4 Sample.K_part4 Sample.R_part4 2 1 (-1)
             None Sample.cut_off_prec Sample.res4_nan 0 0.01%float
             (Sample.res4_nan !!! 0) 1e-3%float Sample.scale);
      try reflexivity; try discriminate.
    right. split; [vm_compute; repeat constructor|reflexivity].
Defined.

(** ** What the assembly leaves in the banded matrix *)

Section AssembledMatrix.
Context `{Numerics}.

Ltac split_positions :=
  repeat match goal with
         | H : _ \/ _ |- _ => destruct H as [H|H]
         | H : (_, _) = (_, _) |- _ => apply pair_equal_spec in H as [? ?]
         | H : False |- _ => destruct H
         end.

Lemma interface_positions_inj i j (x : nat * nat) :
  x ∈ interface_positions i -> x ∈ interface_positions j -> i = j.
Proof.
  destruct x as [r c]. unfold interface_positions. rewrite ?elem_of_cons, ?elem_of_nil.
  intros Hi Hj. split_positions; lia.
Qed.

Lemma interface_positions_NoDup i : NoDup (interface_positions i).
Proof.
  unfold interface_positions.
  repeat (apply NoDup_cons; split;
          [rewrite ?elem_of_cons, ?elem_of_nil; intros Hx; split_positions; lia|]).
  apply NoDup_nil_2.
Qed.

Lemma NoDup_flat_map_seq (f : nat -> list (nat * nat)) n : forall a,
  (forall i j x, x ∈ f i -> x ∈ f j -> i = j) ->
  (forall i, NoDup (f i)) ->
  NoDup (flat_map f (seq a n)).
Proof.
  induction n as [|n IH]; intros a Hinj Hnd; simpl; [apply NoDup_nil_2|].
  apply NoDup_app. split; [apply Hnd|]. split; [|apply IH; auto].
  intros x Hx Hin. apply list_elem_of_In, in_flat_map in Hin as (j & Hj & Hin).
  apply in_seq in Hj. apply list_elem_of_In in Hin.
  pose proof (Hinj _ _ _ Hx Hin). lia.
Qed.

(** Where the assembly writes, by row. *)
Lemma assemble_positions_rows R_part parts r c :
  2 <= parts -> (r, c) ∈ assemble_positions R_part parts ->
  (r = 0 -> 3 <= c) /\ (r = 1 -> 1 <= c)
  /\ (r = 3 -> c + 2 <= 2 * parts) /\ (r = 4 -> c + 4 <= 2 * parts).
Proof.
  intros Hp Hin. unfold assemble_positions in Hin.
  apply elem_of_app in Hin as [Hin|Hin].
  - apply list_elem_of_In, in_flat_map in Hin as (i & Hi & Hin).
    apply in_seq in Hi. apply list_elem_of_In in Hin.
    unfold interface_positions in Hin.
    rewrite ?elem_of_cons, ?elem_of_nil in Hin. split_positions; lia.
  - unfold boundary_positions in Hin.
    apply elem_of_app in Hin as [Hin|Hin].
    + destruct (F64.gtb _ _); [|inversion Hin].
      rewrite ?elem_of_cons, ?elem_of_nil in Hin. split_positions; lia.
    + destruct (_ <? _)%float;
        rewrite ?elem_of_cons, ?elem_of_nil in Hin; split_positions; lia.
Qed.

(** With a finite outer boundary no entry is assigned twice. *)
Lemma assemble_positions_NoDup R_part parts :
  2 <= parts -> (R_last R_part <? F64.inf)%float = true ->
  NoDup (assemble_positions R_part parts).
Proof.
  intros Hp Hfin. unfold assemble_positions. apply NoDup_app.
  split; [|split].
  - apply NoDup_flat_map_seq;
      [apply interface_positions_inj|apply interface_positions_NoDup].
  - intros [r c] Hx Hin.
    apply list_elem_of_In, in_flat_map in Hx as (i & Hi & Hx).
    apply in_seq in Hi. apply list_elem_of_In in Hx.
    unfold interface_positions in Hx. unfold boundary_positions in Hin.
    rewrite Hfin in Hin. rewrite ?elem_of_cons, ?elem_of_nil in Hx.
    destruct (F64.gtb _ _); simpl in Hin;
      rewrite ?elem_of_cons, ?elem_of_nil in Hin; split_positions; lia.
  - unfold boundary_positions. rewrite Hfin.
    destruct (F64.gtb _ _); simpl;
      repeat (apply NoDup_cons; split;
              [rewrite ?elem_of_cons, ?elem_of_nil; intros Hx; split_positions; lia|]);
      apply NoDup_nil_2.
Qed.

(** Assignments to pairwise different entries can all be read back. *)
Lemma apply_writes_lookup n m ws : forall Mb w,
  NoDup ws.*1 -> mat_shape n m Mb -> w ∈ ws -> w.1.1 < n -> w.1.2 < m ->
  entry (apply_writes ws Mb) w.1.1 w.1.2 = Some w.2.
Proof.
  induction ws as [|[[r c] v] ws IH]; intros Mb w Hnd HM Hw Hr Hc;
    [inversion Hw|].
  rewrite fmap_cons in Hnd. apply NoDup_cons in Hnd as [Hnot Hnd].
  rewrite apply_writes_cons. apply elem_of_cons in Hw as [->|Hw].
  - simpl in *. rewrite entry_apply_writes_other by exact Hnot.
    rewrite entry_set2, decide_True by auto.
    destruct (entry_is_Some n m Mb r c HM) as [_ HS].
    destruct HS as [x ->]; auto.
  - apply IH; auto using set2_shape.
Qed.

(** The last assignment to an entry is what can be read back. *)
Lemma apply_writes_last n m ws1 ws2 r c v Mb :
  mat_shape n m Mb -> r < n -> c < m -> (r, c) ∉ ws2.*1 ->
  entry (apply_writes (ws1 ++ (r, c, v) :: ws2) Mb) r c = Some v.
Proof.
  intros HM Hr Hc Hnot.
  rewrite apply_writes_app, apply_writes_cons.
  rewrite entry_apply_writes_other by exact Hnot.
  rewrite entry_set2, decide_True by auto.
  assert (HM' : mat_shape n m (apply_writes ws1 Mb)) by (apply apply_writes_shape, HM).
  destruct (entry_is_Some n m _ r c HM') as [_ HS].
  destruct HS as [x ->]; auto.
Qed.

Lemma assemble_writes_in_range nu Cs R_part tmp parts w :
  2 <= parts -> w ∈ assemble_writes nu Cs R_part tmp parts ->
  w.1.1 < 5 /\ w.1.2 < 2 * parts.
Proof.
  intros Hp Hw. apply (assemble_positions_in_range R_part parts); [exact Hp|].
  rewrite <- (assemble_writes_positions nu Cs R_part tmp parts).
  destruct w as [[r c] v]. simpl.
  apply list_elem_of_fmap. exists (r, c, v). auto.
Qed.

(** X9: the assembled system holds every coefficient the code assigns.
    With at least two disks and a finite outer boundary, each assignment of
    the interface loop and of the boundary conditions can be read back from
    the assembled matrix; with an infinite outer boundary the two upper
    entries of the last column read zero instead. *)
Theorem assemble_keeps_writes nu Cs R_part tmp parts Mb :
  2 <= parts -> mat_shape 5 (2 * parts) Mb ->
  ((R_last R_part <? F64.inf)%float = true ->
   forall w, w ∈ assemble_writes nu Cs R_part tmp parts ->
     entry (assemble nu Cs R_part tmp parts Mb) w.1.1 w.1.2 = Some w.2)
  /\ ((R_last R_part <? F64.inf)%float = false ->
      entry (assemble nu Cs R_part tmp parts Mb) 0 (2 * parts - 1) = Some F64.zero
      /\ entry (assemble nu Cs R_part tmp parts Mb) 1 (2 * parts - 1)
         = Some F64.zero).
Proof.
  intros Hp HM. rewrite assemble_as_writes. split.
  - intros Hfin w Hw.
    destruct (assemble_writes_in_range _ _ _ _ _ _ Hp Hw) as [Hr Hc].
    apply (apply_writes_lookup 5 (2 * parts)); auto.
    rewrite assemble_writes_positions. apply assemble_positions_NoDup; auto.
  - intros Hinf. unfold assemble_writes, boundary_writes. rewrite Hinf.
    split.
    + rewrite !app_assoc.
      apply (apply_writes_last 5 (2 * parts)); auto; try lia.
      simpl. rewrite list_elem_of_singleton. intros [= ].
    + change [(0, 2 * parts - 1, F64.zero); (1, 2 * parts - 1, F64.zero)]
        with ([(0, 2 * parts - 1, F64.zero)] ++ [(1, 2 * parts - 1, F64.zero)]).
      rewrite !app_assoc.
      apply (apply_writes_last 5 (2 * parts)); auto; try lia.
      simpl. apply not_elem_of_nil.
Qed.

End AssembledMatrix.

(** On the two-disk sample system every assignment can be read back; with
    the outer boundary moved to infinity the upper entries of the last
    column are zero. *)
Lemma assemble_keeps_writes_witness :
  (forall w,
     w ∈ assemble_writes (H := Sample.numerics) 0 Sample.Cs Sample.R_part
           (tmp Sample.S_part Sample.K_part) 2 ->
     entry Sample.Mb w.1.1 w.1.2 = Some w.2)
  /\ entry (assemble (H := Sample.numerics) 0 Sample.Cs [1; 2; infinity]%float
              (tmp Sample.S_part Sample.K_part) 2 (init 2).1.2) 0 3
     = Some F64.zero.
Proof.
  assert (HM : mat_shape 5 (2 * 2) (init 2).1.2) by apply init_shape.
  split.
  - apply (proj1 (assemble_keeps_writes (H := Sample.numerics) 0 Sample.Cs
                    Sample.R_part (tmp Sample.S_part Sample.K_part) 2
                    (init 2).1.2 ltac:(lia) HM)).
    reflexivity.
  - apply (proj2 (assemble_keeps_writes (H := Sample.numerics) 0 Sample.Cs
                    [1; 2; infinity]%float (tmp Sample.S_part Sample.K_part) 2
                    (init 2).1.2 ltac:(lia) HM)).
    reflexivity.
Defined.

(** ** The system handed to pentapy *)

Section BandedSystem.
Context `{Numerics}.

Lemma entry_init_off_diagonal parts r c :
  r <> 2 ->
  entry (init parts).1.2 r c
  = if decide (r < 5 /\ c < 2 * parts) then Some F64.zero else None.
Proof.
  intros Hr. rewrite init_Mb, !entry_set2, !decide_False by lia.
  apply entry_zeros.
Qed.

Lemma entry_fmap_take k Mb r c :
  c < k -> entry (take k <$> Mb) r c = entry Mb r c.
Proof.
  intros Hc. unfold entry. rewrite list_lookup_fmap.
  destruct (Mb !! r) as [row|]; simpl; [|reflexivity].
  apply lookup_take_lt, Hc.
Qed.

Lemma fmap_take_shape n m k Mb :
  k <= m -> mat_shape n m Mb -> mat_shape n k (take k <$> Mb).
Proof.
  intros Hk [Hn Hm]. split; [rewrite length_fmap; exact Hn|].
  apply Forall_fmap. eapply Forall_impl; [exact Hm|].
  intros row Hr. simpl in *. rewrite length_take. lia.
Qed.

(** X10: whenever the banded solver is used ([first > 1]), the matrix it
    receives is the banded storage of a square matrix with [2 * first] rows:
    it has 5 rows and [2 * first] columns, and every entry that would lie
    above the first or below the last row of that square matrix is zero,
    in the full system as well as in a truncated one, at every iteration. *)
Theorem penta_input_well_formed nu Cs R_part tmp parts first V X st :
  2 <= parts -> 1 < first -> first <= parts ->
  state_inv parts R_part st ->
  let M := penta_input parts first V
             (assemble nu Cs R_part tmp parts st.1.2) X in
  mat_shape 5 (2 * first) M
  /\ forall r c v, entry M r c = Some v -> outside_square (2 * first) r c ->
                   v = F64.zero.
Proof.
  intros Hp Hf Hfp (_ & _ & HM & Hag & _) M.
  set (A := assemble nu Cs R_part tmp parts st.1.2) in *.
  assert (HA : mat_shape 5 (2 * parts) A)
    by (subst A; rewrite assemble_as_writes; apply apply_writes_shape, HM).
  assert (HAag : forall r c, (r, c) ∉ assemble_positions R_part parts ->
                   entry A r c = entry (init parts).1.2 r c).
  { intros r c Hn. subst A. rewrite assemble_as_writes.
    rewrite entry_apply_writes_other by (rewrite assemble_writes_positions; exact Hn).
    apply Hag, Hn. }
  destruct (solve_coeffs_Mb parts (assemble_positions R_part parts) first V A X
              HA HAag) as [HB HBag].
  set (B := (solve_coeffs parts first V A X).1) in *.
  assert (HMs : mat_shape 5 (2 * first) M).
  { subst M. unfold penta_input. fold B. apply (fmap_take_shape 5 (2 * parts)); auto. lia. }
  split; [exact HMs|].
  intros r c v Hv Hout.
  destruct (entry_is_Some 5 (2 * first) M r c HMs) as [Hin _].
  destruct Hin as [Hr Hc]; [eauto|].
  subst M. unfold penta_input in Hv. fold B in Hv.
  rewrite entry_fmap_take in Hv by exact Hc.
  assert (Hzero : entry (init parts).1.2 r c = Some F64.zero).
  { rewrite entry_init_off_diagonal, decide_True; [reflexivity|lia|].
    destruct Hout; lia. }
  destruct (decide ((r, c) ∈ assemble_positions R_part parts)) as [Hpos|Hpos].
  - pose proof (assemble_positions_rows R_part parts r c Hp Hpos)
      as (H0 & H1 & H3 & H4).
    assert (Hlow : first < parts
                   /\ ((r = 3 /\ c = 2 * first - 1)
                       \/ (r = 4 /\ (c = 2 * first - 2 \/ c = 2 * first - 1)))).
    { destruct Hout as [Hout|Hout].
      - destruct r as [|[|r]]; lia.
      - destruct (decide (r = 3)); [lia|]. destruct (decide (r = 4)); lia. }
    destruct Hlow as [Hlt Hrc].
    subst B. unfold solve_coeffs in Hv.
    destruct (Nat.leb_spec first 1); [lia|].
    destruct (Nat.ltb_spec first parts); [|lia]. cbn [fst] in Hv.
    unfold truncate_view in Hv. rewrite !entry_set2 in Hv.
    repeat case_decide;
      repeat match goal with
             | Hx : context [match entry ?M ?a ?b with _ => _ end] |- _ =>
                 destruct (entry M a b); try discriminate
             end;
      try congruence; exfalso; lia.
  - rewrite HBag, Hzero in Hv by exact Hpos. congruence.
Qed.

End BandedSystem.

(** The four-disk sample for [s = 4], cut after two disks: the solver gets
    a 5-by-4 banded matrix whose corner entries are zero. *)
Lemma penta_input_well_formed_witness :
  let Cs := fmap (fun d => (sqrt 4 * d)%float)
              (difsr Sample.S_part4 Sample.K_part4) in
  let M := penta_input (H := Sample.numerics) 4 2 (init 4).1.1
             (assemble (H := Sample.numerics) 0 Cs Sample.R_part4
                (tmp Sample.S_part4 Sample.K_part4) 4 (init 4).1.2)
             (init 4).2 in
  mat_shape 5 (2 * 2) M
  /\ forall r c v, entry M r c = Some v -> outside_square (2 * 2) r c ->
                   v = F64.zero.
Proof.
  intros Cs.
  apply (penta_input_well_formed (H := Sample.numerics) 0 Cs Sample.R_part4
           (tmp Sample.S_part4 Sample.K_part4) 4 2 (init 4).1.1 (init 4).2
           (init 4)); [lia|lia|lia|].
  apply init_state_inv.
Defined.

(** ** Radii beyond the cut *)

Section BeyondCut.
Context `{Numerics}.

(** The cleaned coefficients of every disk at or beyond the cut (and
    beyond disk 0) are zero, also when read out of range. *)
Lemma coeffs_used_tail parts first V Mb X j :
  Nat.max (2 * first) 2 <= j ->
  coeffs_used parts first V Mb X !!! j = F64.zero.
Proof.
  intros Hj. unfold coeffs_used, F64.nan_to_num.
  rewrite list_lookup_total_alt, list_lookup_fmap.
  destruct ((solve_coeffs parts first V Mb X).2 !! j) as [x|] eqn:E;
    [|reflexivity].
  apply solve_coeffs_tail in E; [|exact Hj]. subst x. reflexivity.
Qed.

(** X11: with several disks, a positive cutoff and a finite scale
    factor, the result for [s_i] is zero at every radius whose disk lies at
    or beyond the first disk without impact (and beyond disk 0, whose block
    is always solved). *)
Theorem head_zero_beyond_cut s rad S_part K_part R_part dim lat_ext rate K_well
    cut_off_prec res i se ri p kw scale row v :
  grf_laplace s rad S_part K_part R_part dim lat_ext rate K_well cut_off_prec
  = Ok res ->
  length K_part <> 1 ->
  (0 <? cut_off_prec)%float = true ->
  resolve_K_well K_part K_well = Ok kw ->
  scale_factor dim lat_ext rate kw = Ok scale -> is_finite scale = true ->
  s !! i = Some se -> pos R_part rad !! ri = Some p ->
  Nat.max (multi_disk_first (1 - dim / 2)%float cut_off_prec S_part K_part
             R_part se) 1 <= p ->
  res !! i = Some row -> row !! ri = Some v ->
  F64.is_zero v = true.
Proof.
  intros Hrun H1 Hcut HK HF Hfin Hi Hp Hmax Hrow Hv.
  apply grf_laplace_Ok in Hrun
    as (kw' & raw & scale' & HK' & HC & HS & HF' & ->).
  assert (scale' = scale) as -> by congruence.
  pose proof (check_input_Ok _ _ _ _ _ _ _ HC) as (HL & _ & _).
  apply lengths_ok_spec in HL as (_ & _ & HN).
  destruct (solve_all_multi_row _ _ _ _ _ _ _ _ i se HN H1 HS Hi) as [_ Hraw].
  rewrite list_lookup_fmap, Hraw in Hrow. injection Hrow as <-.
  rewrite list_lookup_fmap in Hv. unfold head_row in Hv.
  destruct (zip_with _ _ _ !! ri) as [x|] eqn:Hx; [|discriminate].
  injection Hv as <-.
  apply lookup_zip_with_Some in Hx as (p' & r & -> & Hp' & _).
  assert (p' = p) as -> by congruence.
  apply is_zero_mul_finite; [|exact Hfin].
  unfold multi_disk_coeffs. rewrite !coeffs_used_tail by lia.
  change (abs F64.zero) with 0%float. rewrite Hcut.
  change (F64.zero + F64.zero)%float with F64.zero.
  apply mul_zero_r_clean.
Qed.

End BeyondCut.

(** On the four-disk sample with [s = 4] the cut is after two disks, and the
    result at the radius 15, in disk 2, is zero. *)
Lemma head_zero_beyond_cut_witness :
  multi_disk_first (H := Sample.numerics) (1 - 2 / 2)%float Sample.cut_off_prec
    Sample.S_part4 Sample.K_part4 Sample.R_part4 4 = 2
  /\ F64.is_zero ((Sample.res4 !!! 0) !!! 2) = true.
Proof.
  split; [reflexivity|].
  apply (head_zero_beyond_cut (H := Sample.numerics) Sample.s4 Sample.rad4
           Sample.S_part4 Sample.K_part4 Sample.R_part4 2 1 (-1) None
           Sample.cut_off_prec Sample.res4 0 4%float 2 2 1e-3%float Sample.scale
           (Sample.res4 !!! 0));
    try reflexivity; try discriminate.
Defined.

(** ** Rows of the single-disk result *)

Section SingleDiskRows.
Context `{Numerics}.

(** Row [i] of the single-disk result, through the system and the head of
    the model. *)
Lemma single_disk_rows s rad S_part K_part R_part dim lat_ext rate K_well
    cut_off_prec res i se :
  grf_laplace s rad S_part K_part R_part dim lat_ext rate K_well cut_off_prec
  = Ok res ->
  length K_part = 1 -> s !! i = Some se ->
  let nu := (1 - dim / 2)%float in
  let st := single_disk_system nu S_part K_part R_part se in
  let S0 := S_part !!! 0 in
  let K0 := K_part !!! 0 in
  let Cs := (sqrt se * sqrt (S0 / K0))%float in
  exists kw scale As Bs,
    resolve_K_well K_part K_well = Ok kw
    /\ scale_factor dim lat_ext rate kw = Ok scale
    /\ linalg_solve st.2 st.1 = Some (As, Bs)
    /\ res !! i
       = Some (fmap (fun x => (F64.nan_to_num1 x * scale)%float)
                 (single_head nu Cs (R_last R_part) As Bs rad)).
Proof.
  intros Hrun H1 Hi nu st S0 K0 Cs.
  apply grf_laplace_Ok in Hrun as (kw & raw & scale & HK & HC & HS & HF & ->).
  assert (Hp : 1 <= length K_part) by lia.
  destruct (solve_all_row _ _ _ _ _ _ _ _ i se Hp HS Hi) as (row & Hone & Hrow).
  exists kw, scale. unfold solve_all in Hone. rewrite H1 in Hone.
  rewrite pumping_fmap in Hone. simpl in Hone.
  unfold single_disk_step in Hone. cbn [fst snd] in Hone.
  fold nu in Hone. subst st Cs S0 K0. unfold single_disk_system.
  destruct (linalg_solve _ _) as [[As Bs]|]; [|discriminate].
  exists As, Bs. split; [exact HK|]. split; [exact HF|]. split; [reflexivity|].
  simpl in Hone. injection Hone as <-.
  rewrite list_lookup_fmap, Hrow. reflexivity.
Qed.

(** X12: with one disk, the entry of a returned result for [s_i] and the
    radius [r_j] comes from the 2x2 system of [s_i] alone.  With
    [Cs = sqrt(s_i) * sqrt(S_0 / K_0)], its right-hand side is [(Qs_i, 0)],
    its first row is [(-K_{nu-1}(Cs R_0), I_{nu-1}(Cs R_0))] for a positive
    well radius and [(1, 0)] otherwise, its second row
    [(K_nu(Cs R_1), I_nu(Cs R_1))] for a finite outer boundary and [(0, 1)]
    otherwise, in which case the upper right entry is zero.
    [numpy.linalg.solve] has a solution [(As, Bs)] for it, and the entry is
    [r ** nu * (As * K_nu(Cs r) + Bs * I_nu(Cs r))] below the outer boundary
    and the initial zero elsewhere, cleaned by [nan_to_num] and scaled. *)
Theorem single_disk_row s rad S_part K_part R_part dim lat_ext rate K_well
    cut_off_prec res i j se r :
  grf_laplace s rad S_part K_part R_part dim lat_ext rate K_well cut_off_prec
  = Ok res ->
  length K_part = 1 -> s !! i = Some se -> rad !! j = Some r ->
  let nu := (1 - dim / 2)%float in
  let S0 := S_part !!! 0 in
  let K0 := K_part !!! 0 in
  let R0 := R_first R_part in
  let RN := R_last R_part in
  let d0 := sqrt (S0 / K0)%float in
  let Cs := (sqrt se * d0)%float in
  let Q := (if 0 <? R0 then - np_pow se (-1.5) / d0 * np_pow R0 (nu - 1)
            else np_pow (2 / d0) nu / gamma (1 - nu)
                 * np_pow se (- nu / 2 - 1))%float in
  let row0 : float * float :=
    if (0 <? R0)%float
    then ((- kv (nu - 1) (Cs * R0))%float, iv (nu - 1)%float (Cs * R0)%float)
    else (1%float, 0%float) in
  let M : mat2 :=
    if (RN <? infinity)%float
    then (row0, (kv nu (Cs * RN)%float, iv nu (Cs * RN)%float))
    else ((row0.1, 0%float), (0%float, 1%float)) in
  exists kw scale As Bs row,
    resolve_K_well K_part K_well = Ok kw
    /\ scale_factor dim lat_ext rate kw = Ok scale
    /\ linalg_solve M (Q, 0%float) = Some (As, Bs)
    /\ res !! i = Some row
    /\ row !! j
       = Some (F64.nan_to_num1
                 (if r <? RN
                  then np_pow r nu * (As * kv nu (Cs * r) + Bs * iv nu (Cs * r))
                  else 0) * scale)%float.
Proof.
  intros Hrun H1 Hi Hj nu S0 K0 R0 RN d0 Cs Q row0 M.
  destruct (single_disk_rows _ _ _ _ _ _ _ _ _ _ _ _ _ Hrun H1 Hi)
    as (kw & scale & As & Bs & HK & HF & Hsol & Hrow).
  fold nu S0 K0 in Hsol, Hrow.
  assert (Hst : single_disk_system nu S_part K_part R_part se
                = ((Q, 0%float), M)).
  { subst Q M row0 Cs d0 RN R0 K0 S0.
    unfold single_disk_system, single_system, pump1, init1, kv0, kv1, iv0, iv1,
      get_bessel, F64.gtb, F64.inf, F64.one, F64.zero.
    cbn [fst snd].
    destruct (0 <? R_first R_part)%float, (R_last R_part <? infinity)%float;
      reflexivity. }
  rewrite Hst in Hsol. cbn [fst snd] in Hsol.
  eexists kw, scale, As, Bs, _. split; [exact HK|]. split; [exact HF|].
  split; [exact Hsol|]. split; [exact Hrow|].
  rewrite list_lookup_fmap. unfold single_head.
  rewrite list_lookup_fmap, Hj. reflexivity.
Qed.

End SingleDiskRows.

(** The entry of the one-disk sample batch [[5; 10]] for [s = 10] and the
    radius 1.5: the well radius is 1 and the outer boundary 2. *)
Lemma single_disk_row_witness :
  let nu := (1 - 2 / 2)%float in
  let d0 := sqrt (1e-3 / 1e-3)%float in
  let Cs := (sqrt 10 * d0)%float in
  let Q := (- np_pow (Numerics := Sample.numerics) 10 (-1.5) / d0
            * np_pow (Numerics := Sample.numerics) 1 (nu - 1))%float in
  let M : mat2 :=
    (((- kv (Numerics := Sample.numerics) (nu - 1) (Cs * 1))%float,
      iv (Numerics := Sample.numerics) (nu - 1)%float (Cs * 1)%float),
     (kv (Numerics := Sample.numerics) nu (Cs * 2)%float,
      iv (Numerics := Sample.numerics) nu (Cs * 2)%float)) in
  exists kw scale As Bs row,
    resolve_K_well Sample.K_part1 None = Ok kw
    /\ scale_factor (H := Sample.numerics) 2 1 (-1) kw = Ok scale
    /\ linalg_solve (Numerics := Sample.numerics) M (Q, 0%float) = Some (As, Bs)
    /\ Sample.res1 !! 1 = Some row
    /\ row !! 0
       = Some (F64.nan_to_num1
                 (np_pow (Numerics := Sample.numerics) 1.5 nu
                  * (As * kv (Numerics := Sample.numerics) nu (Cs * 1.5)
                     + Bs * iv (Numerics := Sample.numerics) nu (Cs * 1.5)))
               * scale)%float.
Proof.
  apply (single_disk_row (H := Sample.numerics) [5; 10]%float Sample.rad1
           Sample.S_part1 Sample.K_part1 Sample.R_part1 2 1 (-1) None
           Sample.cut_off_prec Sample.res1 1 0 10%float 1.5%float); reflexivity.
Defined.

(** * Properties of [neuman_unconfined_laplace] *)

(** ** Printing loops *)

Lemma out_bind_Ok {A B : Type} (m : out A) (k : A -> out B) log b :
  out_bind m k = (log, Ok b) ->
  exists l1 a l2, m = (l1, Ok a) /\ k a = (l2, Ok b) /\ log = l1 ++ l2.
Proof.
  destruct m as [l1 [a|e]]; unfold out_bind; simpl; [|discriminate].
  destruct (k a) as [l2 r] eqn:Hk. simpl. intros [= <- ->].
  exists l1, a, l2. auto.
Qed.

Lemma out_bind_Raise {A B : Type} (m : out A) (k : A -> out B) log e :
  out_bind m k = (log, Raise e) ->
  m = (log, Raise e)
  \/ exists l1 a l2, m = (l1, Ok a) /\ k a = (l2, Raise e) /\ log = l1 ++ l2.
Proof.
  destruct m as [l1 [a|e']]; unfold out_bind; simpl.
  - destruct (k a) as [l2 r] eqn:Hk. simpl. intros [= <- ->].
    right. exists l1, a, l2. auto.
  - intros [= <- <-]. left. reflexivity.
Qed.

Section OutLoops.
Context {A B : Type}.

(** A loop that returns has run every body to its end: the values are those
    of the bodies, and what was printed is what the bodies print, in
    order. *)
Lemma out_for_Ok (body : A -> out B) l log ys :
  out_for body l = (log, Ok ys) ->
  log = flat_map (fun x => (body x).1) l
  /\ Forall2 (fun x y => (body x).2 = Ok y) l ys.
Proof.
  revert log ys. induction l as [|x l IH]; intros log ys; simpl.
  - intros [= <- <-]. split; [reflexivity|constructor].
  - intros Hb. apply out_bind_Ok in Hb as (l1 & y & l2 & Hx & Hr & ->).
    apply out_bind_Ok in Hr as (l3 & ys' & l4 & Hl & Hr & ->).
    injection Hr as <- <-. apply IH in Hl as [-> HF].
    rewrite Hx. simpl. rewrite app_nil_r. split; [reflexivity|].
    constructor; [rewrite Hx; reflexivity|exact HF].
Qed.

Lemma out_for_Raise (body : A -> out B) l log e :
  out_for body l = (log, Raise e) ->
  exists x, x ∈ l /\ (body x).2 = Raise e.
Proof.
  revert log. induction l as [|x l IH]; intros log; simpl; [discriminate|].
  intros Hb. apply out_bind_Raise in Hb as [Hx|(l1 & y & l2 & Hx & Hr & ->)].
  - exists x. rewrite Hx. split; [apply list_elem_of_here|reflexivity].
  - apply out_bind_Raise in Hr as [Hl|(l3 & ys & l4 & Hl & Hr & ->)];
      [|discriminate].
    apply IH in Hl as (x' & Hin & Hx'). exists x'.
    split; [apply list_elem_of_further, Hin|exact Hx'].
Qed.

(** A loop whose bodies all return returns. *)
Lemma out_for_returns (body : A -> out B) l :
  Forall (fun x => exists y, (body x).2 = Ok y) l ->
  exists log ys, out_for body l = (log, Ok ys) /\ length ys = length l.
Proof.
  induction 1 as [|x l [y Hy] _ (log & ys & IH & Hlen)]; simpl.
  - exists [], []. split; reflexivity.
  - destruct (body x) as [l1 r] eqn:Hx. simpl in Hy. subst r.
    exists (l1 ++ (log ++ [])), (y :: ys).
    unfold out_bind. simpl. rewrite IH. simpl. split; [reflexivity|].
    rewrite Hlen. reflexivity.
Qed.

(** A loop with a raising body raises, and when every body can raise only
    [e], it raises [e]. *)
Lemma out_for_raises (body : A -> out B) l e x :
  x ∈ l -> (body x).2 = Raise e ->
  (forall y e', y ∈ l -> (body y).2 = Raise e' -> e' = e) ->
  exists log, out_for body l = (log, Raise e).
Proof.
  induction l as [|a l IH]; intros Hin Hx Hall; [inversion Hin|].
  simpl. destruct (body a) as [l1 [y|e']] eqn:Ha; unfold out_bind; simpl.
  - assert (Hin' : x ∈ l).
    { apply elem_of_cons in Hin as [->|Hin]; [|exact Hin].
      rewrite Ha in Hx. discriminate. }
    destruct (IH Hin' Hx) as [log Hl].
    { intros y' e' Hy'. apply Hall, list_elem_of_further, Hy'. }
    rewrite Hl. simpl. eauto.
  - assert (e' = e) as ->.
    { apply (Hall a); [apply list_elem_of_here|]. rewrite Ha. reflexivity. }
    eauto.
Qed.

End OutLoops.

(** ** One entry of the result *)

Section NeumanEntry.
Context `{H : Numerics} `{E : NeumanNumerics}.

Lemma py_div_Ok a b q :
  py_div a b = Ok q -> (b =? 0)%float = false /\ q = (a / b)%float.
Proof.
  unfold py_div. destruct (b =? 0)%float; [discriminate|].
  intros [= <-]. auto.
Qed.

Lemma py_div_Raise a b e :
  py_div a b = Raise e -> e = ZeroDivisionError /\ (b =? 0)%float = true.
Proof.
  unfold py_div. destruct (b =? 0)%float; [|discriminate].
  intros [= <-]. auto.
Qed.

Lemma neuman_term_Raise se betaw sat_thickness well_depth d z eps e :
  neuman_term se betaw sat_thickness well_depth d z eps = Raise e ->
  e = ZeroDivisionError /\ (sat_thickness =? 0)%float = true.
Proof.
  unfold neuman_term, py_div.
  destruct (sat_thickness =? 0)%float; simpl; [|discriminate].
  intros [= <-]. auto.
Qed.

Lemma neuman_term_returns se betaw sat_thickness well_depth d z eps :
  (sat_thickness =? 0)%float = false ->
  exists v, neuman_term se betaw sat_thickness well_depth d z eps = Ok v.
Proof.
  intros Hs. unfold neuman_term, py_div. rewrite Hs. simpl. eauto.
Qed.

(** The loop over the eigenvalues keeps the last assignment only. *)
Lemma eigen_loop_last se betaw sat_thickness well_depth d z l : forall cur v,
  eigen_loop se betaw sat_thickness well_depth d z cur l = Ok v ->
  match last_nonzero l with
  | Some eps => neuman_term se betaw sat_thickness well_depth d z eps = Ok v
  | None => v = cur
  end.
Proof.
  unfold last_nonzero.
  induction l as [|eps l IH]; intros cur v; simpl.
  - intros [= <-]. reflexivity.
  - unfold eigen_step. destruct (eps =? 0)%float eqn:He; simpl.
    + apply IH.
    + destruct (neuman_term _ _ _ _ _ _ eps) as [c|] eqn:Ht; simpl;
        [|discriminate].
      intros Hl. apply IH in Hl.
      destruct (List.filter _ l) as [|e0 l0]; simpl in *.
      * subst v. exact Ht.
      * destruct (last (e0 :: l0)) eqn:EL; [exact Hl|].
        apply last_None in EL. discriminate.
Qed.

Lemma eigen_loop_Raise se betaw sat_thickness well_depth d z l : forall cur e,
  eigen_loop se betaw sat_thickness well_depth d z cur l = Raise e ->
  e = ZeroDivisionError /\ (sat_thickness =? 0)%float = true.
Proof.
  induction l as [|eps l IH]; intros cur e; simpl; [discriminate|].
  unfold eigen_step. destruct (eps =? 0)%float; simpl; [apply IH|].
  destruct (neuman_term _ _ _ _ _ _ eps) as [c|e'] eqn:Ht; simpl; [apply IH|].
  intros [= <-]. eapply neuman_term_Raise, Ht.
Qed.

Lemma eigen_loop_returns se betaw sat_thickness well_depth d z l : forall cur,
  (sat_thickness =? 0)%float = false ->
  exists v, eigen_loop se betaw sat_thickness well_depth d z cur l = Ok v.
Proof.
  induction l as [|eps l IH]; intros cur Hs; simpl; [eauto|].
  unfold eigen_step. destruct (eps =? 0)%float; simpl; [apply IH, Hs|].
  destruct (neuman_term_returns se betaw sat_thickness well_depth d z eps Hs)
    as [c ->].
  simpl. apply IH, Hs.
Qed.

(** The body of the loop over [rad], by cases. *)
Lemma neuman_entry_cases storage sat_thickness well_depth kd specific_yield
    n_numbers d z se re :
  neuman_entry storage sat_thickness well_depth kd specific_yield n_numbers
    d z se re
  = if (re <? infinity)%float then
      if (specific_yield =? 0)%float then ([], Raise ZeroDivisionError)
      else
        (printed_for storage sat_thickness kd specific_yield n_numbers se re,
         eigen_loop se (kd * np_pow (re / sat_thickness) 2)%float sat_thickness
           well_depth d z F64.zero
           (epsilon_visited n_numbers
              (righthand_of storage sat_thickness kd specific_yield se re)))
    else ([], Ok F64.zero).
Proof.
  unfold neuman_entry, printed_for, epsilon_visited, righthand_of, py_div.
  destruct (re <? infinity)%float; [|reflexivity].
  destruct (specific_yield =? 0)%float; [reflexivity|].
  unfold epsilon_n_of, out_bind, out_lift, out_ret, print. simpl.
  destruct (10 <? _)%float; simpl; rewrite ?app_nil_r; reflexivity.
Qed.

Lemma neuman_entry_Raise storage sat_thickness well_depth kd specific_yield
    n_numbers d z se re e :
  (neuman_entry storage sat_thickness well_depth kd specific_yield n_numbers
     d z se re).2 = Raise e ->
  e = ZeroDivisionError /\ (re <? infinity)%float = true
  /\ ((specific_yield =? 0)%float = true \/ (sat_thickness =? 0)%float = true).
Proof.
  rewrite neuman_entry_cases.
  destruct (re <? infinity)%float; [|discriminate].
  destruct (specific_yield =? 0)%float; simpl.
  - intros [= <-]. auto.
  - intros He. apply eigen_loop_Raise in He as [-> Hs]. auto.
Qed.

Lemma neuman_entry_returns storage sat_thickness well_depth kd specific_yield
    n_numbers d z se re :
  (specific_yield =? 0)%float = false -> (sat_thickness =? 0)%float = false ->
  exists v,
    (neuman_entry storage sat_thickness well_depth kd specific_yield n_numbers
       d z se re).2 = Ok v.
Proof.
  intros Hy Hs. rewrite neuman_entry_cases, Hy.
  destruct (re <? infinity)%float; simpl; [|eauto].
  apply eigen_loop_returns, Hs.
Qed.

End NeumanEntry.

(** ** The whole call *)

Section NeumanCall.
Context `{H : Numerics} `{E : NeumanNumerics}.

Lemma out_for_Ok_snd {A B : Type} (body : A -> out B) l ys :
  (out_for body l).2 = Ok ys ->
  (out_for body l).1 = flat_map (fun x => (body x).1) l
  /\ Forall2 (fun x y => (body x).2 = Ok y) l ys.
Proof.
  destruct (out_for body l) as [lg r] eqn:Hl. simpl. intros ->.
  apply out_for_Ok, Hl.
Qed.

Lemma flat_map_Forall2_ext {A B C : Type} (f g : A -> list C)
    (P : A -> B -> Prop) l k :
  Forall2 P l k -> (forall x y, P x y -> f x = g x) ->
  flat_map f l = flat_map g l.
Proof.
  intros HF Hfg. induction HF as [|x y l k Hxy _ IH]; simpl; [reflexivity|].
  rewrite IH, (Hfg x y Hxy). reflexivity.
Qed.

Lemma neuman_rows_Raise rad storage sat_thickness screen_size well_depth kd
    specific_yield n_numbers s e :
  (neuman_rows rad storage sat_thickness screen_size well_depth kd
     specific_yield n_numbers s).2 = Raise e ->
  e = ZeroDivisionError
  /\ (s <> [] /\ Exists (fun re => (re <? infinity)%float = true) rad)
  /\ ((specific_yield =? 0)%float = true \/ (sat_thickness =? 0)%float = true).
Proof.
  unfold neuman_rows. intros Hr.
  destruct (out_for _ s) as [lg r] eqn:Hs. simpl in Hr. subst r.
  apply out_for_Raise in Hs as (se & Hse & Hrow).
  destruct (out_for _ rad) as [lg' r] eqn:Hrad. simpl in Hrow. subst r.
  apply out_for_Raise in Hrad as (re & Hre & Hent).
  apply neuman_entry_Raise in Hent as (-> & Hfin & Hz).
  split; [reflexivity|]. split; [|exact Hz]. split.
  - intros ->. inversion Hse.
  - apply Exists_exists. eauto.
Qed.

Lemma neuman_rows_Ok rad storage sat_thickness screen_size well_depth kd
    specific_yield n_numbers s raw :
  (neuman_rows rad storage sat_thickness screen_size well_depth kd
     specific_yield n_numbers s).2 = Ok raw ->
  (neuman_rows rad storage sat_thickness screen_size well_depth kd
     specific_yield n_numbers s).1
  = flat_map (fun se =>
      flat_map (printed_for storage sat_thickness kd specific_yield n_numbers se)
        rad) s
  /\ Forall2 (fun se row =>
       Forall2 (fun re v =>
         (neuman_entry storage sat_thickness well_depth kd specific_yield
            n_numbers (well_depth - screen_size)%float
            (sat_thickness - well_depth)%float se re).2 = Ok v) rad row) s raw.
Proof.
  unfold neuman_rows. intros Hr. apply out_for_Ok_snd in Hr as [Hlog HF].
  split.
  - rewrite Hlog. eapply flat_map_Forall2_ext; [exact HF|].
    intros se row Hrow. cbv beta in Hrow.
    apply out_for_Ok_snd in Hrow as [-> HF'].
    eapply flat_map_Forall2_ext; [exact HF'|].
    intros re v Hv. cbv beta in Hv. rewrite neuman_entry_cases in *.
    unfold printed_for.
    destruct (re <? infinity)%float; [|reflexivity].
    destruct (specific_yield =? 0)%float; [discriminate|]. reflexivity.
  - eapply Forall2_impl; [exact HF|].
    intros se row Hrow. cbv beta in Hrow.
    apply out_for_Ok_snd in Hrow as [_ HF']. exact HF'.
Qed.

Lemma neuman_call_eq s rad storage transmissivity rate sat_thickness screen_size
    well_depth kd specific_yield n_numbers :
  neuman_unconfined_laplace s rad storage transmissivity rate sat_thickness
    screen_size well_depth kd specific_yield n_numbers
  = let rows := neuman_rows rad storage sat_thickness screen_size well_depth kd
                  specific_yield n_numbers s in
    match rows.2 with
    | Ok raw =>
        (rows.1,
         let* scale := py_div rate (2 * np_pi * transmissivity)%float in
         Ok (fmap (fun row : list float =>
                     fmap (fun x => (x * scale)%float) row) raw))
    | Raise e => (rows.1, Raise e)
    end.
Proof.
  unfold neuman_unconfined_laplace, neuman_rows. cbv zeta.
  destruct (out_for _ s) as [lg [raw|e]]; unfold out_bind; simpl;
    [|reflexivity].
  unfold py_div. destruct (_ =? 0)%float; simpl; rewrite ?app_nil_r;
    reflexivity.
Qed.

(** X13: the series over the eigenvalues is not summed.  In a returned
    result the entry for [(s_i, r_j)] is the scale factor times the term of
    the last visited eigenvalue that is not zero (zero when there is none,
    and when [r_j] is infinite or NaN): every eigenvalue assigns
    [res[si, ri]] anew. *)
Theorem neuman_last_eigenvalue_only s rad storage transmissivity rate
    sat_thickness screen_size well_depth kd specific_yield n_numbers
    log res i j se re :
  neuman_unconfined_laplace s rad storage transmissivity rate sat_thickness
    screen_size well_depth kd specific_yield n_numbers = (log, Ok res) ->
  s !! i = Some se -> rad !! j = Some re ->
  let z := (sat_thickness - well_depth)%float in
  let d := (well_depth - screen_size)%float in
  let betaw := (kd * np_pow (re / sat_thickness) 2)%float in
  let righthand := righthand_of storage sat_thickness kd specific_yield se re in
  exists row v,
    res !! i = Some row
    /\ row !! j = Some (v * (rate / (2 * np_pi * transmissivity)))%float
    /\ if (re <? infinity)%float then
         match last_nonzero (epsilon_visited n_numbers righthand) with
         | Some eps =>
             neuman_term se betaw sat_thickness well_depth d z eps = Ok v
         | None => v = F64.zero
         end
       else v = F64.zero.
Proof.
  intros Hrun Hi Hj z d betaw righthand. rewrite neuman_call_eq in Hrun.
  cbv zeta in Hrun.
  destruct (neuman_rows _ _ _ _ _ _ _ _ s).2 as [raw|e] eqn:Hrows;
    [|discriminate].
  injection Hrun as _ Hres.
  destruct (py_div rate _) as [scale|] eqn:Hdiv; [|discriminate].
  apply py_div_Ok in Hdiv as [_ ->]. simpl in Hres. injection Hres as <-.
  apply neuman_rows_Ok in Hrows as [_ HF].
  destruct (Forall2_lookup_l _ _ _ _ _ HF Hi) as (row & Hrow & HF').
  destruct (Forall2_lookup_l _ _ _ _ _ HF' Hj) as (v & Hv & Hent).
  exists ((fun x => x * (rate / (2 * np_pi * transmissivity)))%float <$> row), v.
  split; [rewrite list_lookup_fmap, Hrow; reflexivity|].
  split; [rewrite list_lookup_fmap, Hv; reflexivity|].
  rewrite neuman_entry_cases in Hent.
  destruct (re <? infinity)%float; [|simpl in Hent; congruence].
  destruct (specific_yield =? 0)%float; [discriminate|]. simpl in Hent.
  apply eigen_loop_last in Hent. exact Hent.
Qed.

(** X14: the only exception is [ZeroDivisionError].  It needs a zero
    [2 * pi * transmissivity], or a pair of some [s_i] and a finite radius
    together with a zero [specific_yield] or [sat_thickness]; a zero
    [2 * pi * transmissivity] raises it on every input, and a zero
    [specific_yield] as soon as there is a pair of some [s_i] and a finite
    radius. *)
Theorem neuman_zero_division s rad storage transmissivity rate
    sat_thickness screen_size well_depth kd specific_yield n_numbers :
  let call := neuman_unconfined_laplace s rad storage transmissivity rate
                sat_thickness screen_size well_depth kd specific_yield
                n_numbers in
  let finite_pair :=
    s <> [] /\ Exists (fun re => (re <? infinity)%float = true) rad in
  (forall e, call.2 = Raise e ->
     e = ZeroDivisionError
     /\ ((finite_pair /\ ((specific_yield =? 0)%float = true
                          \/ (sat_thickness =? 0)%float = true))
         \/ (2 * np_pi * transmissivity =? 0)%float = true))
  /\ ((2 * np_pi * transmissivity =? 0)%float = true ->
      call.2 = Raise ZeroDivisionError)
  /\ ((specific_yield =? 0)%float = true -> finite_pair ->
      call.2 = Raise ZeroDivisionError).
Proof.
  intros call finite_pair. subst call. rewrite neuman_call_eq. cbv zeta.
  split; [|split].
  - intros e.
    destruct (neuman_rows _ _ _ _ _ _ _ _ s).2 as [raw|e'] eqn:Hrows; cbn [fst snd].
    + destruct (py_div rate _) as [scale|e'] eqn:Hdiv; cbn [snd bind]; [discriminate|].
      intros [= <-]. apply py_div_Raise in Hdiv as [-> Hz]. auto.
    + intros [= <-]. apply neuman_rows_Raise in Hrows as (-> & Hp & Hz). auto.
  - intros Hz.
    destruct (neuman_rows _ _ _ _ _ _ _ _ s).2 as [raw|e'] eqn:Hrows; cbn [fst snd].
    + unfold py_div. rewrite Hz. reflexivity.
    + apply neuman_rows_Raise in Hrows as (-> & _). reflexivity.
  - intros Hy [Hs Hex].
    destruct (neuman_rows _ _ _ _ _ _ _ _ s).2 as [raw|e'] eqn:Hrows; cbn [fst snd].
    + exfalso. apply neuman_rows_Ok in Hrows as [_ HF].
      destruct s as [|se s]; [congruence|].
      inversion HF as [|? row ? ? Hrow _]; subst.
      apply Exists_exists in Hex as (re & Hre & Hfin).
      apply list_elem_of_lookup in Hre as [j Hj].
      destruct (Forall2_lookup_l _ _ _ _ _ Hrow Hj) as (v & _ & Hent).
      rewrite neuman_entry_cases, Hfin, Hy in Hent. discriminate.
    + apply neuman_rows_Raise in Hrows as (-> & _). reflexivity.
Qed.

(** X15: with a non-zero [specific_yield], [sat_thickness] and
    [2 * pi * transmissivity] the call returns, and the result has one row
    for each element of [s] and one column for each radius. *)
Theorem neuman_returns_shape s rad storage transmissivity rate
    sat_thickness screen_size well_depth kd specific_yield n_numbers :
  (specific_yield =? 0)%float = false ->
  (sat_thickness =? 0)%float = false ->
  (2 * np_pi * transmissivity =? 0)%float = false ->
  exists log res,
    neuman_unconfined_laplace s rad storage transmissivity rate sat_thickness
      screen_size well_depth kd specific_yield n_numbers = (log, Ok res)
    /\ length res = length s
    /\ Forall (fun row => length row = length rad) res.
Proof.
  intros Hy Hs Ht. rewrite neuman_call_eq. cbv zeta.
  destruct (neuman_rows _ _ _ _ _ _ _ _ s).2 as [raw|e] eqn:Hrows.
  - unfold py_div. rewrite Ht. simpl. eexists _, _. split; [reflexivity|].
    apply neuman_rows_Ok in Hrows as [_ HF].
    split; [rewrite length_fmap; symmetry; eapply Forall2_length, HF|].
    apply Forall_fmap. apply Forall_forall. intros row Hrow. simpl.
    rewrite length_fmap.
    apply list_elem_of_lookup in Hrow as [i Hi].
    destruct (Forall2_lookup_r _ _ _ _ _ HF Hi) as (se & _ & HF').
    symmetry. eapply Forall2_length, HF'.
  - apply neuman_rows_Raise in Hrows as (_ & _ & [Hz|Hz]); congruence.
Qed.

(** X16: a call that returns has written to standard output: one array
    for every pair of an [s_i] and a finite radius whose [righthand] is not
    above 10 (the roots found by [fsolve], cut to [n_numbers]), in the order
    of the loops, and nothing else. *)
Theorem neuman_prints s rad storage transmissivity rate
    sat_thickness screen_size well_depth kd specific_yield n_numbers log res :
  neuman_unconfined_laplace s rad storage transmissivity rate sat_thickness
    screen_size well_depth kd specific_yield n_numbers = (log, Ok res) ->
  log = flat_map (fun se =>
          flat_map (printed_for storage sat_thickness kd specific_yield
                      n_numbers se) rad) s.
Proof.
  intros Hrun. rewrite neuman_call_eq in Hrun. cbv zeta in Hrun.
  destruct (neuman_rows _ _ _ _ _ _ _ _ s).2 as [raw|e] eqn:Hrows;
    [|discriminate].
  injection Hrun as <- _. apply neuman_rows_Ok in Hrows as [Hlog _].
  exact Hlog.
Qed.

End NeumanCall.

(** The sample run: the entry for [s = 1e-5] and [r = 10] is the term of the
    second root, the first root being zero. *)
Lemma neuman_last_eigenvalue_only_witness :
  let z := (52 - 12.6)%float in
  let d := (12.6 - 11.88)%float in
  let betaw := (0.61 * np_pow (Numerics := NeumanSample.numerics) (10 / 52) 2)%float in
  let righthand :=
    righthand_of (H := NeumanSample.numerics) 1e-4 52 0.61 0.26 1e-5 10 in
  last_nonzero
    (epsilon_visited (E := NeumanSample.neuman_numerics) 2 righthand)
  = Some 4.6403561935824635%float
  /\ exists row v,
       NeumanSample.res !! 1 = Some row
       /\ row !! 0 = Some (v * (-1e-4 / (2 * np_pi * 1e-4)))%float
       /\ if (10 <? infinity)%float then
            match last_nonzero
                    (epsilon_visited (E := NeumanSample.neuman_numerics) 2
                       righthand) with
            | Some eps =>
                neuman_term (H := NeumanSample.numerics)
                  (E := NeumanSample.neuman_numerics) 1e-5 betaw 52 12.6 d z eps
                = Ok v
            | None => v = F64.zero
            end
          else v = F64.zero.
Proof.
  intros z d betaw righthand. split; [reflexivity|].
  apply (neuman_last_eigenvalue_only (H := NeumanSample.numerics)
           (E := NeumanSample.neuman_numerics) NeumanSample.s NeumanSample.rad
           1e-4 1e-4 (-1e-4) 52 11.88 12.6 0.61 0.26 2 NeumanSample.log
           NeumanSample.res 1 0 1e-5 10); reflexivity.
Defined.

(** The sample call with a zero transmissivity, and with a zero specific
    yield. *)
Lemma neuman_zero_division_witness :
  (NeumanSample.call NeumanSample.s NeumanSample.rad 0 52 0.26).2
  = Raise ZeroDivisionError
  /\ (NeumanSample.call NeumanSample.s NeumanSample.rad 1e-4 52 0).2
     = Raise ZeroDivisionError.
Proof.
  pose proof (neuman_zero_division (H := NeumanSample.numerics)
                (E := NeumanSample.neuman_numerics) NeumanSample.s
                NeumanSample.rad 1e-4 0 (-1e-4) 52 11.88 12.6 0.61 0.26 2)
    as (_ & HT & _).
  pose proof (neuman_zero_division (H := NeumanSample.numerics)
                (E := NeumanSample.neuman_numerics) NeumanSample.s
                NeumanSample.rad 1e-4 1e-4 (-1e-4) 52 11.88 12.6 0.61 0 2)
    as (_ & _ & HY).
  split.
  - apply HT. reflexivity.
  - apply HY; [reflexivity|].
    split; [discriminate|]. apply Exists_cons_hd. reflexivity.
Defined.

(** The sample call returns a 2-by-2 result. *)
Lemma neuman_returns_shape_witness :
  exists log res,
    NeumanSample.call NeumanSample.s NeumanSample.rad 1e-4 52 0.26
    = (log, Ok res)
    /\ length res = length NeumanSample.s
    /\ Forall (fun row => length row = length NeumanSample.rad) res.
Proof.
  apply (neuman_returns_shape (H := NeumanSample.numerics)
           (E := NeumanSample.neuman_numerics) NeumanSample.s NeumanSample.rad
           1e-4 1e-4 (-1e-4) 52 11.88 12.6 0.61 0.26 2); reflexivity.
Defined.

(** The sample run printed one array, for [s = 1e-5] and [r = 10]. *)
Lemma neuman_prints_witness :
  NeumanSample.log
  = flat_map (fun se =>
      flat_map (printed_for (H := NeumanSample.numerics)
                  (E := NeumanSample.neuman_numerics) 1e-4 52 0.61 0.26 2 se)
        NeumanSample.rad) NeumanSample.s
  /\ length NeumanSample.log = 1.
Proof.
  split; [|reflexivity].
  apply (neuman_prints (H := NeumanSample.numerics)
           (E := NeumanSample.neuman_numerics) NeumanSample.s NeumanSample.rad
           1e-4 1e-4 (-1e-4) 52 11.88 12.6 0.61 0.26 2 NeumanSample.log
           NeumanSample.res).
  reflexivity.
Defined.
